(** * jsx-access-aid: the rule engines and the line diff, embedded in Rocq

    Sources embedded here:
    - [src/lib/accessibility-fixer.ts]: [fixAccessibility], [generateDiff]
      (module [Basic]);
    - [src/lib/ai-accessibility-fixer.ts], the module [Header.tsx]
      imports [fixAccessibilityWithAI] from: the synchronous core of
      [AIAccessibilityService] ([performBasicAnalysis],
      [enhanceWithAIAnalysis], [applyFixes]) (module [AI]); its
      narrative ([generateAIAnalysis], [generateSuggestions],
      [analyzeCode]) (modules [Service] and [WithAI]);
    - [src/lib/ai-config.ts]: [defaultAIConfig], [aiConfig],
      [getAIServiceConfig], [validateAIConfig] (module [Config]);
    - the pages: the grouping and the diff of [ResultsPanel.tsx] (module
      [ResultsPanel]), and [handleAnalyze], [getBadgeVariant],
      [groupedLog] and the Changes tab of [Index.tsx] (module [Index]).

    Both files drive their rewrites through [String.prototype.replace] with
    a regular expression and a replacer callback.  The regular expressions
    are kept as syntax trees ([regex]) and run by a backtracking matcher
    that follows the continuation-passing matcher of ECMA-262 (section
    "Pattern Semantics"), so that every pattern below can be compared with
    the literal in the source character by character. *)

From Stdlib Require Import List NArith Arith Bool Ascii String QArith Lia.
From Stdlib Require Import DecimalString.
Import ListNotations.

Set Implicit Arguments.

Close Scope Q_scope.

Abbreviation length := List.length.

(** ** Strings

    A JavaScript string is a sequence of UTF-16 code units. *)

Definition char := N.
Definition str := list char.

Definition lit (s : string) : str :=
  map N_of_ascii (list_ascii_of_string s).
Arguments lit s%_string.

(** The double quote, written apart from the literals. *)
Definition DQ : str := [34%N].

Definition NL : char := 10%N.

Module JS.

(** WhiteSpace and LineTerminator code units: what [\s] matches and what
    [trim] strips. *)
Definition is_space (c : char) : bool :=
  ((9 <=? c) && (c <=? 13) || (c =? 32) || (c =? 160) || (c =? 5760)
   || (8192 <=? c) && (c <=? 8202) || (c =? 8232) || (c =? 8233)
   || (c =? 8239) || (c =? 8287) || (c =? 12288) || (c =? 65279))%N.

(** [\w]: the basic word characters (the patterns carry no [u] flag). *)
Definition is_word (c : char) : bool :=
  ((48 <=? c) && (c <=? 57) || (65 <=? c) && (c <=? 90)
   || (97 <=? c) && (c <=? 122) || (c =? 95))%N.

(** Canonicalize of a code unit under the [i] flag.  Every pattern
    character in the sources is ASCII; a code unit of 128 or more never
    canonicalizes to an ASCII one, so it is left as it is. *)
Definition canonicalize (c : char) : char :=
  (if (97 <=? c) && (c <=? 122) then c - 32 else c)%N.

Fixpoint starts_with (p s : str) : bool :=
  match p, s with
  | [], _ => true
  | _ :: _, [] => false
  | a :: p', b :: s' => (a =? b)%N && starts_with p' s'
  end.

(** [s.includes(p)] *)
Fixpoint includes (s p : str) : bool :=
  starts_with p s ||
  match s with
  | [] => false
  | _ :: s' => includes s' p
  end.

(** [s.endsWith(p)] *)
Definition endsWith (s p : str) : bool :=
  starts_with (rev p) (rev s).

(** [s.replace(p, r)] with a string pattern: the first occurrence only.
    No replacement text in the sources holds a dollar sign, so the
    replacement is inserted as it is. *)
Fixpoint replace_first (s p r : str) : str :=
  if starts_with p s then r ++ skipn (length p) s
  else match s with
       | [] => []
       | c :: s' => c :: replace_first s' p r
       end.

Fixpoint drop_space (s : str) : str :=
  match s with
  | [] => []
  | c :: s' => if is_space c then drop_space s' else s
  end.

(** [s.trim()] *)
Definition trim (s : str) : str :=
  rev (drop_space (rev (drop_space s))).

(** [s.split(sep)] for a one-character separator: always at least one
    piece. *)
Fixpoint split (sep : char) (s : str) : list str :=
  match s with
  | [] => [[]]
  | c :: s' =>
      if (c =? sep)%N then [] :: split sep s'
      else match split sep s' with
           | [] => [[c]]
           | l :: ls => (c :: l) :: ls
           end
  end.

(** [s.substring(0, n)]: the end index is clamped to the length. *)
Definition substring0 (n : nat) (s : str) : str := firstn n s.

(** [s.substring(a, b)] for [a <= b]. *)
Definition substring (a b : nat) (s : str) : str := firstn (b - a) (skipn a s).

End JS.

(** ** Regular expressions *)

Inductive citem : Type :=
| CChar (c : char)
| CRange (lo hi : char)
| CSpace.

Inductive regex : Type :=
| Eps
| Chr (c : char)
| Cls (negated : bool) (items : list citem)
| Dot
| Seq (a b : regex)
| Alt (a b : regex)
| Star (greedy : bool) (a : regex)
| Group (n : nat) (a : regex)
| NegLook (a : regex)
| WordB.

Record flags : Type := { ignoreCase : bool; dotAll : bool }.

Record mstate : Type := {
  pos : nat;                 (* endIndex *)
  prev : option char;        (* the code unit before [pos], for [\b] *)
  rest : str;                (* the input from [pos] on *)
  caps : list (nat * str)    (* captures *)
}.

Module RegExp.

Definition citem_has (it : citem) (c : char) : bool :=
  match it with
  | CChar d => (c =? d)%N
  | CRange lo hi => ((lo <=? c) && (c <=? hi))%N
  | CSpace => JS.is_space c
  end.

Definition chr_eq (fl : flags) (p c : char) : bool :=
  if ignoreCase fl then (JS.canonicalize p =? JS.canonicalize c)%N
  else (p =? c)%N.

(** CharacterSetMatcher: under [i] the members are compared after
    Canonicalize.  The classes of the sources hold [>], the quotes,
    digits and [\s], all fixed by Canonicalize and reached from no other
    code unit, so membership is tested on the code unit itself. *)
Definition cls_has (negated : bool) (items : list citem) (c : char) : bool :=
  xorb negated (existsb (fun it => citem_has it c) items).

Definition is_line_terminator (c : char) : bool :=
  ((c =? 10) || (c =? 13) || (c =? 8232) || (c =? 8233))%N.

Definition dot_has (fl : flags) (c : char) : bool :=
  dotAll fl || negb (is_line_terminator c).

Definition advance (x : mstate) (c : char) (t : str) : mstate :=
  {| pos := S (pos x); prev := Some c; rest := t; caps := caps x |}.

Definition one (ok : char -> bool) (x : mstate)
    (k : mstate -> option mstate) : option mstate :=
  match rest x with
  | c :: t => if ok c then k (advance x c t) else None
  | [] => None
  end.

Definition set_cap (n : nat) (v : str) (x : mstate) : mstate :=
  {| pos := pos x; prev := prev x; rest := rest x;
     caps := (n, v) :: filter (fun e => negb (fst e =? n)) (caps x) |}.

Definition word_at (o : option char) : bool :=
  match o with Some c => JS.is_word c | None => false end.

Definition is_boundary (x : mstate) : bool :=
  xorb (word_at (prev x)) (word_at (hd_error (rest x))).

Definition Cont : Type := mstate -> option mstate.

(** RepeatMatcher with min 0 and no upper bound, for a body matcher
    [body]: an iteration that consumes nothing is refused (the check
    on [pos]), so at most as many iterations run as code units are
    left; [fuel] starts at that number. *)
Fixpoint repeat (body : mstate -> Cont -> option mstate) (greedy : bool)
    (k : Cont) (fuel : nat) (x : mstate) {struct fuel} : option mstate :=
  match fuel with
  | O => k x
  | S f =>
      if greedy then
        match body x (fun y => if pos y =? pos x then None
                               else repeat body greedy k f y) with
        | Some z => Some z
        | None => k x
        end
      else
        match k x with
        | Some z => Some z
        | None => body x (fun y => if pos y =? pos x then None
                                   else repeat body greedy k f y)
        end
  end.

(** The matcher of a pattern: [m fl r x k] runs [r] from state [x] and
    hands every candidate end state to the continuation [k], in the
    order of preference of the backtracking semantics. *)
Fixpoint m (fl : flags) (r : regex) (x : mstate) (k : Cont) {struct r}
    : option mstate :=
  match r with
  | Eps => k x
  | Chr p => one (chr_eq fl p) x k
  | Cls negated items => one (cls_has negated items) x k
  | Dot => one (dot_has fl) x k
  | Seq a b => m fl a x (fun y => m fl b y k)
  | Alt a b =>
      match m fl a x k with
      | Some z => Some z
      | None => m fl b x k
      end
  | Star greedy a => repeat (m fl a) greedy k (length (rest x)) x
  | Group n a =>
      m fl a x (fun y => k (set_cap n (firstn (pos y - pos x) (rest x)) y))
  | NegLook a =>
      match m fl a x (fun y => Some y) with
      | Some _ => None
      | None => k x
      end
  | WordB => if is_boundary x then k x else None
  end.

Definition start (p : nat) (pv : option char) (s : str) : mstate :=
  {| pos := p; prev := pv; rest := s; caps := [] |}.

(** One attempt at one position. *)
Definition match_at (fl : flags) (r : regex) (p : nat) (pv : option char)
    (s : str) : option mstate :=
  m fl r (start p pv s) (fun y => Some y).

Record result : Type := {
  index : nat;
  matched : str;
  groups : list (nat * str)
}.

Definition mk_result (p : nat) (s : str) (y : mstate) : result :=
  {| index := p; matched := firstn (pos y - p) s; groups := caps y |}.

(** RegExpBuiltinExec without the sticky flag: the first position, from
    the current one up to the end of the input, where the pattern
    matches. *)
Fixpoint exec_from (fl : flags) (r : regex) (p : nat) (pv : option char)
    (s : str) : option result :=
  match match_at fl r p pv s with
  | Some y => Some (mk_result p s y)
  | None =>
      match s with
      | [] => None
      | c :: t => exec_from fl r (S p) (Some c) t
      end
  end.

Definition exec (fl : flags) (r : regex) (s : str) : option result :=
  exec_from fl r 0 None s.

(** [re.test(s)] for a pattern without the [g] flag. *)
Definition test (fl : flags) (r : regex) (s : str) : bool :=
  match exec fl r s with Some _ => true | None => false end.

(** The results a global pattern yields, left to right: after a match
    the scan resumes at its end, one code unit further when the match
    was empty.  [skip] counts the code units of the last match still to
    be passed over. *)
Fixpoint scan (fl : flags) (r : regex) (p : nat) (pv : option char)
    (s : str) (skip : nat) : list result :=
  match skip with
  | S n =>
      match s with
      | [] => []
      | c :: t => scan fl r (S p) (Some c) t n
      end
  | O =>
      match match_at fl r p pv s with
      | Some y =>
          mk_result p s y ::
          match s with
          | [] => []
          | c :: t => scan fl r (S p) (Some c) t (pred (pos y - p))
          end
      | None =>
          match s with
          | [] => []
          | c :: t => scan fl r (S p) (Some c) t 0
          end
      end
  end.

Definition matchAll (fl : flags) (r : regex) (s : str) : list result :=
  scan fl r 0 None s 0.

Definition group (n : nat) (res : result) : str :=
  match find (fun e => fst e =? n) (groups res) with
  | Some e => snd e
  | None => []
  end.

Section Replace.
Variable St : Type.
(** The replacer callback, with the state it updates. *)
Variable cb : result -> St -> str * St.

(** The second loop of RegExp.prototype[Symbol.replace]: the replacer
    is called on every result in order; the pieces of the input
    between the matches are copied. *)
Fixpoint build (s : str) (next : nat) (rs : list result) (st : St)
    : str * St :=
  match rs with
  | [] => (skipn next s, st)
  | res :: rs' =>
      let '(rep, st1) := cb res st in
      if next <=? index res then
        let '(out, st2) :=
          build s (index res + length (matched res)) rs' st1 in
        (JS.substring next (index res) s ++ rep ++ out, st2)
      else build s next rs' st1
  end.

(** [s.replace(re, callback)] for a global pattern. *)
Definition replace (fl : flags) (r : regex) (s : str) (st : St)
    : str * St :=
  build s 0 (matchAll fl r s) st.
End Replace.

(** [s.replace(re, text)] with a replacement free of dollar signs. *)
Definition replace_text (fl : flags) (r : regex) (s rep : str) : str :=
  fst (replace (fun _ (u : unit) => (rep, u)) fl r s tt).

End RegExp.

(** *** Writing patterns *)

Definition cat (rs : list regex) : regex := fold_right Seq Eps rs.
Definition L (s : string) : regex := cat (map Chr (lit s)).
Definition notc (s : string) : regex := Cls true (map CChar (lit s)).
Arguments L s%_string.
Arguments notc s%_string.
Definition sp : regex := Cls false [CSpace].
Definition star (a : regex) : regex := Star true a.
Definition lazy (a : regex) : regex := Star false a.
Definition alts (rs : list regex) : regex :=
  match rs with
  | [] => Eps
  | r :: rs' => fold_left Alt rs' r
  end.

Definition gi : flags := {| ignoreCase := true; dotAll := false |}.
Definition gis : flags := {| ignoreCase := true; dotAll := true |}.
Definition noflags : flags := {| ignoreCase := false; dotAll := false |}.

(** ** The fix records

    [AccessibilityFix] and [FixResult] as [ai-accessibility-fixer.ts]
    declares them; [accessibility-fixer.ts] declares the same records
    without [confidence] and [explanation], and with the first four
    categories only.  The narrative fields [analysis] and [suggestions] of
    the second file are built from the fix list after the engine has run
    and are left out. *)

Inductive Category : Type :=
| Images
| InteractiveElements
| Forms
| Navigation
| Semantics
| ARIA
| KeyboardNavigation.

Definition Category_eqb (a b : Category) : bool :=
  match a, b with
  | Images, Images | InteractiveElements, InteractiveElements
  | Forms, Forms | Navigation, Navigation | Semantics, Semantics
  | ARIA, ARIA | KeyboardNavigation, KeyboardNavigation => true
  | _, _ => false
  end.

Record AccessibilityFix : Type := {
  category : Category;
  action : str;
  selector : str;
  summary : str;
  line : option nat;
  confidence : option Q;
  explanation : option str
}.

Record FixResult : Type := {
  code : str;
  fixes : list AccessibilityFix;
  hasChanges : bool
}.

(** [sourceCode.substring(0, index).split('\n').length + lineOffset]; the
    variable [lineOffset] is 0 and never assigned. *)
Definition getLineNumber (sourceCode : str) (index : nat) : nat :=
  length (JS.split NL (JS.substring0 index sourceCode)) + 0.

(** ** accessibility-fixer.ts *)

Module Basic.

(** [/<img(?![^>]*\balt\s*=)([^>]*?)>/gi] *)
Definition img_re : regex :=
  cat [L "<img";
       NegLook (cat [star (notc ">"); WordB; L "alt"; star sp; L "="]);
       Group 1 (lazy (notc ">"));
       L ">"].

(** [/<button(?![^>]*\baria-label\s*=)([^>]*?)>\s*<svg[^>]*>.*?<\/svg>\s*<\/button>/gis] *)
Definition button_re : regex :=
  cat [L "<button";
       NegLook (cat [star (notc ">"); WordB; L "aria-label"; star sp; L "="]);
       Group 1 (lazy (notc ">"));
       L ">"; star sp; L "<svg"; star (notc ">"); L ">"; lazy Dot;
       L "</svg>"; star sp; L "</button>"].

(** [/<a(?![^>]*\baria-label\s*=)([^>]*?)>\s*(?:<[^>]*>)*\s*<\/a>/gi] *)
Definition a_re : regex :=
  cat [L "<a";
       NegLook (cat [star (notc ">"); WordB; L "aria-label"; star sp; L "="]);
       Group 1 (lazy (notc ">"));
       L ">"; star sp; star (cat [L "<"; star (notc ">"); L ">"]);
       star sp; L "</a>"].

(** [/<[^>]*>/g] *)
Definition tag_re : regex := cat [L "<"; star (notc ">"); L ">"].

(** [/<div(?![^>]*\brole\s*=)([^>]*?)onClick\s*=\s*[^>]*?>/gi] *)
Definition div_re : regex :=
  cat [L "<div";
       NegLook (cat [star (notc ">"); WordB; L "role"; star sp; L "="]);
       Group 1 (lazy (notc ">"));
       L "onClick"; star sp; L "="; star sp; lazy (notc ">"); L ">"].

(** [/<input(?![^>]*\b(?:aria-label|id)\s*=)([^>]*?)(?:\s*\/>|>\s*<\/input>)/gi] *)
Definition input_re : regex :=
  cat [L "<input";
       NegLook (cat [star (notc ">"); WordB;
                     Alt (L "aria-label") (L "id"); star sp; L "="]);
       Group 1 (lazy (notc ">"));
       Alt (cat [star sp; L "/>"]) (cat [L ">"; star sp; L "</input>"])].

(** [/<label[^>]*\bfor\s*=\s*[Q'][^Q']*[Q']/], where Q stands for the
    double quote *)
Definition label_re : regex :=
  cat [L "<label"; star (notc ">"); WordB; L "for"; star sp; L "=";
       star sp;
       Cls false [CChar 34%N; CChar 39%N];
       star (Cls true [CChar 34%N; CChar 39%N]);
       Cls false [CChar 34%N; CChar 39%N]].

Definition mkfix (c : Category) (a sel sum : str) (ln : nat)
    : AccessibilityFix :=
  {| category := c; action := a; selector := sel; summary := sum;
     line := Some ln; confidence := None; explanation := None |}.

Section Rules.
Variable sourceCode : str.

Definition Replacer : Type :=
  RegExp.result -> list AccessibilityFix -> str * list AccessibilityFix.

Definition img_fix (attrs : str) (offset : nat) : AccessibilityFix :=
  mkfix Images (lit "Added alt attribute")
    (lit "img" ++ (if JS.includes attrs (lit "src") then lit "[src]"
                   else []))
    (lit "Added empty alt attribute for decorative image")
    (getLineNumber sourceCode offset).

(** Fix 1: img tags without alt attribute *)
Definition fix_img : Replacer := fun res fixes =>
  let attrs := RegExp.group 1 res in
  (lit "<img" ++ attrs ++ lit " alt=" ++ DQ ++ DQ ++ lit ">",
   fixes ++ [img_fix attrs (RegExp.index res)]).

Definition button_fix (offset : nat) : AccessibilityFix :=
  mkfix InteractiveElements (lit "Added aria-label") (lit "button > svg")
    (lit "Added aria-label for button with only SVG content")
    (getLineNumber sourceCode offset).

(** Fix 2: button with only SVG child *)
Definition fix_button : Replacer := fun res fixes =>
  (JS.replace_first (RegExp.matched res) (lit "<button")
     (lit "<button aria-label=" ++ DQ ++ lit "Button" ++ DQ),
   fixes ++ [button_fix (RegExp.index res)]).

Definition a_fix (offset : nat) : AccessibilityFix :=
  mkfix Navigation (lit "Added aria-label") (lit "a[href]")
    (lit "Added aria-label for link without text content")
    (getLineNumber sourceCode offset).

(** Fix 3: a tags with no text content; the empty string is falsy. *)
Definition fix_a : Replacer := fun res fixes =>
  let mt := RegExp.matched res in
  let textContent := JS.trim (RegExp.replace_text noflags tag_re mt []) in
  match textContent with
  | [] =>
      (JS.replace_first mt (lit "<a")
         (lit "<a aria-label=" ++ DQ ++ lit "Link" ++ DQ),
       fixes ++ [a_fix (RegExp.index res)])
  | _ :: _ => (mt, fixes)
  end.

Definition div_fix (offset : nat) : AccessibilityFix :=
  mkfix InteractiveElements (lit "Added role and tabIndex")
    (lit "div[onClick]")
    (lit "Made clickable div keyboard accessible")
    (getLineNumber sourceCode offset).

(** Fix 4: div with onClick *)
Definition fix_div : Replacer := fun res fixes =>
  let replacement := RegExp.matched res in
  let replacement :=
    if negb (JS.includes replacement (lit "role=")) then
      JS.replace_first replacement (lit "<div")
        (lit "<div role=" ++ DQ ++ lit "button" ++ DQ)
    else replacement in
  let replacement :=
    if negb (JS.includes replacement (lit "tabIndex")) then
      JS.replace_first replacement (lit "<div") (lit "<div tabIndex={0}")
    else replacement in
  (replacement, fixes ++ [div_fix (RegExp.index res)]).

Definition hasAssociatedLabel : bool :=
  RegExp.test noflags label_re sourceCode.

Definition input_fix (offset : nat) : AccessibilityFix :=
  mkfix Forms (lit "Added aria-label") (lit "input")
    (lit "Added aria-label for input without associated label")
    (getLineNumber sourceCode offset).

Definition input_patch (mt : str) : str :=
  if JS.endsWith mt (lit "/>") then
    JS.replace_first mt (lit "/>")
      (lit " aria-label=" ++ DQ ++ lit "Input" ++ DQ ++ lit " />")
  else
    JS.replace_first mt (lit ">")
      (lit " aria-label=" ++ DQ ++ lit "Input" ++ DQ ++ lit ">").

(** Fix 5: input without label or aria-label *)
Definition fix_input : Replacer := fun res fixes =>
  let mt := RegExp.matched res in
  if negb hasAssociatedLabel then
    (input_patch mt, fixes ++ [input_fix (RegExp.index res)])
  else (mt, fixes).

(** The five passes in order, each over the text the one before left;
    [fixes] is shared by all of them. *)
Definition rules : list (flags * regex * Replacer) :=
  [(gi, img_re, fix_img);
   (gis, button_re, fix_button);
   (gi, a_re, fix_a);
   (gi, div_re, fix_div);
   (gi, input_re, fix_input)].

Definition run_rule (rl : flags * regex * Replacer)
    (cf : str * list AccessibilityFix) : str * list AccessibilityFix :=
  let '(fl, re, cb) := rl in
  RegExp.replace cb fl re (fst cf) (snd cf).

Definition run_rules (rls : list (flags * regex * Replacer))
    (cf : str * list AccessibilityFix) : str * list AccessibilityFix :=
  fold_left (fun acc rl => run_rule rl acc) rls cf.

Definition fixAccessibility : FixResult :=
  let '(code, fixes) := run_rules rules (sourceCode, []) in
  {| code := JS.trim code;
     fixes := fixes;
     hasChanges := 0 <? length fixes |}.
End Rules.

(** *** generateDiff *)

Inductive DiffType : Type := added | removed | unchanged.

Record DiffLine : Type := {
  type : DiffType;
  content : str;
  lineNumber : option nat
}.

Definition entry (t : DiffType) (c : str) (n : nat) : DiffLine :=
  {| type := t; content := c; lineNumber := Some n |}.

Fixpoint str_eqb (a b : str) : bool :=
  match a, b with
  | [], [] => true
  | c :: a', d :: b' => (c =? d)%N && str_eqb a' b'
  | _, _ => false
  end.

(** [lines[i] || '']: [undefined] and the empty line both give the
    empty string. *)
Definition line_or_empty (lines : list str) (i : nat) : str :=
  match nth_error lines i with
  | Some l => l
  | None => []
  end.

(** [a[i + 1] === b[j + 1]] on array reads that may be [undefined]:
    [undefined] is equal to [undefined] only. *)
Definition same_next (a b : option str) : bool :=
  match a, b with
  | Some l, Some l' => str_eqb l l'
  | None, None => true
  | _, _ => false
  end.

Section Diff.
Variables originalLines fixedLines : list str.

(** One turn of the [while] loop: the entries pushed and the new
    cursors. *)
Definition diff_step (originalIndex fixedIndex : nat)
    : list DiffLine * (nat * nat) :=
  let originalLine := line_or_empty originalLines originalIndex in
  let fixedLine := line_or_empty fixedLines fixedIndex in
  if str_eqb originalLine fixedLine then
    ([entry unchanged originalLine (originalIndex + 1)],
     (originalIndex + 1, fixedIndex + 1))
  else if length originalLines <=? originalIndex then
    ([entry added fixedLine (fixedIndex + 1)],
     (originalIndex, fixedIndex + 1))
  else if length fixedLines <=? fixedIndex then
    ([entry removed originalLine (originalIndex + 1)],
     (originalIndex + 1, fixedIndex))
  else if same_next (nth_error originalLines (originalIndex + 1))
                    (nth_error fixedLines (fixedIndex + 1)) then
    ([entry removed originalLine (originalIndex + 1);
      entry added fixedLine (fixedIndex + 1)],
     (originalIndex + 1, fixedIndex + 1))
  else
    ([entry unchanged originalLine (originalIndex + 1)],
     (originalIndex + 1, fixedIndex + 1)).

Definition diff_continues (originalIndex fixedIndex : nat) : bool :=
  (originalIndex <? length originalLines)
  || (fixedIndex <? length fixedLines).

(** The [while] loop.  Every turn moves at least one cursor that has
    not reached its end, so [length originalLines + length fixedLines]
    turns are enough ([diff_loop_fuel]). *)
Fixpoint diff_loop (fuel originalIndex fixedIndex : nat)
    : list DiffLine :=
  match fuel with
  | O => []
  | S n =>
      if diff_continues originalIndex fixedIndex then
        let '(out, (i, j)) := diff_step originalIndex fixedIndex in
        out ++ diff_loop n i j
      else []
  end.
End Diff.

Definition generateDiff (original fixed : str) : list DiffLine :=
  let originalLines := JS.split NL original in
  let fixedLines := JS.split NL fixed in
  diff_loop originalLines fixedLines
    (length originalLines + length fixedLines) 0 0.

End Basic.

(** ** ai-accessibility-fixer.ts *)

Module AI.

(** The image and the clickable-div patterns are those of
    [accessibility-fixer.ts]. *)
Definition img_re : regex := Basic.img_re.
Definition div_re : regex := Basic.div_re.

(** [/(?:decorative|background|spacer|divider)/i] *)
Definition decorative_re : regex :=
  alts [L "decorative"; L "background"; L "spacer"; L "divider"].

(** [\b(?:aria-label|aria-labelledby)\s*=] after [[^>]*], the body of
    the lookahead of the button and link patterns *)
Definition labelled : regex :=
  cat [star (notc ">"); WordB;
       Alt (L "aria-label") (L "aria-labelledby"); star sp; L "="].

(** [/<button(?![^>]*\b(?:aria-label|aria-labelledby)\s*=)([^>]*?)>\s*<svg[^>]*>.*?<\/svg>\s*<\/button>/gis] *)
Definition button_re : regex :=
  cat [L "<button";
       NegLook labelled;
       Group 1 (lazy (notc ">"));
       L ">"; star sp; L "<svg"; star (notc ">"); L ">"; lazy Dot;
       L "</svg>"; star sp; L "</button>"].

(** [/<a(?![^>]*\b(?:aria-label|aria-labelledby)\s*=)([^>]*?)>\s*(?:<[^>]*>)*\s*<\/a>/gi] *)
Definition a_re : regex :=
  cat [L "<a";
       NegLook labelled;
       Group 1 (lazy (notc ">"));
       L ">"; star sp; star (cat [L "<"; star (notc ">"); L ">"]);
       star sp; L "</a>"].

(** [/<input(?![^>]*\b(?:aria-label|id|aria-labelledby)\s*=)([^>]*?)(?:\s*\/>|>\s*<\/input>)/gi] *)
Definition input_re : regex :=
  cat [L "<input";
       NegLook (cat [star (notc ">"); WordB;
                     alts [L "aria-label"; L "id"; L "aria-labelledby"];
                     star sp; L "="]);
       Group 1 (lazy (notc ">"));
       Alt (cat [star sp; L "/>"]) (cat [L ">"; star sp; L "</input>"])].

Definition label_re : regex := Basic.label_re.
Definition tag_re : regex := Basic.tag_re.

(** [/<div[^>]*>/g] *)
Definition anydiv_re : regex := cat [L "<div"; star (notc ">"); L ">"].

(** [/<h[1-6][^>]*>/g] *)
Definition heading_re : regex :=
  cat [L "<h"; Cls false [CRange 49%N 54%N]; star (notc ">"); L ">"].

(** [/<h([1-6])/] *)
Definition level_re : regex :=
  cat [L "<h"; Group 1 (Cls false [CRange 49%N 54%N])].

Definition mkfix (c : Category) (a sel sum : str) (ln : option nat)
    (conf : Q) (expl : str) : AccessibilityFix :=
  {| category := c; action := a; selector := sel; summary := sum;
     line := ln; confidence := Some conf; explanation := Some expl |}.

Definition Replacer : Type :=
  RegExp.result -> list AccessibilityFix -> str * list AccessibilityFix.

Definition isDecorative (attrs : str) : bool :=
  RegExp.test gi decorative_re attrs.

Section Analysis.
Variable code : str.

Definition img_fix (attrs : str) (offset : nat) : AccessibilityFix :=
  mkfix Images (lit "Added alt attribute")
    (lit "img" ++ (if JS.includes attrs (lit "src") then lit "[src]"
                   else []))
    (if isDecorative attrs
     then lit "Added empty alt attribute for decorative image"
     else lit "Added descriptive alt attribute for meaningful image")
    (Some (getLineNumber code offset))
    (95 # 100)
    (if isDecorative attrs
     then lit "Decorative images should have empty alt attributes to be ignored by screen readers"
     else lit "Images should have descriptive alt text for screen reader users").

Definition see_img : Replacer := fun res fixes =>
  (RegExp.matched res,
   fixes ++ [img_fix (RegExp.group 1 res) (RegExp.index res)]).

Definition button_fix (offset : nat) : AccessibilityFix :=
  mkfix InteractiveElements (lit "Added aria-label") (lit "button > svg")
    (lit "Added descriptive aria-label for button with only SVG content")
    (Some (getLineNumber code offset))
    (9 # 10)
    (lit "Buttons with only SVG content need aria-label for screen reader accessibility").

Definition see_button : Replacer := fun res fixes =>
  (RegExp.matched res, fixes ++ [button_fix (RegExp.index res)]).

Definition a_fix (offset : nat) : AccessibilityFix :=
  mkfix Navigation (lit "Added aria-label") (lit "a[href]")
    (lit "Added descriptive aria-label for link without text content")
    (Some (getLineNumber code offset))
    (9 # 10)
    (lit "Links without text content need aria-label for screen reader users").

Definition see_a : Replacer := fun res fixes =>
  let mt := RegExp.matched res in
  match JS.trim (RegExp.replace_text noflags tag_re mt []) with
  | [] => (mt, fixes ++ [a_fix (RegExp.index res)])
  | _ :: _ => (mt, fixes)
  end.

Definition div_fix (offset : nat) : AccessibilityFix :=
  mkfix InteractiveElements (lit "Added role and keyboard support")
    (lit "div[onClick]")
    (lit "Made clickable div keyboard accessible with role=" ++ DQ
       ++ lit "button" ++ DQ ++ lit " and tabIndex")
    (Some (getLineNumber code offset))
    (85 # 100)
    (lit "Clickable divs need proper ARIA roles and keyboard navigation support").

Definition see_div : Replacer := fun res fixes =>
  (RegExp.matched res, fixes ++ [div_fix (RegExp.index res)]).

Definition hasAssociatedLabel : bool :=
  RegExp.test noflags label_re code.

Definition input_fix (offset : nat) : AccessibilityFix :=
  mkfix Forms (lit "Added accessibility attributes") (lit "input")
    (lit "Added aria-label for input without associated label")
    (Some (getLineNumber code offset))
    (9 # 10)
    (lit "Form inputs need labels or aria-label for screen reader accessibility").

Definition see_input : Replacer := fun res fixes =>
  if negb hasAssociatedLabel then
    (RegExp.matched res, fixes ++ [input_fix (RegExp.index res)])
  else (RegExp.matched res, fixes).

(** Every pass scans [code] itself: the text [replace] returns is
    dropped, only [fixes] is kept. *)
Definition detectors : list (flags * regex * Replacer) :=
  [(gi, img_re, see_img);
   (gis, button_re, see_button);
   (gi, a_re, see_a);
   (gi, div_re, see_div);
   (gi, input_re, see_input)].

Definition performBasicAnalysis : list AccessibilityFix :=
  fold_left
    (fun fixes (d : flags * regex * Replacer) =>
       let '(fl, re, cb) := d in
       snd (RegExp.replace cb fl re code fixes))
    detectors [].

Definition advice (c : Category) (a sel sum : str) (conf : Q)
    (expl : str) : AccessibilityFix :=
  mkfix c a sel sum None conf expl.

(** [parseInt(h.match(/<h([1-6])/)?.[1] || '1')] *)
Definition heading_level (h : str) : nat :=
  match RegExp.exec noflags level_re h with
  | Some res =>
      match RegExp.group 1 res with
      | d :: _ => N.to_nat (d - 48)
      | [] => 1
      end
  | None => 1
  end.

(** [levels.some((level, index) => index > 0 && level - levels[index - 1] > 1)] *)
Fixpoint skips_level (levels : list nat) : bool :=
  match levels with
  | a :: ((b :: _) as tl) => (S a <? b) || skips_level tl
  | _ => false
  end.

Definition enhanceWithAIAnalysis (basicFixes : list AccessibilityFix)
    : list AccessibilityFix :=
  let enhancedFixes := basicFixes in
  let enhancedFixes :=
    if JS.includes code (lit "<div")
       && negb (JS.includes code (lit "role="))
       && negb (JS.includes code (lit "aria-label="))
       && (3 <? length (RegExp.matchAll noflags anydiv_re code))
    then enhancedFixes ++
         [advice Semantics (lit "Suggested semantic elements") (lit "div")
            (lit "Consider using semantic HTML elements (main, section, article, nav) instead of generic divs")
            (75 # 100)
            (lit "Semantic HTML improves accessibility and SEO by providing meaningful structure")]
    else enhancedFixes in
  let enhancedFixes :=
    if JS.includes code (lit "color:")
       || JS.includes code (lit "background-color:")
    then enhancedFixes ++
         [advice ARIA (lit "Color contrast check") (lit "style")
            (lit "Verify color contrast ratios meet WCAG 2.1 AA standards (4.5:1 for normal text)")
            (7 # 10)
            (lit "Insufficient color contrast makes text difficult to read for users with visual impairments")]
    else enhancedFixes in
  let enhancedFixes :=
    if skips_level
         (map (fun res => heading_level (RegExp.matched res))
            (RegExp.matchAll noflags heading_re code))
    then enhancedFixes ++
         [advice Semantics (lit "Heading structure") (lit "h1-h6")
            (lit "Avoid skipping heading levels (e.g., h1 to h3) for proper document outline")
            (8 # 10)
            (lit "Proper heading hierarchy helps screen reader users navigate content effectively")]
    else enhancedFixes in
  if JS.includes code (lit "onClick")
     && negb (JS.includes code (lit "onKeyDown"))
     && negb (JS.includes code (lit "onKeyPress"))
  then enhancedFixes ++
       [advice KeyboardNavigation (lit "Keyboard event handling")
          (lit "interactive elements")
          (lit "Add keyboard event handlers (onKeyDown, onKeyPress) for interactive elements")
          (85 # 100)
          (lit "Keyboard-only users need alternative ways to interact with clickable elements")]
  else enhancedFixes.

(** The replacers of [applyFixes] keep no record: their state is
    [unit]. *)
Definition Patch : Type := RegExp.result -> unit -> str * unit.

Definition patch_img : Patch := fun res u =>
  let attrs := RegExp.group 1 res in
  (lit "<img" ++ attrs ++ lit " alt=" ++ DQ
     ++ (if isDecorative attrs then []
         else lit "Descriptive text for image")
     ++ DQ ++ lit ">", u).

Definition patch_button : Patch := fun res u =>
  (JS.replace_first (RegExp.matched res) (lit "<button")
     (lit "<button aria-label=" ++ DQ ++ lit "Button action" ++ DQ), u).

Definition patch_a : Patch := fun res u =>
  let mt := RegExp.matched res in
  match JS.trim (RegExp.replace_text noflags tag_re mt []) with
  | [] =>
      (JS.replace_first mt (lit "<a")
         (lit "<a aria-label=" ++ DQ ++ lit "Link destination" ++ DQ), u)
  | _ :: _ => (mt, u)
  end.

Definition patch_div : Patch := fun res u =>
  let replacement := RegExp.matched res in
  let replacement :=
    if negb (JS.includes replacement (lit "role=")) then
      JS.replace_first replacement (lit "<div")
        (lit "<div role=" ++ DQ ++ lit "button" ++ DQ)
    else replacement in
  let replacement :=
    if negb (JS.includes replacement (lit "tabIndex")) then
      JS.replace_first replacement (lit "<div") (lit "<div tabIndex={0}")
    else replacement in
  let replacement :=
    if negb (JS.includes replacement (lit "onKeyDown")) then
      JS.replace_first replacement (lit "<div")
        (lit "<div onKeyDown={(e) => e.key === " ++ DQ ++ lit "Enter"
           ++ DQ ++ lit " && e.currentTarget.click()}")
    else replacement in
  (replacement, u).

Definition input_patch (mt : str) : str :=
  if JS.endsWith mt (lit "/>") then
    JS.replace_first mt (lit "/>")
      (lit " aria-label=" ++ DQ ++ lit "Input field" ++ DQ ++ lit " />")
  else
    JS.replace_first mt (lit ">")
      (lit " aria-label=" ++ DQ ++ lit "Input field" ++ DQ ++ lit ">").

Definition patch_input : Patch := fun res u =>
  let mt := RegExp.matched res in
  if negb hasAssociatedLabel then (input_patch mt, u) else (mt, u).

Definition patches : list (flags * regex * Patch) :=
  [(gi, img_re, patch_img);
   (gis, button_re, patch_button);
   (gi, a_re, patch_a);
   (gi, div_re, patch_div);
   (gi, input_re, patch_input)].

(** [applyFixes(code, fixes)]: the argument [fixes] is not read. *)
Definition applyFixes (fixes : list AccessibilityFix) : str :=
  JS.trim
    (fold_left
       (fun fixedCode (p : flags * regex * Patch) =>
          let '(fl, re, cb) := p in
          fst (RegExp.replace cb fl re fixedCode tt))
       patches code).

(** [analyzeCode] followed by the repacking of [fixAccessibilityWithAI]:
    the delay and the random overall confidence do not reach the
    result. *)
Definition fixAccessibilityWithAI : FixResult :=
  let aiEnhancedFixes := enhanceWithAIAnalysis performBasicAnalysis in
  Build_FixResult (applyFixes aiEnhancedFixes) aiEnhancedFixes
    (0 <? length aiEnhancedFixes).

(** The [catch] branch of [fixAccessibilityWithAI]: the five rules
    alone. *)
Definition fallback : FixResult :=
  let basicFixes := performBasicAnalysis in
  Build_FixResult (applyFixes basicFixes) basicFixes
    (0 <? length basicFixes).
End Analysis.

End AI.

(** * The vocabulary of the properties *)

(** The number of line breaks of a text. *)
Definition newlines (s : str) : nat :=
  length (filter (fun c => (c =? NL)%N) s).

(** The number of lines of a text. *)
Definition lineCount (s : str) : nat := length (JS.split NL s).

(** No white space at either end. *)
Definition trimmed (s : str) : Prop :=
  (forall c t, s = c :: t -> JS.is_space c = false) /\
  (forall c t, s = t ++ [c] -> JS.is_space c = false).

(** The record [f] carries the line of a match of the pattern [re] in
    the text [scanned]: one more than the number of line breaks among the
    code units of the original text [src] that come before the offset of
    the match, a number between 1 and the number of lines of [src]. *)
Definition counted_at (src : str) (fl : flags) (re : regex) (scanned : str)
    (f : AccessibilityFix) : Prop :=
  exists res,
    In res (RegExp.matchAll fl re scanned)
    /\ line f = Some (newlines (firstn (RegExp.index res) src) + 1)
    /\ 1 <= newlines (firstn (RegExp.index res) src) + 1 <= lineCount src.

(** A link that starts on the first line, after an image without alt, and
    goes on on the second line. *)
Definition link_after_img : str :=
  lit "<img src='a.png'><a" ++ [NL] ++ lit " href='#'></a>".

(** The replacer [cb] keeps the property [Inv] of the fix list. *)
Definition keeps (Inv : list AccessibilityFix -> Prop) (cb : Basic.Replacer)
    : Prop :=
  forall res st, Inv st -> Inv (snd (cb res st)).

(** No pattern of the five rules matches anywhere in the text. *)
Definition no_pattern_matches (src : str) : Prop :=
  Forall (fun rl : flags * regex * Basic.Replacer =>
            RegExp.test (fst (fst rl)) (snd (fst rl)) src = false)
    (Basic.rules src).

(** The scenarios of the specification, one per rule. *)
Definition img_scenario : str :=
  lit "<img src=" ++ DQ ++ lit "/x.png" ++ DQ ++ lit "/>".
Definition div_scenario : str := lit "<div onClick={() => {}}/>".

(** [alt=Q...] with a first code unit other than the closing quote. *)
Fixpoint has_nonempty_alt (s : str) : bool :=
  (JS.starts_with (lit "alt=" ++ DQ) s
   && match skipn 5 s with
      | c :: _ => negb (c =? 34)%N
      | [] => false
      end)
  || match s with
     | [] => false
     | _ :: t => has_nonempty_alt t
     end.

(** The number of fix records of a category. *)
Definition count_category (c : Category) (fs : list AccessibilityFix) : nat :=
  length (filter (fun f => Category_eqb (category f) c) fs).

(** The keyboard handler [applyFixes] inserts. *)
Definition keydown_handler : str :=
  lit "onKeyDown={(e) => e.key === " ++ DQ ++ lit "Enter" ++ DQ
    ++ lit " && e.currentTarget.click()}".



(** The text of [replace] when the replacement of a match is [f] of it:
    the matches are cut out in order and [f] of each is put in its
    place. *)
Fixpoint splice (f : RegExp.result -> str) (s : str) (next : nat)
    (rs : list RegExp.result) : str :=
  match rs with
  | [] => skipn next s
  | res :: rs' =>
      if next <=? RegExp.index res then
        JS.substring next (RegExp.index res) s ++ f res
          ++ splice f s (RegExp.index res + length (RegExp.matched res)) rs'
      else splice f s next rs'
  end.

(** The results lie one after the other in [s], from [next] on, each
    holding the text found at its index. *)
Fixpoint chain (s : str) (next : nat) (rs : list RegExp.result) : Prop :=
  match rs with
  | [] => True
  | res :: rs' =>
      next <= RegExp.index res
      /\ (exists n, RegExp.matched res = firstn n (skipn (RegExp.index res) s))
      /\ chain s (RegExp.index res + length (RegExp.matched res)) rs'
  end.

(** Any number of [R] steps in a row. *)
Inductive iter (R : mstate -> mstate -> Prop) : mstate -> mstate -> Prop :=
| iter_stop : forall x, iter R x x
| iter_step : forall x z y, R x z -> iter R z y -> iter R x y.

(** One code unit accepted by [ok] is consumed. *)
Definition den_one (ok : char -> bool) (x y : mstate) : Prop :=
  exists c t, rest x = c :: t /\ ok c = true /\ y = RegExp.advance x c t.

(** [den fl r x y]: the pattern [r] can take the matcher from state [x] to
    state [y].  A negative lookahead is described by the matcher itself. *)
Fixpoint den (fl : flags) (r : regex) (x y : mstate) {struct r} : Prop :=
  match r with
  | Eps => y = x
  | Chr p => den_one (RegExp.chr_eq fl p) x y
  | Cls negated items => den_one (RegExp.cls_has negated items) x y
  | Dot => den_one (RegExp.dot_has fl) x y
  | Seq a b => exists z, den fl a x z /\ den fl b z y
  | Alt a b => den fl a x y \/ den fl b x y
  | Star _ a => iter (den fl a) x y
  | Group n a =>
      exists z, den fl a x z
                /\ y = RegExp.set_cap n (firstn (pos z - pos x) (rest x)) z
  | NegLook a => y = x /\ RegExp.m fl a x (fun z => Some z) = None
  | WordB => y = x /\ RegExp.is_boundary x = true
  end.

(** [y] lies [w] further in the input than [x]. *)
Definition reaches (x : mstate) (w : str) (y : mstate) : Prop :=
  rest x = w ++ rest y /\ pos y = pos x + length w.

(** [must_have c r]: by the shape of [r] alone, every text it matches
    holds the code unit [c]. *)
Fixpoint must_have (c : char) (r : regex) : bool :=
  match r with
  | Chr p => (p =? c)%N
  | Seq a b => must_have c a || must_have c b
  | Alt a b => must_have c a && must_have c b
  | Group _ a => must_have c a
  | _ => false
  end.

(** Neither an upper-case nor a lower-case ASCII letter. *)
Definition caseless (c : char) : bool :=
  negb ((65 <=? c) && (c <=? 90) || (97 <=? c) && (c <=? 122))%N.

(** The attribute the rule inserts. *)
Definition input_label : str := lit " aria-label=" ++ DQ ++ lit "Input" ++ DQ.

(** Text and fix list as the fifth rule finds them, after the first
    four. *)
Definition before_input (src : str) : str * list AccessibilityFix :=
  Basic.run_rules (firstn 4 (Basic.rules src)) (src, []).

(** The state after the code units [a] have been consumed from [x]. *)
Fixpoint feed (x : mstate) (a : str) : mstate :=
  match a with
  | [] => x
  | c :: a' => feed (RegExp.advance x c (tl (rest x))) a'
  end.

(** An icon-only button that has aria-labelledby. *)
Definition labelledby_scenario : str :=
  lit "<button aria-labelledby='t'><svg></svg></button>".

(** [y] lies further in the input than [x], or at [x]. *)
Definition ahead (x y : mstate) : Prop := exists w, reaches x w y.

(** The matcher [body] looks at its continuation on states ahead only. *)
Definition local (body : mstate -> RegExp.Cont -> option mstate) : Prop :=
  forall x k k',
    (forall y, ahead x y -> k y = k' y) -> body x k = body x k'.

(** ** Vocabulary of the further properties of the diff *)

Definition is_added (e : Basic.DiffLine) : bool :=
  match Basic.type e with
  | Basic.added => true
  | _ => false
  end.

(** The entries that stand for a line of the original side. *)
Definition original_side (d : list Basic.DiffLine) : list Basic.DiffLine :=
  filter (fun e => negb (is_added e)) d.

(** An entry says what its side holds at its number: a [removed] entry is
    a line of the original, an [added] entry a line of the rewritten text,
    an [unchanged] entry what the original reads at that place (the empty
    string past its end). *)
Definition entry_real (o f : list str) (e : Basic.DiffLine) : Prop :=
  exists n,
    Basic.lineNumber e = Some (S n)
    /\ match Basic.type e with
       | Basic.removed => nth_error o n = Some (Basic.content e)
       | Basic.added => nth_error f n = Some (Basic.content e)
       | Basic.unchanged => Basic.content e = Basic.line_or_empty o n
       end.

(** The [unchanged] entries of the lines [ls], numbered from [k]. *)
Definition unchanged_rows (k : nat) (ls : list str) : list Basic.DiffLine :=
  map (fun kl => Basic.entry Basic.unchanged (snd kl) (fst kl))
    (combine (seq k (length ls)) ls).

(** ** Vocabulary of the further properties of the rules *)

(** The code unit [<]. *)
Definition LT : char := 60%N.

(** The records the link rule pushes for a match: one when the match has
    no text once its tags are stripped, none otherwise. *)
Definition basic_a_records (src : str) (res : RegExp.result)
    : list AccessibilityFix :=
  match JS.trim (RegExp.replace_text noflags Basic.tag_re
                   (RegExp.matched res) []) with
  | [] => [Basic.a_fix src (RegExp.index res)]
  | _ :: _ => []
  end.

Definition ai_a_records (code : str) (res : RegExp.result)
    : list AccessibilityFix :=
  match JS.trim (RegExp.replace_text noflags AI.tag_re
                   (RegExp.matched res) []) with
  | [] => [AI.a_fix code (RegExp.index res)]
  | _ :: _ => []
  end.

(** No pattern of the five rules of the AI service matches anywhere in
    the text. *)
Definition no_ai_pattern_matches (code : str) : Prop :=
  Forall (fun d : flags * regex * AI.Replacer =>
            RegExp.test (fst (fst d)) (snd (fst d)) code = false)
    (AI.detectors code).

(** The text as the first [k] rules of [fixAccessibility] leave it. *)
Definition stage_text (src : str) (k : nat) : str :=
  fst (Basic.run_rules (firstn k (Basic.rules src)) (src, [])).

(** An advisory record: no line, and a category of the extended
    detectors. *)
Definition advisory (f : AccessibilityFix) : Prop :=
  line f = None
  /\ (category f = Semantics \/ category f = ARIA
      \/ category f = KeyboardNavigation).

(** [no_group r]: the pattern [r] holds no capture group. *)
Fixpoint no_group (r : regex) : bool :=
  match r with
  | Group _ _ => false
  | Seq a b | Alt a b => no_group a && no_group b
  | Star _ a => no_group a
  | _ => true
  end.

(** The shape all the rule patterns have: the tag [w], a negative
    lookahead [B], the attribute text captured as group 1, and the rest
    [R]. *)
Definition tag_pattern (w : str) (B : regex) (R : regex) : regex :=
  Seq (cat (map Chr w))
    (Seq (NegLook B) (Seq (Group 1 (Star false (Cls true [CChar 62%N]))) R)).

(** A text [w'] that the literal [w] matches. *)
Definition spells (fl : flags) (w w' : str) : Prop :=
  Forall2 (fun p c => RegExp.chr_eq fl p c = true) w w'.

(** * The narrative of the AI service

    [generateAIAnalysis] and [generateSuggestions] of
    [AIAccessibilityService], and [analyzeCode] with the two texts they
    add to its answer.  The confidences are decimal literals of the source
    (0.95, 0.9, 0.85, 0.8, 0.75, 0.7) compared with the literals 0.9 and
    0.7: on these the comparison of doubles agrees with the comparison of
    the rationals they denote. *)

Module Service.

Inductive Language : Type := jsx | html | tsx.

(** The string of a category, as the records carry it. *)
Definition category_name (c : Category) : str :=
  match c with
  | Images => lit "Images"
  | InteractiveElements => lit "Interactive Elements"
  | Forms => lit "Forms"
  | Navigation => lit "Navigation"
  | Semantics => lit "Semantics"
  | ARIA => lit "ARIA"
  | KeyboardNavigation => lit "Keyboard Navigation"
  end.

(** A number inside a template literal: its decimal digits. *)
Definition show (n : nat) : str :=
  lit (NilEmpty.string_of_uint (Nat.to_uint n)).

(** [[...new Set(cs)]]: the distinct values, each at the place of its first
    occurrence. *)
Definition set_add (seen : list Category) (c : Category) : list Category :=
  if existsb (Category_eqb c) seen then seen else seen ++ [c].

Definition distinct (cs : list Category) : list Category :=
  fold_left set_add cs [].

Definition categories (fixes : list AccessibilityFix) : list Category :=
  distinct (map category fixes).

(** [f.confidence && f.confidence > 0.9] *)
Definition is_critical (f : AccessibilityFix) : bool :=
  match confidence f with
  | Some q => negb (Qeq_bool q 0) && negb (Qle_bool q (9 # 10))
  | None => false
  end.

(** [f.confidence && f.confidence > 0.7 && f.confidence <= 0.9] *)
Definition is_moderate (f : AccessibilityFix) : bool :=
  match confidence f with
  | Some q =>
      negb (Qeq_bool q 0) && negb (Qle_bool q (7 # 10))
      && Qle_bool q (9 # 10)
  | None => false
  end.

Definition criticalIssues (fixes : list AccessibilityFix) : nat :=
  length (filter is_critical fixes).

Definition moderateIssues (fixes : list AccessibilityFix) : nat :=
  length (filter is_moderate fixes).

(** [n === 1 ? 'issue' : 'issues'] *)
Definition issue_word (n : nat) : str :=
  if n =? 1 then lit "issue" else lit "issues".

(** [xs.join(sep)] *)
Definition join (sep : str) (xs : list str) : str :=
  match xs with
  | [] => []
  | x :: tl => fold_left (fun acc y => acc ++ sep ++ y) tl x
  end.

Definition is_react (language : Language) : bool :=
  match language with
  | jsx | tsx => true
  | html => false
  end.

Definition generateAIAnalysis (code : str) (fixes : list AccessibilityFix)
    (language : Language) : str :=
  let totalIssues := length fixes in
  if totalIssues =? 0 then
    lit "Excellent! Your code demonstrates strong accessibility practices. No critical accessibility issues were detected. The code follows WCAG 2.1 guidelines and provides a good foundation for inclusive user experiences."
  else
    let analysis :=
      lit "AI analysis found " ++ show totalIssues ++ lit " accessibility "
        ++ issue_word totalIssues ++ lit " across "
        ++ show (length (categories fixes)) ++ lit " categories. " in
    let analysis :=
      if 0 <? criticalIssues fixes then
        analysis ++ show (criticalIssues fixes) ++ lit " critical "
          ++ issue_word (criticalIssues fixes)
          ++ lit " require immediate attention. "
      else analysis in
    let analysis :=
      if 0 <? moderateIssues fixes then
        analysis ++ show (moderateIssues fixes) ++ lit " moderate "
          ++ issue_word (moderateIssues fixes)
          ++ lit " should be addressed for better accessibility. "
      else analysis in
    let analysis :=
      analysis ++ lit "The most common issues relate to "
        ++ join (lit " and ")
             (map category_name (firstn 2 (categories fixes)))
        ++ lit ". " in
    if is_react language then
      analysis ++ lit "As React/JSX code, consider using accessibility-focused libraries like @radix-ui/react-* components which provide built-in accessibility features."
    else analysis.

(** [fixes.some(f => f.category === c)] *)
Definition some_category (c : Category) (fixes : list AccessibilityFix)
    : bool :=
  existsb (fun f => Category_eqb (category f) c) fixes.

Definition suggest_images : str :=
  lit "Use descriptive alt text for images that convey information, and empty alt attributes for decorative images".

Definition suggest_interactive : str :=
  lit "Ensure all interactive elements are keyboard accessible and have proper ARIA labels".

Definition suggest_forms : str :=
  lit "Associate form labels with inputs using the 'for' attribute or wrap inputs in label elements".

Definition suggest_semantics : str :=
  lit "Use semantic HTML elements to provide meaningful structure and improve screen reader navigation".

Definition suggest_testing : str :=
  lit "Consider using React Testing Library's accessibility queries to test your components".

Definition suggest_focus : str :=
  lit "Implement focus management for dynamic content and modal dialogs".

Definition suggest_tools : str :=
  lit "Run automated accessibility testing tools like axe-core or Lighthouse to catch additional issues".

Definition generateSuggestions (code : str) (fixes : list AccessibilityFix)
    (language : Language) : list str :=
  let suggestions := [] in
  let suggestions :=
    if some_category Images fixes then suggestions ++ [suggest_images]
    else suggestions in
  let suggestions :=
    if some_category InteractiveElements fixes
    then suggestions ++ [suggest_interactive]
    else suggestions in
  let suggestions :=
    if some_category Forms fixes then suggestions ++ [suggest_forms]
    else suggestions in
  let suggestions :=
    if some_category Semantics fixes then suggestions ++ [suggest_semantics]
    else suggestions in
  let suggestions :=
    if is_react language
    then (suggestions ++ [suggest_testing]) ++ [suggest_focus]
    else suggestions in
  if 5 <? length fixes then suggestions ++ [suggest_tools]
  else suggestions.

(** The answer of [analyzeCode]; its [confidence] field is drawn at random
    and read by no caller, and is left out. *)
Record AIAnalysisResponse : Type := {
  fixedCode : str;
  fixes : list AccessibilityFix;
  analysis : str;
  suggestions : list str
}.

Definition analyzeCode (code : str) (language : Language)
    : AIAnalysisResponse :=
  let basicFixes := AI.performBasicAnalysis code in
  let aiEnhancedFixes := AI.enhanceWithAIAnalysis code basicFixes in
  {| fixedCode := AI.applyFixes code aiEnhancedFixes;
     fixes := aiEnhancedFixes;
     analysis := generateAIAnalysis code aiEnhancedFixes language;
     suggestions := generateSuggestions code aiEnhancedFixes language |}.

End Service.

(** ** Vocabulary of the properties of the narrative *)

(** A record is graded by its category: critical when it is an image
    record, neither critical nor moderate when it is the contrast
    advisory, moderate otherwise. *)
Definition graded (f : AccessibilityFix) : Prop :=
  Service.is_critical f = Category_eqb (category f) Images
  /\ Service.is_moderate f
     = negb (Category_eqb (category f) Images)
       && negb (Category_eqb (category f) ARIA).

(** * ai-config.ts

    The configuration of the AI service.  The environment is a parameter:
    every variable of [process.env] is a string or [undefined].  The
    provider is kept as a string, since [aiConfig] casts the environment
    variable to the provider type without a check. *)

Module Config.

Record Env : Type := {
  VITE_OPENAI_API_KEY : option str;
  VITE_ANTHROPIC_API_KEY : option str;
  VITE_AI_BASE_URL : option str;
  VITE_AI_MODEL : option str;
  VITE_AI_PROVIDER : option str
}.

(** The fields [maxTokens], [temperature] and [timeout] are constants
    that no function of the file reads. *)
Record AIConfig : Type := {
  provider : str;
  apiKey : option str;
  baseUrl : option str;
  model : option str
}.

(** [!v] for a string or [undefined]. *)
Definition falsy (v : option str) : bool :=
  match v with
  | None | Some [] => true
  | Some (_ :: _) => false
  end.

(** [a || b] *)
Definition or_else (a b : option str) : option str :=
  if falsy a then b else a.

(** [a === b] on strings *)
Definition same (a b : str) : bool := Basic.str_eqb a b.

Definition defaultAIConfig (env : Env) : AIConfig :=
  {| provider := lit "mock";
     apiKey := or_else (VITE_OPENAI_API_KEY env) (VITE_ANTHROPIC_API_KEY env);
     baseUrl := VITE_AI_BASE_URL env;
     model := or_else (VITE_AI_MODEL env) (Some (lit "gpt-4")) |}.

Definition aiConfig (env : Env) : AIConfig :=
  {| provider :=
       match or_else (VITE_AI_PROVIDER env) (Some (lit "mock")) with
       | Some p => p
       | None => lit "mock"
       end;
     apiKey := apiKey (defaultAIConfig env);
     baseUrl := baseUrl (defaultAIConfig env);
     model := model (defaultAIConfig env) |}.

(** What [getAIServiceConfig] returns; a header whose value is
    [undefined] is kept as [None]. *)
Record ServiceConfig : Type := {
  service_baseUrl : str;
  service_model : str;
  headers : list (str * option str)
}.

(** The text of a template literal for a string or [undefined]. *)
Definition template (v : option str) : str :=
  match v with
  | Some s => s
  | None => lit "undefined"
  end.

(** [m || d] for a default [d] that is not empty. *)
Definition model_or (m : option str) (d : str) : str :=
  match or_else m (Some d) with
  | Some s => s
  | None => d
  end.

Section Service.
Variable env : Env.

Definition getAIServiceConfig (provider : str) : ServiceConfig :=
  if same provider (lit "openai") then
    {| service_baseUrl := lit "https://api.openai.com/v1";
       service_model := model_or (model (aiConfig env)) (lit "gpt-4");
       headers :=
         [(lit "Authorization",
           Some (lit "Bearer " ++ template (apiKey (aiConfig env))));
          (lit "Content-Type", Some (lit "application/json"))] |}
  else if same provider (lit "anthropic") then
    {| service_baseUrl := lit "https://api.anthropic.com/v1";
       service_model :=
         model_or (model (aiConfig env)) (lit "claude-3-sonnet-20240229");
       headers :=
         [(lit "x-api-key", apiKey (aiConfig env));
          (lit "Content-Type", Some (lit "application/json"));
          (lit "anthropic-version", Some (lit "2023-06-01"))] |}
  else
    {| service_baseUrl := lit "mock";
       service_model := lit "mock-ai";
       headers := [] |}.
End Service.

(** [!config.apiKey?.startsWith(p)]: true when the key is [undefined]. *)
Definition lacks_prefix (p : str) (key : option str) : bool :=
  match key with
  | Some k => negb (JS.starts_with p k)
  | None => true
  end.

Definition validateAIConfig (config : AIConfig) : list str :=
  let errors := [] in
  let errors :=
    if negb (same (provider config) (lit "mock")) && falsy (apiKey config)
    then errors ++ [lit "API key is required for " ++ provider config
                      ++ lit " provider"]
    else errors in
  let errors :=
    if same (provider config) (lit "openai")
       && lacks_prefix (lit "sk-") (apiKey config)
    then errors ++ [lit "Invalid OpenAI API key format"]
    else errors in
  if same (provider config) (lit "anthropic")
     && lacks_prefix (lit "sk-ant-") (apiKey config)
  then errors ++ [lit "Invalid Anthropic API key format"]
  else errors.

End Config.

(** ** Vocabulary of the properties of the configuration *)

(** The configurations [validateAIConfig] finds no fault with. *)
Definition accepted (config : Config.AIConfig) : Prop :=
  Config.provider config = lit "mock"
  \/ (Config.provider config = lit "openai"
      /\ exists k, Config.apiKey config = Some (lit "sk-" ++ k))
  \/ (Config.provider config = lit "anthropic"
      /\ exists k, Config.apiKey config = Some (lit "sk-ant-" ++ k))
  \/ (Config.provider config <> lit "mock"
      /\ Config.provider config <> lit "openai"
      /\ Config.provider config <> lit "anthropic"
      /\ exists c k, Config.apiKey config = Some (c :: k)).

(** * The result with its narrative, and the pages that show it *)

(** [fixAccessibilityWithAI] with the two narrative fields the record of
    module [AI] leaves out. *)
Module WithAI.

Record FixResult : Type := {
  code : str;
  fixes : list AccessibilityFix;
  hasChanges : bool;
  analysis : option str;
  suggestions : option (list str)
}.

Definition fixAccessibilityWithAI (sourceCode : str)
    (language : Service.Language) : FixResult :=
  let response := Service.analyzeCode sourceCode language in
  {| code := Service.fixedCode response;
     fixes := Service.fixes response;
     hasChanges := 0 <? length (Service.fixes response);
     analysis := Some (Service.analysis response);
     suggestions := Some (Service.suggestions response) |}.

(** The [catch] branch. *)
Definition fallback (sourceCode : str) : FixResult :=
  let basicFixes := AI.performBasicAnalysis sourceCode in
  let fixedCode := AI.applyFixes sourceCode basicFixes in
  {| code := fixedCode;
     fixes := basicFixes;
     hasChanges := 0 <? length basicFixes;
     analysis :=
       Some (lit "AI analysis unavailable. Using basic accessibility checks.");
     suggestions :=
       Some [lit "Enable AI analysis for more comprehensive accessibility insights"] |}.

End WithAI.

(** Grouping by category, as both pages do it: an object whose keys are
    category names keeps them in the order of their first insertion; a
    record is pushed to the array of its category, which is created when
    the key is new. *)
Section Groups.
Variable A : Type.

Fixpoint push_group (c : Category) (a : A)
    (groups : list (Category * list A)) : list (Category * list A) :=
  match groups with
  | [] => [(c, [a])]
  | (k, v) :: tl =>
      if Category_eqb k c then (k, v ++ [a]) :: tl
      else (k, v) :: push_group c a tl
  end.
End Groups.

(** ** ResultsPanel.tsx *)

Module ResultsPanel.

Definition diff (originalCode : str) (result : option FixResult)
    : list Basic.DiffLine :=
  match result with
  | Some r => Basic.generateDiff originalCode (code r)
  | None => []
  end.

Definition fixesByCategory (result : option FixResult)
    : list (Category * list AccessibilityFix) :=
  match result with
  | Some r =>
      fold_left (fun acc fx => push_group (category fx) fx acc)
        (fixes r) []
  | None => []
  end.

End ResultsPanel.

(** ** Index.tsx *)

Module Index.

(** The language [handleAnalyze] passes on. *)
Definition language (sourceCode : str) : Service.Language :=
  if JS.includes sourceCode (lit "jsx")
     || JS.includes sourceCode (lit "onClick")
     || JS.includes sourceCode (lit "className")
  then Service.jsx else Service.html.

(** The state [handleAnalyze] sets. *)
Record Analyzed : Type := {
  result : WithAI.FixResult;
  editedCode : str
}.

(** [handleAnalyze]: [None] when the text is blank and nothing is
    analysed. *)
Definition handleAnalyze (sourceCode : str) : option Analyzed :=
  match JS.trim sourceCode with
  | [] => None
  | _ :: _ =>
      let fixResult :=
        WithAI.fixAccessibilityWithAI sourceCode (language sourceCode) in
      Some {| result := fixResult;
              editedCode :=
                match WithAI.code fixResult with
                | [] => sourceCode
                | _ :: _ => WithAI.code fixResult
                end |}
  end.

Inductive Variant : Type := variant_default | variant_secondary
                          | variant_outline.

Definition getBadgeVariant (action : str) : Variant :=
  if Basic.str_eqb action (lit "add")
     || JS.includes action (lit "missing")
     || JS.includes action (lit "only")
     || JS.includes action (lit "clickable")
  then variant_default
  else if Basic.str_eqb action (lit "suggest")
          || JS.includes action (lit "suggest")
  then variant_secondary
  else if Basic.str_eqb action (lit "update")
          || JS.includes action (lit "update")
  then variant_outline
  else variant_secondary.

Module Log.
Record LogItem : Type := {
  category : Category;
  action : str;
  selector : str;
  summary : str;
  index : nat
}.
End Log.

(** The item pushed for the record [fx] at [index]; an empty action
    reads as the word fix. *)
Definition log_item (index : nat) (fx : AccessibilityFix) : Log.LogItem :=
  {| Log.category := category fx;
     Log.action := match action fx with
                   | [] => lit "fix"
                   | _ :: _ => action fx
                   end;
     Log.selector := selector fx;
     Log.summary := summary fx;
     Log.index := index |}.

Definition groupedLog (result : option WithAI.FixResult)
    : list (Category * list Log.LogItem) :=
  match result with
  | Some r =>
      fold_left
        (fun groups (p : nat * AccessibilityFix) =>
           push_group (category (snd p))
             (log_item (fst p) (snd p)) groups)
        (combine (seq 0 (length (WithAI.fixes r))) (WithAI.fixes r)) []
  | None => []
  end.

(** A row of the Changes tab: the number shown, the line of the source,
    the line of the edited code at the same place and whether they
    differ. *)
Definition changes (sourceCode editedCode : str)
    : list (nat * str * str * bool) :=
  map (fun p : nat * str =>
         let fixedLine :=
           Basic.line_or_empty (JS.split NL editedCode) (fst p) in
         (fst p + 1, snd p, fixedLine,
          negb (Basic.str_eqb (snd p) fixedLine)))
    (combine (seq 0 (length (JS.split NL sourceCode)))
       (JS.split NL sourceCode)).

End Index.

(** ** Vocabulary of the properties of the pages *)

(** Grouping said in one go: one group per distinct category, in the
    order in which the categories first occur, holding the values of
    the elements of that category in their order. *)
Definition groups_of (A B : Type) (key : A -> Category) (val : A -> B)
    (l : list A) : list (Category * list B) :=
  map (fun c =>
         (c, map val (filter (fun a => Category_eqb (key a) c) l)))
    (Service.distinct (map key l)).

(** A log item stands at its index in the fix list and repeats the
    category of the record there. *)
Definition item_real (fs : list AccessibilityFix) (c : Category)
    (it : Index.Log.LogItem) : Prop :=
  exists f,
    nth_error fs (Index.Log.index it) = Some f
    /\ it = Index.log_item (Index.Log.index it) f
    /\ category f = c.

(** A record whose action is not empty and is shown with the secondary
    badge. *)
Definition plain_badge (f : AccessibilityFix) : Prop :=
  action f <> []
  /\ Index.getBadgeVariant (action f) = Index.variant_secondary.

(** ** Vocabulary of the ends of a match and of a text *)

(** The code unit [>]. *)
Definition GT : char := 62%N.

(** [first_is c r]: by the shape of [r] alone, every text it matches
    starts with the code unit [c]. *)
Fixpoint first_is (c : char) (r : regex) : bool :=
  match r with
  | Chr p => (p =? c)%N
  | Seq a _ => first_is c a
  | Alt a b => first_is c a && first_is c b
  | Group _ a => first_is c a
  | _ => false
  end.

(** [empty_only r]: [r] matches the empty text only. *)
Fixpoint empty_only (r : regex) : bool :=
  match r with
  | Eps => true
  | Seq a b => empty_only a && empty_only b
  | _ => false
  end.

(** [last_is c r]: every text [r] matches ends with the code unit [c]. *)
Fixpoint last_is (c : char) (r : regex) : bool :=
  match r with
  | Chr p => (p =? c)%N
  | Seq a b => last_is c b || empty_only b && last_is c a
  | Alt a b => last_is c a && last_is c b
  | Group _ a => last_is c a
  | _ => false
  end.

(** The first code unit of [t], if any, is no white space. *)
Definition starts_ok (t : str) : Prop :=
  forall c u, t = c :: u -> JS.is_space c = false.

(** The last code unit of [t], if any, is no white space. *)
Definition ends_ok (t : str) : Prop :=
  forall c u, t = u ++ [c] -> JS.is_space c = false.

(** A text that starts with [<] and ends with a code unit that is no
    white space. *)
Definition tagged (t : str) : Prop :=
  (exists w, t = LT :: w)
  /\ (exists w c, t = w ++ [c] /\ JS.is_space c = false).

(** A text that holds a code unit that is no white space. *)
Definition ink (t : str) : Prop :=
  exists c, In c t /\ JS.is_space c = false.

(** [t] starts with [<]. *)
Definition starts_lt (t : str) : bool :=
  match t with
  | c :: _ => (c =? LT)%N
  | [] => false
  end.

(** [t] ends with a code unit that is no white space. *)
Definition ends_ink (t : str) : bool :=
  match rev t with
  | c :: _ => negb (JS.is_space c)
  | [] => false
  end.

(** From [s] to [t], a text without white space at its ends stays so,
    and a text that is not blank stays so. *)
Definition keeps_edges (s t : str) : Prop :=
  (trimmed s -> trimmed t) /\ (ink s -> ink t).

(** The line of the edited code shown in a row of the Changes tab. *)
Definition fixed_line (row : nat * str * str * bool) : str :=
  snd (fst row).

(** ** Vocabulary of the lookahead of the rules *)

(** The body of the negative lookahead of every rule pattern:
    [[^>]*\bKEY\s*=]. *)
Definition lookahead (KEY : regex) : regex :=
  cat [star (notc ">"); WordB; KEY; star sp; L "="].

(** [KEY] matches the text [key] wherever it stands, and [key] starts
    with a word character. *)
Definition finds (fl : flags) (KEY : regex) (key : str) : Prop :=
  (exists kc key', key = kc :: key' /\ JS.is_word kc = true)
  /\ forall y t k,
       rest y = key ++ t -> k (feed y key) <> None ->
       RegExp.m fl KEY y k <> None.


(** The end of both input patterns: [(?:\s*\/>|>\s*<\/input>)]. *)
Definition input_tail : regex :=
  cat [Alt (cat [star sp; L "/>"]) (cat [L ">"; star sp; L "</input>"])].

(** The attribute the input rule inserts, with the label text [lab]. *)
Definition label_attr (lab : str) : str :=
  lit " aria-label=" ++ DQ ++ lab ++ DQ.

(** The replacement of the input rule with the label text [lab]. *)
Definition input_patch_with (lab : str) (mt : str) : str :=
  if JS.endsWith mt (lit "/>") then
    JS.replace_first mt (lit "/>") (label_attr lab ++ lit " />")
  else
    JS.replace_first mt (lit ">") (label_attr lab ++ lit ">").

(** The two shapes of a match of an input pattern: the tag name [w'] in
    any case, the attribute text [u] without [>], then white space and
    [/>], or [>], white space and the closing tag [x] in any case. *)
Definition input_match (mt w' u ws : str) (x : option str) : Prop :=
  spells gi (lit "<input") w'
  /\ Forall (fun d => d <> 62%N) u
  /\ Forall (fun d => JS.is_space d = true) ws
  /\ match x with
     | None => mt = w' ++ u ++ ws ++ lit "/>"
     | Some x' =>
         spells gi (lit "</input>") x' /\ mt = w' ++ u ++ lit ">" ++ ws ++ x'
     end.

(** What the input rule writes for a match of either shape. *)
Definition input_written (lab w' u ws : str) (x : option str) : str :=
  match x with
  | None => w' ++ u ++ ws ++ label_attr lab ++ lit " />"
  | Some x' => w' ++ u ++ label_attr lab ++ lit ">" ++ ws ++ x'
  end.

(** The rows of the diff for line [i] when both texts have a line [i]:
    the line alone when it is the same on both sides; the original line
    as [removed] and the rewritten one as [added] when they differ and
    the next lines are the same (or both missing); the original line as
    [unchanged] when they differ and the next lines differ too. *)
Definition row_of (o f : list str) (i : nat) : list Basic.DiffLine :=
  let a := Basic.line_or_empty o i in
  let b := Basic.line_or_empty f i in
  if Basic.str_eqb a b then [Basic.entry Basic.unchanged a (i + 1)]
  else if Basic.same_next (nth_error o (i + 1)) (nth_error f (i + 1))
  then [Basic.entry Basic.removed a (i + 1);
        Basic.entry Basic.added b (i + 1)]
  else [Basic.entry Basic.unchanged a (i + 1)].

(** The state [x], counted from [d] code units further. *)
Definition shift (d : nat) (x : mstate) : mstate :=
  {| pos := pos x + d; prev := prev x; rest := rest x; caps := caps x |}.

(** The continuation [k'] does on shifted states what [k] does. *)
Definition shifted (d : nat) (k k' : RegExp.Cont) : Prop :=
  forall y, k' (shift d y) = option_map (shift d) (k y).

(** The analysis text for a code without any finding. *)
Definition excellent_message : str :=
  lit "Excellent! Your code demonstrates strong accessibility practices. No critical accessibility issues were detected. The code follows WCAG 2.1 guidelines and provides a good foundation for inclusive user experiences.".

(** No match of [re] starts at the text [t] that stands after [pre]. *)
Definition not_matched_at (fl : flags) (re : regex) (pre t : str) : Prop :=
  Forall (fun res => RegExp.index res <> length pre)
    (RegExp.matchAll fl re (pre ++ t)).

(** [\s*=] at the start of [s]. *)
Fixpoint assigns (s : str) : bool :=
  match s with
  | c :: t => if JS.is_space c then assigns t else (c =? 61)%N
  | [] => false
  end.

(** [s] starts with [key], whatever the case of its letters. *)
Fixpoint spelled (key s : str) : bool :=
  match key, s with
  | [], _ => true
  | _ :: _, [] => false
  | p :: key', c :: s' => RegExp.chr_eq gi p c && spelled key' s'
  end.

(** The attribute text [s] names one of [keys]: a key stands in it, in
    any case, right after a code unit that is not a word character, and
    white space and [=] follow it.  [word] tells whether the code unit
    before [s] is a word character.  This is what the lookahead of a rule
    looks for in an attribute text, which holds no [>]. *)
Fixpoint names (keys : list str) (word : bool) (s : str) : bool :=
  match s with
  | [] => false
  | c :: t =>
      negb word
      && existsb (fun key => spelled key s && assigns (skipn (length key) s))
           keys
      || names keys (JS.is_word c) t
  end.

(** The attributes whose presence keeps the input rule of
    [fixAccessibility] away. *)
Definition input_keys : list str := [lit "aria-label"; lit "id"].

(** An input tag: the tag name [w'], the attribute text [body], and
    either [/>] or [>], white space [ws] and the closing tag [x]. *)
Definition input_tag (w' body : str) (close : option (str * str)) : str :=
  match close with
  | None => w' ++ body ++ lit "/>"
  | Some (ws, x) => w' ++ body ++ lit ">" ++ ws ++ x
  end.

(** The tag is written as the input pattern wants it: the tag name in
    any case, an attribute text free of [>] that names neither
    aria-label nor id; when the tag has a closing tag, white space alone
    before it, and an attribute text that does not end with a slash
    (with a slash it is a self-closed tag that a closing tag follows). *)
Definition input_tag_ok (w' body : str) (close : option (str * str))
    : Prop :=
  spells gi (lit "<input") w'
  /\ Forall (fun d => d <> 62%N) body
  /\ names input_keys true body = false
  /\ match close with
     | None => True
     | Some (ws, x) =>
         Forall (fun d => JS.is_space d = true) ws
         /\ spells gi (lit "</input>") x
         /\ forall b, body <> b ++ lit "/"
     end.

(** The same tag with the placeholder aria-label of the rule. *)
Definition input_tag_fixed (w' body : str) (close : option (str * str))
    : str :=
  match close with
  | None => w' ++ body ++ input_label ++ lit " />"
  | Some (ws, x) => w' ++ body ++ input_label ++ lit ">" ++ ws ++ x
  end.

(** No result that starts before the offset [n] runs over it. *)
Definition clear_at (n : nat) (rs : list RegExp.result) : Prop :=
  Forall (fun res =>
            RegExp.index res < n ->
            RegExp.index res + length (RegExp.matched res) <= n) rs.

(** Whether the last code unit of [a] is a word character; [word] tells
    it for the code unit before [a]. *)
Fixpoint word_after (word : bool) (a : str) : bool :=
  match a with
  | [] => word
  | c :: a' => word_after (JS.is_word c) a'
  end.

(** * Properties *)

(** ** The line diff *)

Section DiffFacts.
Import Basic.

Lemma str_eqb_refl (a : str) : str_eqb a a = true.
Proof.
  induction a as [|c a IH]; simpl; [reflexivity|].
  now rewrite N.eqb_refl, IH.
Qed.

Lemma str_eqb_eq (a b : str) : str_eqb a b = true <-> a = b.
Proof.
  split; [|intros ->; apply str_eqb_refl].
  revert b; induction a as [|c a IH]; intros [|d b]; simpl; try easy.
  rewrite andb_true_iff, N.eqb_eq. intros [-> H]. now rewrite (IH _ H).
Qed.

Lemma str_eqb_neq (a b : str) : a <> b -> str_eqb a b = false.
Proof.
  intros H. destruct (str_eqb a b) eqn:E; [|reflexivity].
  now apply str_eqb_eq in E.
Qed.

Lemma same_next_eq (a b : option str) : same_next a b = true <-> a = b.
Proof.
  destruct a as [a|], b as [b|]; simpl; try easy.
  rewrite str_eqb_eq. split; congruence.
Qed.

Variables o f : list str.

(** Every turn of the loop brings the cursors closer to their ends. *)
Lemma diff_step_progress (i j : nat) :
  diff_continues o f i j = true ->
  (length o - fst (snd (diff_step o f i j)))
  + (length f - snd (snd (diff_step o f i j)))
  < (length o - i) + (length f - j).
Proof.
  unfold diff_continues, diff_step. rewrite orb_true_iff, !Nat.ltb_lt.
  intros H.
  destruct (str_eqb _ _); simpl; [lia|].
  destruct (Nat.leb_spec (length o) i); simpl; [lia|].
  destruct (Nat.leb_spec (length f) j); simpl; [lia|].
  destruct (same_next _ _); simpl; lia.
Qed.

(** The loop has stopped by itself once the fuel covers the distance of
    the cursors to their ends: more fuel changes nothing. *)
Lemma diff_loop_fuel (n k i j : nat) :
  (length o - i) + (length f - j) <= n ->
  diff_loop o f (n + k) i j = diff_loop o f n i j.
Proof.
  revert i j; induction n as [|n IH]; intros i j H.
  - assert (E : diff_continues o f i j = false).
    { unfold diff_continues. rewrite orb_false_iff, !Nat.ltb_ge. lia. }
    destruct k; simpl; [reflexivity|]. now rewrite E.
  - simpl. destruct (diff_continues o f i j) eqn:E; [|reflexivity].
    pose proof (diff_step_progress i j E) as P.
    destruct (diff_step o f i j) as [out [i' j']]; simpl in P.
    f_equal. apply IH. lia.
Qed.

Lemma diff_loop_stops (n i j : nat) :
  diff_continues o f i j = false -> diff_loop o f n i j = [].
Proof. intros E. destruct n; simpl; [reflexivity|]. now rewrite E. Qed.
End DiffFacts.

(** [generateDiff] is the loop run to its end: any larger bound gives the
    same list. *)
Lemma generateDiff_fuel (original fixed : str) (k : nat) :
  Basic.generateDiff original fixed
  = Basic.diff_loop (JS.split NL original) (JS.split NL fixed)
      (length (JS.split NL original) + length (JS.split NL fixed) + k) 0 0.
Proof.
  unfold Basic.generateDiff. symmetry. apply diff_loop_fuel. lia.
Qed.

Lemma line_or_empty_app (pre : list str) (l : str) (suf : list str) :
  Basic.line_or_empty (pre ++ l :: suf) (length pre) = l.
Proof.
  unfold Basic.line_or_empty. rewrite nth_error_app2 by lia.
  now rewrite Nat.sub_diag.
Qed.

Lemma diff_same_lines (suf pre : list str) (n : nat) :
  length suf <= n ->
  Basic.diff_loop (pre ++ suf) (pre ++ suf) n (length pre) (length pre)
  = map (fun kl => Basic.entry Basic.unchanged (snd kl) (fst kl))
      (combine (seq (length pre + 1) (length suf)) suf).
Proof.
  revert pre n; induction suf as [|l suf IH]; intros pre n H.
  - apply diff_loop_stops. unfold Basic.diff_continues.
    rewrite app_nil_r, Nat.ltb_irrefl. reflexivity.
  - destruct n as [|n]; simpl in H; [lia|]. cbn [Basic.diff_loop].
    assert (E : Basic.diff_continues (pre ++ l :: suf) (pre ++ l :: suf)
                  (length pre) (length pre) = true).
    { unfold Basic.diff_continues. rewrite length_app. simpl.
      apply orb_true_iff. left. apply Nat.ltb_lt. lia. }
    rewrite E. unfold Basic.diff_step.
    rewrite line_or_empty_app, str_eqb_refl. cbn [app length seq combine map fst snd].
    f_equal.
    replace (pre ++ l :: suf) with ((pre ++ [l]) ++ suf)
      by now rewrite <- app_assoc.
    replace (length pre + 1) with (length (pre ++ [l]))
      by (rewrite length_app; reflexivity).
    rewrite IH by lia. rewrite length_app. simpl.
    now replace (length pre + 1 + 1) with (S (length pre + 1)) by lia.
  Qed.

(** C9. Diffing a text with itself gives one entry per line, each of type
    [unchanged], with the line as content and the numbers 1, 2, ..., N in
    order, N being the number of lines of the text. *)
Theorem generateDiff_same (t : str) :
  Basic.generateDiff t t
  = map (fun kl => Basic.entry Basic.unchanged (snd kl) (fst kl))
      (combine (seq 1 (length (JS.split NL t))) (JS.split NL t)).
Proof.
  unfold Basic.generateDiff.
  apply (diff_same_lines (JS.split NL t) []). lia.
Qed.

(** C7, as amended. With neither cursor at its end and the current lines
    different, the loop emits [removed] for the original line and then
    [added] for the rewritten one, and moves both cursors by one, when the
    two next positions hold equal lines or are both out of range (an
    out-of-range position is not equal to an empty line). *)
Theorem diff_substitution (o f : list str) (i j n : nat) :
  i < length o -> j < length f ->
  Basic.line_or_empty o i <> Basic.line_or_empty f j ->
  nth_error o (i + 1) = nth_error f (j + 1) ->
  Basic.diff_loop o f (S n) i j
  = Basic.entry Basic.removed (Basic.line_or_empty o i) (i + 1)
    :: Basic.entry Basic.added (Basic.line_or_empty f j) (j + 1)
    :: Basic.diff_loop o f n (i + 1) (j + 1).
Proof.
  intros Hi Hj Hne Hnext. cbn [Basic.diff_loop].
  unfold Basic.diff_continues, Basic.diff_step.
  apply Nat.ltb_lt in Hi as Hi'. rewrite Hi'. cbn [orb].
  rewrite (str_eqb_neq Hne).
  destruct (Nat.leb_spec (length o) i); [lia|].
  destruct (Nat.leb_spec (length f) j); [lia|].
  apply same_next_eq in Hnext. rewrite Hnext. reflexivity.
Qed.

Lemma diff_substitution_witness :
  Basic.diff_loop [lit "a"; lit "c"] [lit "b"; lit "c"] 4 0 0
  = Basic.entry Basic.removed (lit "a") 1
    :: Basic.entry Basic.added (lit "b") 1
    :: Basic.diff_loop [lit "a"; lit "c"] [lit "b"; lit "c"] 3 1 1.
Proof.
  apply (@diff_substitution [lit "a"; lit "c"] [lit "b"; lit "c"] 0 0 3);
    simpl; try lia; [discriminate | reflexivity].
Defined.

(** The claim C7 as the specification words it, the next lines compared
    with out-of-range read as the empty string, fails: original "a"
    against rewritten "b" followed by an empty line. *)
Lemma diff_substitution_as_stated_fails :
  let o := JS.split NL (lit "a") in
  let f := JS.split NL (lit "b" ++ [NL]) in
  0 < length o /\ 0 < length f /\
  nth 0 o [] <> nth 0 f [] /\
  nth 1 o [] = nth 1 f [] /\
  Basic.diff_step o f 0 0
  <> ([Basic.entry Basic.removed (lit "a") 1;
       Basic.entry Basic.added (lit "b") 1], (1, 1)) /\
  Basic.diff_step o f 0 0
  = ([Basic.entry Basic.unchanged (lit "a") 1], (1, 1)) /\
  Basic.generateDiff (lit "a") (lit "b" ++ [NL])
  = [Basic.entry Basic.unchanged (lit "a") 1;
     Basic.entry Basic.unchanged [] 2].
Proof.
  cbv zeta. repeat split; try (vm_compute; lia); try discriminate.
Qed.

(** C8, as amended. With the original cursor past its last line and
    rewritten lines left, a rewritten line that is not empty is emitted as
    [added] with number j+1 and only j moves; an empty one is equal to the
    empty string read past the end of the original and is emitted as
    [unchanged] with number i+1, both cursors moving. *)
Theorem diff_original_exhausted (o f : list str) (i j n : nat) :
  length o <= i -> j < length f ->
  (Basic.line_or_empty f j <> [] ->
   Basic.diff_loop o f (S n) i j
   = Basic.entry Basic.added (Basic.line_or_empty f j) (j + 1)
     :: Basic.diff_loop o f n i (j + 1))
  /\
  (Basic.line_or_empty f j = [] ->
   Basic.diff_loop o f (S n) i j
   = Basic.entry Basic.unchanged [] (i + 1)
     :: Basic.diff_loop o f n (i + 1) (j + 1)).
Proof.
  intros Hi Hj.
  assert (Eo : Basic.line_or_empty o i = []).
  { unfold Basic.line_or_empty.
    now rewrite (proj2 (nth_error_None o i) Hi). }
  assert (Ec : Basic.diff_continues o f i j = true).
  { unfold Basic.diff_continues. apply orb_true_iff. right.
    now apply Nat.ltb_lt. }
  split; intros H; cbn [Basic.diff_loop]; rewrite Ec;
    unfold Basic.diff_step; rewrite Eo.
  - rewrite str_eqb_neq by congruence.
    destruct (Nat.leb_spec (length o) i); [reflexivity|lia].
  - rewrite H. reflexivity.
Qed.

Lemma diff_original_exhausted_witness :
  Basic.diff_loop [lit "a"] [lit "a"; lit "x"] 2 1 1
  = Basic.entry Basic.added (lit "x") 2
    :: Basic.diff_loop [lit "a"] [lit "a"; lit "x"] 1 1 2.
Proof.
  apply (@diff_original_exhausted [lit "a"] [lit "a"; lit "x"] 1 1 1);
    simpl; try lia; discriminate.
Defined.

(** The claim C8 as worded fails on an empty remaining line: original "a"
    against "a" followed by a line break. *)
Lemma diff_added_as_stated_fails :
  let o := JS.split NL (lit "a") in
  let f := JS.split NL (lit "a" ++ [NL]) in
  length o <= 1 /\ 1 < length f /\
  Basic.diff_step o f 1 1 <> ([Basic.entry Basic.added [] 2], (1, 2)) /\
  Basic.diff_step o f 1 1 = ([Basic.entry Basic.unchanged [] 2], (2, 2)) /\
  Basic.generateDiff (lit "a") (lit "a" ++ [NL])
  = [Basic.entry Basic.unchanged (lit "a") 1;
     Basic.entry Basic.unchanged [] 2].
Proof.
  cbv zeta. repeat split; try (vm_compute; lia); discriminate.
Qed.

(** ** Strings *)

Lemma split_length (s : str) : length (JS.split NL s) = S (newlines s).
Proof.
  unfold newlines. induction s as [|c s IH]; simpl; [reflexivity|].
  destruct (c =? NL)%N; simpl; [now rewrite IH|].
  destruct (JS.split NL s); simpl in *; lia.
Qed.

Lemma newlines_firstn (n : nat) (s : str) :
  newlines (firstn n s) <= newlines s.
Proof.
  unfold newlines. revert n; induction s as [|c s IH]; intros [|n]; simpl;
    try lia.
  specialize (IH n). destruct (c =? NL)%N; simpl; lia.
Qed.

Lemma getLineNumber_newlines (src : str) (index : nat) :
  getLineNumber src index = newlines (firstn index src) + 1.
Proof.
  unfold getLineNumber, JS.substring0. rewrite split_length. lia.
Qed.

Lemma getLineNumber_bounds (src : str) (index : nat) :
  1 <= getLineNumber src index <= lineCount src.
Proof.
  rewrite getLineNumber_newlines. unfold lineCount. rewrite split_length.
  pose proof (newlines_firstn index src). lia.
Qed.

Lemma drop_space_split (s : str) :
  exists w, s = w ++ JS.drop_space s /\ forallb JS.is_space w = true.
Proof.
  induction s as [|c s [w [E F]]]; simpl.
  - now exists [].
  - destruct (JS.is_space c) eqn:S.
    + exists (c :: w). simpl. rewrite S, F. now rewrite <- E.
    + now exists [].
Qed.

Lemma drop_space_head (s : str) (c : char) (t : str) :
  JS.drop_space s = c :: t -> JS.is_space c = false.
Proof.
  induction s as [|d s IH]; simpl; [discriminate|].
  destruct (JS.is_space d) eqn:S; [exact IH|].
  intros E. now injection E as -> _.
Qed.

Lemma drop_space_id (s : str) :
  (forall c t, s = c :: t -> JS.is_space c = false) -> JS.drop_space s = s.
Proof.
  destruct s as [|c s]; simpl; [reflexivity|].
  intros H. now rewrite (H c s eq_refl).
Qed.

Lemma trim_trimmed (s : str) : trimmed (JS.trim s).
Proof.
  unfold JS.trim.
  destruct (drop_space_split (rev (JS.drop_space s))) as [w [E F]].
  set (v := JS.drop_space (rev (JS.drop_space s))) in *.
  split; intros c t H.
  - (* the first code unit is the first one of [drop_space s] *)
    assert (E' : JS.drop_space s = rev v ++ rev w).
    { rewrite <- (rev_involutive (JS.drop_space s)), E.
      now rewrite rev_app_distr. }
    rewrite H in E'. simpl in E'. now apply drop_space_head in E'.
  - assert (Hv : v = c :: rev t).
    { rewrite <- (rev_involutive v), H, rev_app_distr. reflexivity. }
    now apply drop_space_head in Hv.
Qed.

Lemma trim_id (s : str) : trimmed s -> JS.trim s = s.
Proof.
  intros [H1 H2]. unfold JS.trim. rewrite (drop_space_id H1).
  rewrite drop_space_id; [apply rev_involutive|].
  intros c t E. apply (H2 c (rev t)).
  rewrite <- (rev_involutive s), E. reflexivity.
Qed.

(** ** [replace] with a callback *)

Section ReplaceFacts.
Import RegExp.
Variable St : Type.
Variable cb : result -> St -> str * St.

(** What every call of the replacer keeps holds at the end. *)
Lemma build_inv (Inv : St -> Prop) :
  (forall res st, Inv st -> Inv (snd (cb res st))) ->
  forall rs s next st, Inv st -> Inv (snd (build cb s next rs st)).
Proof.
  intros Hcb rs; induction rs as [|res rs IH]; intros s next st H;
    simpl; [exact H|].
  specialize (Hcb res st H). destruct (cb res st) as [rep st1].
  simpl in Hcb. destruct (next <=? index res).
  - specialize (IH s (index res + length (matched res)) st1 Hcb).
    destruct (build cb s _ rs st1). exact IH.
  - now apply IH.
Qed.

Lemma replace_inv (Inv : St -> Prop) (fl : flags) (r : regex) (s : str) :
  (forall res st, Inv st -> Inv (snd (cb res st))) ->
  forall st, Inv st -> Inv (snd (replace cb fl r s st)).
Proof. intros H st. apply build_inv, H. Qed.

Lemma scan_none (fl : flags) (r : regex) (s : str) :
  forall p pv, exec_from fl r p pv s = None -> scan fl r p pv s 0 = [].
Proof.
  induction s as [|c s IH]; intros p pv; simpl;
    destruct (match_at fl r p pv _); try discriminate; auto.
Qed.

(** A pattern that matches nowhere leaves text and state as they are. *)
Lemma replace_none (fl : flags) (r : regex) (s : str) (st : St) :
  test fl r s = false -> replace cb fl r s st = (s, st).
Proof.
  unfold test, exec, replace, matchAll. intros H.
  destruct (exec_from fl r 0 None s) eqn:E; [discriminate|].
  now rewrite (scan_none _ _ _ _ _ E).
Qed.
End ReplaceFacts.

(** ** Line numbers *)

Lemma Forall_snoc (A : Type) (P : A -> Prop) (l : list A) (a : A) :
  Forall P l -> P a -> Forall P (l ++ [a]).
Proof. intros. apply Forall_app. auto. Qed.

Section BasicInvariant.
Variable Inv : list AccessibilityFix -> Prop.

Lemma run_rules_inv (rls : list (flags * regex * Basic.Replacer)) :
  Forall (fun rl => keeps Inv (snd rl)) rls ->
  forall cf, Inv (snd cf) -> Inv (snd (Basic.run_rules rls cf)).
Proof.
  unfold Basic.run_rules.
  induction rls as [|[[fl re] cb] rls IH]; intros H cf Hcf; simpl;
    [exact Hcf|].
  inversion H as [|? ? Hcb Hrest]; subst. apply IH; [exact Hrest|].
  unfold Basic.run_rule. now apply replace_inv.
Qed.
End BasicInvariant.

(** ** The result of [fixAccessibility] *)

Lemma run_rules_none (s : str) (st : list AccessibilityFix)
    (rls : list (flags * regex * Basic.Replacer)) :
  Forall (fun rl => RegExp.test (fst (fst rl)) (snd (fst rl)) s = false) rls ->
  Basic.run_rules rls (s, st) = (s, st).
Proof.
  unfold Basic.run_rules.
  induction rls as [|[[fl re] cb] rls IH]; intros H; simpl; [reflexivity|].
  inversion H as [|? ? Hre Hrest]; subst. simpl in Hre.
  rewrite (replace_none cb _ _ _ st Hre). now apply IH.
Qed.

Lemma fix_code_trimmed (src : str) :
  trimmed (code (Basic.fixAccessibility src)).
Proof.
  unfold Basic.fixAccessibility.
  destruct (Basic.run_rules (Basic.rules src) (src, [])) as [c fs].
  apply trim_trimmed.
Qed.

Lemma fix_no_match (src : str) :
  no_pattern_matches src ->
  fixes (Basic.fixAccessibility src) = []
  /\ hasChanges (Basic.fixAccessibility src) = false
  /\ code (Basic.fixAccessibility src) = JS.trim src.
Proof.
  intros H. unfold Basic.fixAccessibility.
  rewrite (@run_rules_none src [] _ H). now repeat split.
Qed.

(** C10. [fixAccessibility] is a total function of the source text; the
    code it returns is the result of [trim] and has no white space at
    either end; [hasChanges] tells whether the fix list is non-empty; and
    when no pattern of a rule matches, the fix list is empty, [hasChanges]
    is false and the code is the source text trimmed. *)
Theorem fixAccessibility_total (src : str) :
  let r := Basic.fixAccessibility src in
  (exists raw, code r = JS.trim raw)
  /\ trimmed (code r)
  /\ (hasChanges r = true <-> fixes r <> [])
  /\ (no_pattern_matches src ->
      fixes r = [] /\ hasChanges r = false /\ code r = JS.trim src).
Proof.
  cbv zeta. split; [|split; [apply fix_code_trimmed|split;
                                                     [|apply fix_no_match]]].
  - unfold Basic.fixAccessibility.
    destruct (Basic.run_rules (Basic.rules src) (src, [])) as [c fs].
    now exists c.
  - unfold Basic.fixAccessibility.
    destruct (Basic.run_rules (Basic.rules src) (src, [])) as [c fs].
    cbn [fixes hasChanges]. destruct fs; simpl; split; try easy.
Qed.

Lemma fixAccessibility_total_witness :
  let r := Basic.fixAccessibility ([NL] ++ lit "  <p>hello</p> ") in
  fixes r = [] /\ hasChanges r = false /\ code r = lit "<p>hello</p>".
Proof.
  apply (fixAccessibility_total ([NL] ++ lit "  <p>hello</p> ")).
  unfold no_pattern_matches, Basic.rules.
  repeat constructor; vm_compute; reflexivity.
Defined.

(** ** The scenarios of the specification *)

(** C1, as amended. On the image scenario the AI service (full path and
    fallback alike) rewrites the tag with the non-empty alt text
    "Descriptive text for image", the attribute text holding no
    decorative keyword, and records exactly one fix, of category Images;
    [fixAccessibility] records exactly one Images fix as well but inserts
    an empty alt attribute. *)
Theorem img_scenario_result :
  AI.isDecorative (lit " src=" ++ DQ ++ lit "/x.png" ++ DQ ++ lit "/") = false
  /\ code (AI.fixAccessibilityWithAI img_scenario)
     = lit "<img src=" ++ DQ ++ lit "/x.png" ++ DQ ++ lit "/ alt=" ++ DQ
         ++ lit "Descriptive text for image" ++ DQ ++ lit ">"
  /\ has_nonempty_alt (code (AI.fixAccessibilityWithAI img_scenario)) = true
  /\ JS.includes (code (AI.fixAccessibilityWithAI img_scenario))
       (lit "alt=" ++ DQ ++ DQ) = false
  /\ map category (fixes (AI.fixAccessibilityWithAI img_scenario)) = [Images]
  /\ AI.fallback img_scenario = AI.fixAccessibilityWithAI img_scenario
  /\ code (Basic.fixAccessibility img_scenario)
     = lit "<img src=" ++ DQ ++ lit "/x.png" ++ DQ ++ lit "/ alt=" ++ DQ
         ++ DQ ++ lit ">"
  /\ map category (fixes (Basic.fixAccessibility img_scenario)) = [Images].
Proof. repeat split; vm_compute; reflexivity. Qed.

(** The claim C1 fails on [fixAccessibility]: its output for the image
    scenario has an empty alt attribute and no other. *)
Lemma img_scenario_basic_empty_alt :
  has_nonempty_alt (code (Basic.fixAccessibility img_scenario)) = false
  /\ JS.includes (code (Basic.fixAccessibility img_scenario))
       (lit "alt=" ++ DQ ++ DQ) = true.
Proof. split; vm_compute; reflexivity. Qed.

(** C2, as amended. On the clickable-div scenario the AI service rewrites
    the tag with the role button, [tabIndex={0}] and an [onKeyDown]
    handler that clicks on the Enter key; its five rules record exactly
    one fix, of category InteractiveElements, to which the advisory pass
    of the full path adds one KeyboardNavigation record.
    [fixAccessibility] inserts the role and the tabIndex only, with
    exactly one fix, of category InteractiveElements. *)
Theorem div_scenario_result :
  code (AI.fixAccessibilityWithAI div_scenario)
  = lit "<div " ++ keydown_handler ++ lit " tabIndex={0} role=" ++ DQ
      ++ lit "button" ++ DQ ++ lit " onClick={() => {}}/>"
  /\ code (AI.fallback div_scenario)
     = code (AI.fixAccessibilityWithAI div_scenario)
  /\ map category (fixes (AI.fallback div_scenario)) = [InteractiveElements]
  /\ map category (fixes (AI.fixAccessibilityWithAI div_scenario))
     = [InteractiveElements; KeyboardNavigation]
  /\ count_category InteractiveElements
       (fixes (AI.fixAccessibilityWithAI div_scenario)) = 1
  /\ code (Basic.fixAccessibility div_scenario)
     = lit "<div tabIndex={0} role=" ++ DQ ++ lit "button" ++ DQ
         ++ lit " onClick={() => {}}/>"
  /\ map category (fixes (Basic.fixAccessibility div_scenario))
     = [InteractiveElements].
Proof. repeat split; vm_compute; reflexivity. Qed.

(** The claim C2 fails on [fixAccessibility]: its output for the
    clickable-div scenario has no keyboard handler. *)
Lemma div_scenario_basic_no_handler :
  JS.includes (code (Basic.fixAccessibility div_scenario)) (lit "onKey")
  = false
  /\ JS.includes (code (Basic.fixAccessibility div_scenario))
       (lit "Enter") = false.
Proof. split; vm_compute; reflexivity. Qed.

(** ** Running the engine twice *)


(** ** The text [replace] builds *)

Section SpliceFacts.
Import RegExp.
Variable St : Type.

(** A replacer that leaves the state alone. *)
Lemma build_keep (cb : result -> St -> str * St) (f : result -> str) :
  (forall res st, cb res st = (f res, st)) ->
  forall rs s next st, build cb s next rs st = (splice f s next rs, st).
Proof.
  intros H rs; induction rs as [|res rs IH]; intros s next st; simpl;
    [reflexivity|].
  rewrite H. destruct (next <=? index res); [|apply IH].
  now rewrite IH.
Qed.

Lemma firstn_skipn_length (A : Type) (n : nat) (t : list A) :
  firstn n t ++ skipn (length (firstn n t)) t = t.
Proof.
  rewrite length_firstn.
  destruct (Nat.le_ge_cases n (length t)) as [H|H].
  - rewrite Nat.min_l by exact H. apply firstn_skipn.
  - rewrite Nat.min_r by exact H.
    rewrite firstn_all2 by exact H. rewrite skipn_all. apply app_nil_r.
Qed.

Lemma splice_id (s : str) (rs : list result) :
  forall next, chain s next rs -> splice matched s next rs = skipn next s.
Proof.
  induction rs as [|res rs IH]; intros next H; simpl; [reflexivity|].
  destruct H as (Hle & [n Hm] & Hc).
  apply Nat.leb_le in Hle as Hle'. rewrite Hle'.
  rewrite (IH _ Hc). unfold JS.substring.
  rewrite (Nat.add_comm (index res)), <- skipn_skipn.
  rewrite Hm, firstn_skipn_length.
  replace (skipn (index res) s)
    with (skipn (index res - next) (skipn next s))
    by (rewrite skipn_skipn; f_equal; lia).
  apply firstn_skipn.
Qed.

Lemma scan_chain (fl : flags) (r : regex) (t : str) :
  forall pre p pv skip next,
    p = length pre -> next <= p + skip ->
    chain (pre ++ t) next (scan fl r p pv t skip).
Proof.
  induction t as [|c t IH]; intros pre p pv skip next Hp Hn.
  - destruct skip; simpl; [|exact I].
    destruct (match_at fl r p pv []) as [y|]; simpl; [|exact I].
    repeat split; [lia|]. exists (pos y - p).
    now rewrite Hp, skipn_app, skipn_all, Nat.sub_diag.
  - replace (pre ++ c :: t) with ((pre ++ [c]) ++ t)
      by now rewrite <- app_assoc.
    destruct skip as [|n]; simpl.
    + destruct (match_at fl r p pv (c :: t)) as [y|]; simpl.
      * repeat split; [lia| |].
        -- exists (pos y - p). rewrite <- app_assoc.
           now rewrite Hp, skipn_app, skipn_all, Nat.sub_diag.
        -- apply IH; [rewrite length_app; simpl; lia|].
           pose proof (firstn_le_length (pos y - p) (c :: t)).
           pose proof (length_firstn (pos y - p) (c :: t)).
           change (List.length (c :: t)) with (S (List.length t)) in *.
           lia.
      * apply IH; [rewrite length_app; simpl; lia|lia].
    + apply IH; [rewrite length_app; simpl; lia|lia].
Qed.

(** A replacer that returns the match and leaves the state alone
    changes nothing. *)
Lemma replace_keep (cb : result -> St -> str * St) (fl : flags)
    (r : regex) (s : str) (st : St) :
  (forall res st', cb res st' = (matched res, st')) ->
  replace cb fl r s st = (s, st).
Proof.
  intros H. unfold replace. rewrite (@build_keep cb matched H).
  rewrite splice_id; [reflexivity|].
  apply (scan_chain fl r s [] None 0 (next := 0)); simpl; lia.
Qed.
End SpliceFacts.

(** A replacer that pushes one record per match. *)
Lemma build_push (A : Type) (cb : RegExp.result -> list A -> str * list A)
    (f : RegExp.result -> str) (g : RegExp.result -> A) :
  (forall res st, cb res st = (f res, st ++ [g res])) ->
  forall rs s next st,
    RegExp.build cb s next rs st = (splice f s next rs, st ++ map g rs).
Proof.
  intros H rs; induction rs as [|res rs IH]; intros s next st; simpl.
  - now rewrite app_nil_r.
  - rewrite H. destruct (next <=? RegExp.index res); rewrite IH;
      now rewrite <- app_assoc.
Qed.

(** ** What a match looks like

    Every end state the matcher hands to its continuation is one the
    pattern leads to in the sense of [den] ([m_sound]). *)

Section MatcherSound.
Import RegExp.
Variable fl : flags.

Lemma one_sound (ok : char -> bool) (x : mstate) (k : Cont) (z : mstate) :
  one ok x k = Some z -> exists y, den_one ok x y /\ k y = Some z.
Proof.
  unfold one, den_one. destruct (rest x) as [|c t]; [discriminate|].
  destruct (ok c) eqn:E; [|discriminate]. intros H.
  exists (advance x c t). split; [|exact H]. now exists c, t.
Qed.

Lemma repeat_sound (body : mstate -> Cont -> option mstate)
    (R : mstate -> mstate -> Prop) (greedy : bool) (k : Cont) (z : mstate) :
  (forall x k', body x k' = Some z -> exists y, R x y /\ k' y = Some z) ->
  forall fuel x,
    repeat body greedy k fuel x = Some z ->
    exists y, iter R x y /\ k y = Some z.
Proof.
  intros Hbody fuel; induction fuel as [|f IH]; intros x H; simpl in H.
  - exists x. split; [constructor|exact H].
  - assert (More : forall K,
              K = (fun y => if pos y =? pos x then None
                            else repeat body greedy k f y) ->
              body x K = Some z -> exists y, iter R x y /\ k y = Some z).
    { intros K -> HK. destruct (Hbody _ _ HK) as [y1 [R1 K1]].
      destruct (pos y1 =? pos x); [discriminate|].
      destruct (IH _ K1) as [y [Hit Hk]].
      exists y. split; [econstructor; eassumption|exact Hk]. }
    destruct greedy.
    + destruct (body x _) as [z'|] eqn:E.
      * injection H as ->. eapply More; [reflexivity|exact E].
      * exists x. split; [constructor|exact H].
    + destruct (k x) as [z'|] eqn:E.
      * injection H as ->. exists x. split; [constructor|exact E].
      * eapply More; [reflexivity|exact H].
Qed.

(** Soundness of the matcher: a result comes from the continuation, called
    on a state the pattern leads to. *)
Theorem m_sound (r : regex) :
  forall x k z, m fl r x k = Some z -> exists y, den fl r x y /\ k y = Some z.
Proof.
  induction r as [|p|negated items| |a IHa b IHb|a IHa b IHb|greedy a IHa
                 |n a IHa|a IHa|]; intros x k z H; simpl in H |- *.
  - now exists x.
  - now apply one_sound.
  - now apply one_sound.
  - now apply one_sound.
  - destruct (IHa _ _ _ H) as [y1 [D1 H1]].
    destruct (IHb _ _ _ H1) as [y [D2 H2]].
    exists y. split; [now exists y1|exact H2].
  - destruct (m fl a x k) as [z'|] eqn:E.
    + injection H as ->. destruct (IHa _ _ _ E) as [y [D K]].
      exists y. split; [now left|exact K].
    + destruct (IHb _ _ _ H) as [y [D K]].
      exists y. split; [now right|exact K].
  - eapply repeat_sound; [|exact H]. intros x' k'. apply IHa.
  - destruct (IHa _ _ _ H) as [y [D K]].
    eexists. split; [exists y; split; [exact D|reflexivity]|exact K].
  - destruct (m fl a x (fun y => Some y)) eqn:E; [discriminate|].
    exists x. now repeat split.
  - destruct (is_boundary x) eqn:E; [|discriminate]. now exists x.
Qed.

Lemma reaches_refl (x : mstate) : reaches x [] x.
Proof. split; simpl; [reflexivity|lia]. Qed.

Lemma reaches_trans (x y z : mstate) (u v : str) :
  reaches x u y -> reaches y v z -> reaches x (u ++ v) z.
Proof.
  intros [R1 P1] [R2 P2]. split.
  - now rewrite R1, R2, app_assoc.
  - rewrite length_app. lia.
Qed.

Lemma den_one_reaches (ok : char -> bool) (x y : mstate) :
  den_one ok x y -> exists c, ok c = true /\ reaches x [c] y.
Proof.
  intros (c & t & E & O & ->). exists c. split; [exact O|].
  split; simpl; [exact E|lia].
Qed.

Lemma den_reaches (r : regex) :
  forall x y, den fl r x y -> exists w, reaches x w y.
Proof.
  induction r as [|p|negated items| |a IHa b IHb|a IHa b IHb|greedy a IHa
                 |n a IHa|a IHa|]; intros x y H; simpl in H.
  - subst. exists []. apply reaches_refl.
  - destruct (den_one_reaches H) as (c & _ & R). now exists [c].
  - destruct (den_one_reaches H) as (c & _ & R). now exists [c].
  - destruct (den_one_reaches H) as (c & _ & R). now exists [c].
  - destruct H as (z & Ha & Hb).
    destruct (IHa _ _ Ha) as [u Ru]. destruct (IHb _ _ Hb) as [v Rv].
    exists (u ++ v). eapply reaches_trans; eassumption.
  - destruct H as [H|H]; [now apply IHa|now apply IHb].
  - induction H as [x|x z y Hxz _ [v Rv]].
    + exists []. apply reaches_refl.
    + destruct (IHa _ _ Hxz) as [u Ru].
      exists (u ++ v). eapply reaches_trans; eassumption.
  - destruct H as (z & Ha & ->). destruct (IHa _ _ Ha) as [u Ru].
    exists u. exact Ru.
  - destruct H as [-> _]. exists []. apply reaches_refl.
  - destruct H as [-> _]. exists []. apply reaches_refl.
Qed.
End MatcherSound.

(** *** Code units every match holds *)

Lemma chr_eq_caseless (fl : flags) (c d : char) :
  caseless c = true -> RegExp.chr_eq fl c d = true -> d = c.
Proof.
  unfold caseless, RegExp.chr_eq, JS.canonicalize. intros Hc.
  apply negb_true_iff, orb_false_iff in Hc. destruct Hc as [Hu Hl].
  rewrite Hl. destruct (ignoreCase fl).
  - destruct ((97 <=? d) && (d <=? 122))%N eqn:Hd.
    + rewrite N.eqb_eq. intros ->.
      apply andb_true_iff in Hd. destruct Hd as [H1 H2].
      apply N.leb_le in H1, H2.
      apply andb_false_iff in Hu.
      destruct Hu as [Hu|Hu]; apply N.leb_gt in Hu; lia.
    + rewrite N.eqb_eq. congruence.
  - rewrite N.eqb_eq. congruence.
Qed.

Lemma den_must_have (fl : flags) (c : char) (r : regex) :
  caseless c = true -> must_have c r = true ->
  forall x y, den fl r x y -> exists w, reaches x w y /\ In c w.
Proof.
  intros Hc.
  induction r as [|p|negated items| |a IHa b IHb|a IHa b IHb|greedy a IHa
                 |n a IHa|a IHa|]; intros Hm x y H; simpl in Hm, H;
    try discriminate.
  - apply N.eqb_eq in Hm. subst p.
    destruct (den_one_reaches H) as (d & Hd & R).
    apply (chr_eq_caseless _ _ _ Hc) in Hd. subst d.
    exists [c]. split; [exact R|now left].
  - destruct H as (z & Ha & Hb). apply orb_true_iff in Hm.
    destruct Hm as [Hm|Hm].
    + destruct (IHa Hm _ _ Ha) as (u & Ru & Iu).
      destruct (den_reaches _ _ _ _ Hb) as [v Rv].
      exists (u ++ v). split; [eapply reaches_trans; eassumption|].
      apply in_or_app. now left.
    + destruct (den_reaches _ _ _ _ Ha) as [u Ru].
      destruct (IHb Hm _ _ Hb) as (v & Rv & Iv).
      exists (u ++ v). split; [eapply reaches_trans; eassumption|].
      apply in_or_app. now right.
  - apply andb_true_iff in Hm. destruct Hm as [Hma Hmb].
    destruct H as [H|H]; [now apply IHa|now apply IHb].
  - destruct H as (z & Ha & ->).
    destruct (IHa Hm _ _ Ha) as (u & Ru & Iu). exists u. now split.
Qed.

(** Every match of a pattern that must hold [c] holds it. *)
Lemma match_at_must_have (fl : flags) (c : char) (r : regex) (p : nat)
    (pv : option char) (s : str) (y : mstate) :
  caseless c = true -> must_have c r = true ->
  RegExp.match_at fl r p pv s = Some y ->
  In c (RegExp.matched (RegExp.mk_result p s y)).
Proof.
  intros Hc Hm H. unfold RegExp.match_at in H.
  destruct (m_sound _ _ _ _ H) as (y' & D & E). injection E as ->.
  destruct (@den_must_have fl c r Hc Hm _ _ D) as (w & [R P] & I).
  simpl in R, P. simpl. rewrite R, P.
  replace (p + length w - p) with (length w + 0) by lia.
  rewrite firstn_app_2. simpl. now rewrite app_nil_r.
Qed.

Lemma scan_Forall (fl : flags) (r : regex) (P : RegExp.result -> Prop) :
  (forall p pv s y,
     RegExp.match_at fl r p pv s = Some y -> P (RegExp.mk_result p s y)) ->
  forall s p pv skip, Forall P (RegExp.scan fl r p pv s skip).
Proof.
  intros H s; induction s as [|c s IH]; intros p pv skip.
  - destruct skip; cbn [RegExp.scan]; [|constructor].
    destruct (RegExp.match_at fl r p pv []) eqn:E; [|constructor].
    constructor; [exact (H _ _ _ _ E)|constructor].
  - destruct skip; cbn [RegExp.scan]; [|apply IH].
    destruct (RegExp.match_at fl r p pv (c :: s)) eqn:E; [|apply IH].
    constructor; [exact (H _ _ _ _ E)|apply IH].
Qed.

(** *** [includes], [endsWith] and [replace] on strings *)

Lemma starts_with_iff (p s : str) :
  JS.starts_with p s = true <-> exists t, s = p ++ t.
Proof.
  revert s; induction p as [|a p IH]; intros s; simpl.
  - split; [now exists s|reflexivity].
  - destruct s as [|b s]; [split; [discriminate|now intros [t E]]|].
    rewrite andb_true_iff, N.eqb_eq, IH. split.
    + intros [-> [t ->]]. now exists t.
    + intros [t E]. injection E as -> ->. split; [reflexivity|now exists t].
Qed.

Lemma includes_iff (s p : str) :
  JS.includes s p = true <-> exists u v, s = u ++ p ++ v.
Proof.
  induction s as [|c s IH]; simpl.
  - rewrite orb_false_r, starts_with_iff. split.
    + intros [t E]. now exists [], t.
    + intros (u & v & E). symmetry in E.
      apply app_eq_nil in E. destruct E as [-> E].
      apply app_eq_nil in E. destruct E as [-> ->]. now exists [].
  - rewrite orb_true_iff, starts_with_iff, IH. split.
    + intros [[t E]|(u & v & E)].
      * now exists [], t.
      * exists (c :: u), v. now rewrite E.
    + intros (u & v & E). destruct u as [|d u].
      * left. now exists v.
      * right. injection E as -> E. now exists u, v.
Qed.

Lemma includes_In (c : char) (s : str) : In c s -> JS.includes s [c] = true.
Proof.
  intros H. apply in_split in H. destruct H as (u & v & ->).
  apply includes_iff. now exists u, v.
Qed.

Lemma endsWith_includes (s p : str) :
  JS.endsWith s p = true -> JS.includes s p = true.
Proof.
  unfold JS.endsWith. rewrite starts_with_iff, includes_iff.
  intros [t E]. exists (rev t), [].
  rewrite app_nil_r, <- (rev_involutive s), E, rev_app_distr.
  now rewrite rev_involutive.
Qed.

Lemma replace_first_includes (s p r : str) :
  JS.includes s p = true -> JS.includes (JS.replace_first s p r) r = true.
Proof.
  induction s as [|c s IH]; simpl.
  - rewrite orb_false_r. intros ->. apply includes_iff.
    now exists [], (skipn (length p) []).
  - destruct (JS.starts_with p (c :: s)) eqn:E.
    + intros _. apply includes_iff. now exists [], (skipn (length p) (c :: s)).
    + simpl. intros H. rewrite (IH H). apply orb_true_r.
Qed.

Lemma includes_trans (s r q : str) :
  JS.includes s r = true -> JS.includes r q = true -> JS.includes s q = true.
Proof.
  rewrite !includes_iff. intros (u & v & ->) (u' & v' & ->).
  exists (u ++ u'), (v' ++ v). now rewrite <- !app_assoc.
Qed.

(** ** The input rule of [fixAccessibility] *)

Lemma input_patch_labelled (mt : str) :
  In 62%N mt -> JS.includes (Basic.input_patch mt) input_label = true.
Proof.
  intros H. unfold Basic.input_patch.
  destruct (JS.endsWith mt (lit "/>")) eqn:E.
  - eapply includes_trans;
      [apply replace_first_includes, endsWith_includes, E|].
    vm_compute. reflexivity.
  - eapply includes_trans;
      [apply replace_first_includes, (includes_In _ _ H)|].
    vm_compute. reflexivity.
Qed.

Lemma count_category_app (c : Category) (a b : list AccessibilityFix) :
  count_category c (a ++ b) = count_category c a + count_category c b.
Proof. unfold count_category. now rewrite filter_app, length_app. Qed.

Lemma count_category_map (A : Type) (c : Category)
    (g : A -> AccessibilityFix) (l : list A) :
  (forall a, category (g a) = c) ->
  count_category c (map g l) = length l.
Proof.
  intros H. unfold count_category. induction l as [|a l IH]; simpl;
    [reflexivity|].
  rewrite H. destruct c; simpl; now rewrite IH.
Qed.

Lemma first_rules_no_forms (src : str) :
  Forall (fun rl => keeps (fun st => count_category Forms st = 0) (snd rl))
    (firstn 4 (Basic.rules src)).
Proof.
  unfold Basic.rules. cbn [firstn].
  repeat constructor; intros res st H;
    unfold Basic.fix_img, Basic.fix_button, Basic.fix_a, Basic.fix_div;
    cbn [snd].
  - rewrite count_category_app, H. reflexivity.
  - rewrite count_category_app, H. reflexivity.
  - destruct (JS.trim _); cbn [snd]; [|exact H].
    rewrite count_category_app, H. reflexivity.
  - rewrite count_category_app, H. reflexivity.
Qed.

Lemma before_input_no_forms (src : str) :
  count_category Forms (snd (before_input src)) = 0.
Proof.
  unfold before_input.
  now apply (run_rules_inv (first_rules_no_forms src) (src, [])).
Qed.

Lemma run_rules_last (src : str) :
  Basic.run_rules (Basic.rules src) (src, [])
  = Basic.run_rule (gi, Basic.input_re, Basic.fix_input src)
      (before_input src).
Proof.
  unfold before_input, Basic.run_rules.
  change (Basic.rules src)
    with (firstn 4 (Basic.rules src)
          ++ [(gi, Basic.input_re, Basic.fix_input src)]).
  now rewrite fold_left_app.
Qed.

(** The claim C4 as worded fails on a self-closed input tag whose
    attribute text holds [>]: the tag has none of the three attributes,
    the text has no label, and yet nothing is inserted and no fix is
    recorded. *)
Lemma input_rule_as_stated_fails :
  let src := lit "<input onChange={(e) => set(e.target.value)} />" in
  JS.includes src (lit "aria-label") = false
  /\ JS.includes src (lit "id") = false
  /\ JS.endsWith src (lit "/>") = true
  /\ Basic.hasAssociatedLabel src = false
  /\ RegExp.matchAll gi Basic.input_re src = []
  /\ code (Basic.fixAccessibility src) = src
  /\ fixes (Basic.fixAccessibility src) = [].
Proof. cbv zeta. repeat split; vm_compute; reflexivity. Qed.

(** ** Completeness of the matcher on runs of single code units *)

Lemma feed_rest (a : str) :
  forall x t, rest x = a ++ t -> rest (feed x a) = t.
Proof.
  induction a as [|c a IH]; intros x t H; simpl; [exact H|].
  apply IH. simpl. now rewrite H.
Qed.

Lemma feed_app (a b : str) (x : mstate) :
  feed x (a ++ b) = feed (feed x a) b.
Proof. revert x; induction a as [|c a IH]; intros x; simpl; auto. Qed.

Lemma feed_prev (a : str) (c : char) (x : mstate) :
  prev (feed x (a ++ [c])) = Some c.
Proof. rewrite feed_app. reflexivity. Qed.

(** A literal run of code units is matched by itself. *)
Lemma m_literal (fl : flags) (w : str) :
  forall x t k,
    rest x = w ++ t ->
    RegExp.m fl (cat (map Chr w)) x k = k (feed x w).
Proof.
  induction w as [|c w IH]; intros x t k H; simpl; [reflexivity|].
  unfold RegExp.one. rewrite H. simpl.
  assert (E : RegExp.chr_eq fl c c = true).
  { unfold RegExp.chr_eq. destruct (ignoreCase fl); apply N.eqb_refl. }
  rewrite E. now apply (IH _ t).
Qed.

(** A star over a single code unit reaches the end of any run of code
    units it accepts, whether greedy or lazy: if the continuation succeeds
    there, the star succeeds. *)
Lemma repeat_one_complete (ok : char -> bool) (greedy : bool)
    (k : RegExp.Cont) (a : str) :
  forall x t,
    forallb ok a = true -> rest x = a ++ t ->
    k (feed x a) <> None ->
    RegExp.repeat (RegExp.one ok) greedy k (length (rest x)) x <> None.
Proof.
  induction a as [|c a IH]; intros x t Hok Hrest Hk.
  - simpl in Hk. destruct (length (rest x)); simpl; [exact Hk|].
    destruct greedy.
    + destruct (RegExp.one ok x _); [discriminate|exact Hk].
    + destruct (k x); [discriminate|contradiction].
  - simpl in Hok. apply andb_true_iff in Hok. destruct Hok as [Hc Ha].
    simpl in Hk. rewrite Hrest in Hk. simpl in Hk.
    assert (Step : RegExp.one ok x
                     (fun y => if pos y =? pos x then None
                               else RegExp.repeat (RegExp.one ok) greedy k
                                      (length (a ++ t)) y) <> None).
    { unfold RegExp.one at 1. rewrite Hrest. cbn [app]. rewrite Hc.
      cbn [pos RegExp.advance].
      replace (S (pos x) =? pos x) with false
        by (symmetry; apply Nat.eqb_neq; lia).
      apply (IH (RegExp.advance x c (a ++ t)) t Ha eq_refl Hk). }
    rewrite Hrest. simpl.
    destruct greedy.
    + destruct (RegExp.one ok x _); [discriminate|contradiction].
    + destruct (k x); [discriminate|exact Step].
Qed.

Lemma alt_right_complete (fl : flags) (a b : regex) (x : mstate)
    (k : RegExp.Cont) :
  RegExp.m fl b x k <> None -> RegExp.m fl (Alt a b) x k <> None.
Proof. simpl. destruct (RegExp.m fl a x k); [discriminate|auto]. Qed.

(** Every result of a scan is a match of the pattern at its index. *)
Lemma scan_In_match (fl : flags) (r : regex) (t : str) :
  forall pre p pv skip res,
    p = length pre ->
    In res (RegExp.scan fl r p pv t skip) ->
    exists pv' y,
      RegExp.match_at fl r (RegExp.index res) pv'
        (skipn (RegExp.index res) (pre ++ t)) = Some y.
Proof.
  induction t as [|c t IH]; intros pre p pv skip res Hp H.
  - destruct skip; simpl in H; [|contradiction].
    destruct (RegExp.match_at fl r p pv []) as [y|] eqn:E;
      [|contradiction].
    destruct H as [<-|[]]. simpl. exists pv, y.
    now rewrite Hp, skipn_app, skipn_all, Nat.sub_diag in *.
  - assert (Next : forall skip',
              In res (RegExp.scan fl r (S p) (Some c) t skip') ->
              exists pv' y,
                RegExp.match_at fl r (RegExp.index res) pv'
                  (skipn (RegExp.index res) (pre ++ c :: t)) = Some y).
    { intros skip' H'.
      replace (pre ++ c :: t) with ((pre ++ [c]) ++ t)
        by now rewrite <- app_assoc.
      apply (IH (pre ++ [c]) (S p) (Some c) skip' res);
        [rewrite length_app; simpl; lia|exact H']. }
    destruct skip; simpl in H; [|now apply (Next skip)].
    destruct (RegExp.match_at fl r p pv (c :: t)) as [y|] eqn:E;
      [|now apply (Next 0)].
    destruct H as [<-|H]; [|exact (Next _ H)].
    simpl. exists pv, y.
    now rewrite Hp, skipn_app, skipn_all, Nat.sub_diag in *.
Qed.

(** ** The button rule of the AI service and aria-labelledby *)

Lemma cat_cons (r : regex) (rs : list regex) : cat (r :: rs) = Seq r (cat rs).
Proof. reflexivity. Qed.

Lemma m_seq (fl : flags) (a b : regex) (x : mstate) (k : RegExp.Cont) :
  RegExp.m fl (Seq a b) x k
  = RegExp.m fl a x (fun y => RegExp.m fl b y k).
Proof. reflexivity. Qed.

Lemma m_star_one (fl : flags) (greedy negated : bool) (items : list citem)
    (x : mstate) (k : RegExp.Cont) :
  RegExp.m fl (Star greedy (Cls negated items)) x k
  = RegExp.repeat (RegExp.one (RegExp.cls_has negated items)) greedy k
      (length (rest x)) x.
Proof. reflexivity. Qed.

Lemma forallb_not_gt (a : str) :
  Forall (fun d => d <> 62%N) a ->
  forallb (RegExp.cls_has true [CChar 62%N]) a = true.
Proof.
  induction 1 as [|d a Hd _ IH]; simpl; [reflexivity|].
  rewrite IH, andb_true_r. apply N.eqb_neq in Hd. now rewrite Hd.
Qed.

Lemma forallb_space (w : str) :
  Forall (fun d => JS.is_space d = true) w ->
  forallb (RegExp.cls_has false [CSpace]) w = true.
Proof.
  induction 1 as [|d w Hd _ IH]; simpl; [reflexivity|].
  now rewrite IH, Hd.
Qed.

(** The body of the lookahead finds [aria-labelledby=] in an attribute
    text that holds it after a code unit that is not a word character,
    with no [>] before it. *)
Lemma labelled_found (x : mstate) (a : str) (c : char) (w t : str) :
  rest x = (a ++ [c]) ++ lit "aria-labelledby" ++ w ++ lit "=" ++ t ->
  Forall (fun d => d <> 62%N) (a ++ [c]) ->
  JS.is_word c = false ->
  Forall (fun d => JS.is_space d = true) w ->
  RegExp.m gis AI.labelled x (fun y => Some y) <> None.
Proof.
  intros Hrest Ha Hc Hw. unfold AI.labelled.
  rewrite cat_cons, m_seq. unfold star at 1, notc.
  change (map CChar (lit ">")) with [CChar 62%N].
  rewrite m_star_one.
  eapply (@repeat_one_complete _ _ _ (a ++ [c]) x);
    [now apply forallb_not_gt|exact Hrest|].
  pose proof (@feed_rest _ _ _ Hrest) as Ry.
  pose proof (feed_prev a c x) as Py.
  set (y := feed x (a ++ [c])) in *.
  rewrite cat_cons, m_seq. cbn [RegExp.m].
  unfold RegExp.is_boundary. rewrite Ry, Py. cbn [RegExp.word_at].
  rewrite Hc. cbn [hd_error lit map list_ascii_of_string app xorb].
  change (JS.is_word (N_of_ascii "a")) with true. cbv iota.
  rewrite cat_cons, m_seq. apply alt_right_complete.
  unfold L at 1. rewrite (@m_literal gis _ y _ _ Ry).
  pose proof (@feed_rest _ _ _ Ry) as Rz.
  set (z := feed y (lit "aria-labelledby")) in *.
  rewrite cat_cons, m_seq. unfold star, sp. rewrite m_star_one.
  eapply (@repeat_one_complete _ _ _ w z);
    [now apply forallb_space|exact Rz|].
  pose proof (@feed_rest _ _ _ Rz) as Ru.
  rewrite cat_cons, m_seq. unfold L.
  rewrite (@m_literal gis _ _ _ _ Ru). discriminate.
Qed.

(** The button pattern of the AI service does not match at a button whose
    attribute text holds [aria-labelledby=]. *)
Lemma button_re_labelledby (p : nat) (pv : option char) (a : str) (c : char)
    (w t : str) :
  Forall (fun d => d <> 62%N) (a ++ [c]) ->
  JS.is_word c = false ->
  Forall (fun d => JS.is_space d = true) w ->
  RegExp.match_at gis AI.button_re p pv
    (lit "<button" ++ (a ++ [c]) ++ lit "aria-labelledby" ++ w ++ lit "="
       ++ t) = None.
Proof.
  intros Ha Hc Hw. unfold RegExp.match_at, AI.button_re.
  rewrite cat_cons, m_seq. unfold L at 1.
  rewrite (@m_literal gis (lit "<button") (RegExp.start p pv _) _ _ eq_refl).
  rewrite cat_cons, m_seq. cbn [RegExp.m].
  destruct (RegExp.m gis AI.labelled _ _) eqn:E; [reflexivity|].
  exfalso. revert E. apply (@labelled_found _ a c w t); auto.
Qed.

(** The claim C5 fails on [fixAccessibility], whose button pattern looks
    for [aria-label=] only: the button that has aria-labelledby gets an
    aria-label and a fix record. *)
Lemma button_labelledby_basic_fixed :
  JS.includes labelledby_scenario (lit "aria-labelledby=") = true
  /\ JS.includes labelledby_scenario (lit "aria-label=") = false
  /\ code (Basic.fixAccessibility labelledby_scenario)
     <> labelledby_scenario
  /\ JS.includes (code (Basic.fixAccessibility labelledby_scenario))
       (lit "aria-label=" ++ DQ ++ lit "Button" ++ DQ) = true
  /\ count_category InteractiveElements
       (fixes (Basic.fixAccessibility labelledby_scenario)) = 1.
Proof.
  repeat split; try (vm_compute; reflexivity). vm_compute. discriminate.
Qed.

(** ** The bound of the star loop is never reached

    The matcher looks at its continuation only on states further in the
    input ([m_local]); with the refusal of empty iterations this makes the
    number of code units left a sufficient bound for [repeat]: any larger
    one gives the same result ([star_fuel]). *)

Section StarFuel.
Import RegExp.
Variable fl : flags.

Lemma ahead_refl (x : mstate) : ahead x x.
Proof. exists []. apply reaches_refl. Qed.

Lemma ahead_trans (x y z : mstate) : ahead x y -> ahead y z -> ahead x z.
Proof.
  intros [u U] [v V]. exists (u ++ v). eapply reaches_trans; eassumption.
Qed.

Lemma ahead_advance (x : mstate) (c : char) (t : str) :
  rest x = c :: t -> ahead x (advance x c t).
Proof. intros H. exists [c]. split; simpl; [exact H|lia]. Qed.

Lemma ahead_same_pos (x y : mstate) :
  ahead x y -> pos y = pos x -> rest y = rest x.
Proof.
  intros [w [R P]] E. destruct w as [|c w]; [exact (eq_sym R)|].
  simpl in P. lia.
Qed.

Lemma ahead_shorter (x y : mstate) :
  ahead x y -> pos y <> pos x -> length (rest y) < length (rest x).
Proof.
  intros [w [R P]] E. rewrite R, length_app.
  destruct w as [|c w]; simpl in *; lia.
Qed.

Lemma one_local (ok : char -> bool) : local (one ok).
Proof.
  intros x k k' H. unfold one. destruct (rest x) as [|c t] eqn:E;
    [reflexivity|].
  destruct (ok c); [|reflexivity]. apply H. now apply ahead_advance.
Qed.

Lemma repeat_local (body : mstate -> Cont -> option mstate) (greedy : bool) :
  local body ->
  forall fuel x k k',
    (forall y, ahead x y -> k y = k' y) ->
    repeat body greedy k fuel x = repeat body greedy k' fuel x.
Proof.
  intros Hb fuel; induction fuel as [|f IH]; intros x k k' H; simpl.
  - apply H, ahead_refl.
  - rewrite (H x (ahead_refl x)).
    assert (E : body x (fun y => if pos y =? pos x then None
                                 else repeat body greedy k f y)
                = body x (fun y => if pos y =? pos x then None
                                   else repeat body greedy k' f y)).
    { apply Hb. intros y Hy. destruct (pos y =? pos x); [reflexivity|].
      apply IH. intros z Hz. apply H. eapply ahead_trans; eassumption. }
    now rewrite E.
Qed.

Lemma m_local (r : regex) : local (m fl r).
Proof.
  induction r as [|p|negated items| |a IHa b IHb|a IHa b IHb|greedy a IHa
                 |n a IHa|a IHa|]; intros x k k' H; simpl.
  - apply H, ahead_refl.
  - now apply one_local.
  - now apply one_local.
  - now apply one_local.
  - apply IHa. intros y Hy. apply IHb. intros z Hz.
    apply H. eapply ahead_trans; eassumption.
  - now rewrite (IHa x k k' H), (IHb x k k' H).
  - now apply repeat_local.
  - apply IHa. intros y [w [R P]]. apply H. exists w. split; assumption.
  - now rewrite (H x (ahead_refl x)).
  - now rewrite (H x (ahead_refl x)).
Qed.

(** A continuation that fails everywhere ahead makes the matcher fail. *)
Lemma m_dead (r : regex) (x : mstate) (k : Cont) :
  (forall y, ahead x y -> k y = None) -> m fl r x k = None.
Proof.
  intros H. destruct (m fl r x k) as [z|] eqn:E; [|reflexivity].
  destruct (m_sound _ _ _ _ E) as (y & D & K).
  rewrite (H y (den_reaches _ _ _ _ D)) in K. discriminate.
Qed.

Lemma repeat_fuel (a : regex) (greedy : bool) (k : Cont) :
  forall n x,
    length (rest x) <= n ->
    repeat (m fl a) greedy k (S n) x = repeat (m fl a) greedy k n x.
Proof.
  induction n as [|n IH]; intros x H.
  - assert (D : m fl a x (fun y => if pos y =? pos x then None
                                   else repeat (m fl a) greedy k 0 y)
                = None).
    { apply m_dead. intros y Hy.
      destruct (Nat.eqb_spec (pos y) (pos x)) as [E|E]; [reflexivity|].
      pose proof (ahead_shorter Hy E). lia. }
    cbn [repeat] in *. rewrite D. destruct greedy; [reflexivity|].
    now destruct (k x).
  - assert (E : m fl a x (fun y => if pos y =? pos x then None
                                   else repeat (m fl a) greedy k (S n) y)
                = m fl a x (fun y => if pos y =? pos x then None
                                     else repeat (m fl a) greedy k n y)).
    { apply m_local. intros y Hy.
      destruct (Nat.eqb_spec (pos y) (pos x)) as [P|P]; [reflexivity|].
      apply IH. pose proof (ahead_shorter Hy P). lia. }
    change (repeat (m fl a) greedy k (S (S n)) x)
      with (if greedy then
              match m fl a x (fun y => if pos y =? pos x then None
                                       else repeat (m fl a) greedy k (S n) y)
              with Some z => Some z | None => k x end
            else
              match k x with
              | Some z => Some z
              | None => m fl a x (fun y => if pos y =? pos x then None
                                           else repeat (m fl a) greedy k
                                                  (S n) y)
              end).
    rewrite E. reflexivity.
Qed.

(** More fuel than the code units left changes nothing. *)
Theorem star_fuel (a : regex) (greedy : bool) (k : Cont) (x : mstate)
    (extra : nat) :
  repeat (m fl a) greedy k (length (rest x) + extra) x
  = m fl (Star greedy a) x k.
Proof.
  induction extra as [|d IH]; simpl.
  - now rewrite Nat.add_0_r.
  - rewrite Nat.add_succ_r, repeat_fuel by lia. exact IH.
Qed.
End StarFuel.

(** ** What the patterns leave aside

    The rules work on the text, not on parsed tags: the attribute text of
    a match stops at the first [>], and the lookahead finds [id=] after
    any code unit that is not a word character. *)

Example input_with_data_id_not_matched :
  RegExp.matchAll gi Basic.input_re (lit "<input data-id='7' />") = []
  /\ fixes (Basic.fixAccessibility (lit "<input data-id='7' />")) = [].
Proof. split; vm_compute; reflexivity. Qed.

(** An input tag inside the attribute text of an image tag: the image
    rule, which comes first, writes its alt attribute before the [>], and
    the input rule finds no tag in the text it is left with. *)
Example input_inside_img_tag :
  map category (fixes (Basic.fixAccessibility (lit "<img <input />")))
  = [Images]
  /\ code (Basic.fixAccessibility (lit "<img <input />"))
     = lit "<img <input / alt=" ++ DQ ++ DQ ++ lit ">".
Proof. split; vm_compute; reflexivity. Qed.

(** An input tag inside the attribute text of another one: the pattern
    matches from the first tag name on, and the rule deals with one
    match. *)
Example input_inside_input_tag :
  map (fun res => (RegExp.index res, RegExp.matched res))
    (RegExp.matchAll gi Basic.input_re (lit "<input <input />"))
  = [(0, lit "<input <input />")]
  /\ map category (fixes (Basic.fixAccessibility (lit "<input <input />")))
     = [Forms]
  /\ code (Basic.fixAccessibility (lit "<input <input />"))
     = lit "<input <input " ++ input_label ++ lit " />".
Proof. repeat split; vm_compute; reflexivity. Qed.

(** A match of the button pattern that starts at an upper-case tag is
    rewritten at the first lower-case [<button] it holds, here the one
    that has aria-labelledby. *)
Example button_upper_case_rewrites_next :
  code (AI.fixAccessibilityWithAI
          (lit "<BUTTON><svg></svg>x</BUTTON><button aria-labelledby='t'><svg></svg></button>"))
  = lit "<BUTTON><svg></svg>x</BUTTON><button aria-label=" ++ DQ
      ++ lit "Button action" ++ DQ
      ++ lit " aria-labelledby='t'><svg></svg></button>".
Proof. vm_compute. reflexivity. Qed.

(** * Further properties *)

(** ** The line diff: size, sides and changed blocks *)

Section DiffMore.
Variables o f : list str.

(** The five cases of a turn of the loop. *)
Lemma diff_step_cases (i j : nat) :
  Basic.diff_continues o f i j = true ->
  (exists c, Basic.diff_step o f i j
             = ([Basic.entry Basic.unchanged c (i + 1)], (i + 1, j + 1))
             /\ c = Basic.line_or_empty o i)
  \/ (length o <= i /\ j < length f
      /\ Basic.diff_step o f i j
         = ([Basic.entry Basic.added (Basic.line_or_empty f j) (j + 1)],
            (i, j + 1)))
  \/ (i < length o /\ length f <= j
      /\ Basic.diff_step o f i j
         = ([Basic.entry Basic.removed (Basic.line_or_empty o i) (i + 1)],
            (i + 1, j)))
  \/ (i < length o /\ j < length f
      /\ Basic.diff_step o f i j
         = ([Basic.entry Basic.removed (Basic.line_or_empty o i) (i + 1);
             Basic.entry Basic.added (Basic.line_or_empty f j) (j + 1)],
            (i + 1, j + 1))).
Proof.
  unfold Basic.diff_continues, Basic.diff_step.
  rewrite orb_true_iff, !Nat.ltb_lt. intros H.
  destruct (Basic.str_eqb _ _); [left; eauto|].
  destruct (Nat.leb_spec (length o) i); [right; left; repeat split; lia|].
  destruct (Nat.leb_spec (length f) j);
    [right; right; left; repeat split; lia|].
  destruct (Basic.same_next _ _); [right; right; right; repeat split; lia|].
  left. eauto.
Qed.

Lemma diff_loop_length (n : nat) :
  forall i j,
    (length o - i) + (length f - j) <= n ->
    Nat.max (length o - i) (length f - j)
    <= length (Basic.diff_loop o f n i j)
    <= (length o - i) + (length f - j).
Proof.
  induction n as [|n IH]; intros i j H; [simpl; lia|].
  cbn [Basic.diff_loop].
  destruct (Basic.diff_continues o f i j) eqn:E.
  - destruct (diff_step_cases i j E)
      as [(c & Hs & _)|[(A & B & Hs)|[(A & B & Hs)|(A & B & Hs)]]];
      rewrite Hs, length_app; cbn [length];
      unfold Basic.diff_continues in E;
      apply orb_true_iff in E; rewrite !Nat.ltb_lt in E.
    + specialize (IH (i + 1) (j + 1)). lia.
    + specialize (IH i (j + 1)). lia.
    + specialize (IH (i + 1) j). lia.
    + specialize (IH (i + 1) (j + 1)). lia.
  - unfold Basic.diff_continues in E.
    apply orb_false_iff in E. rewrite !Nat.ltb_ge in E. simpl. lia.
Qed.

Lemma line_or_empty_nth (ls : list str) (k : nat) :
  k < length ls -> nth_error ls k = Some (Basic.line_or_empty ls k).
Proof.
  intros H. unfold Basic.line_or_empty.
  destruct (nth_error ls k) eqn:E; [reflexivity|].
  apply nth_error_None in E. lia.
Qed.

Lemma line_or_empty_past (ls : list str) (k : nat) :
  length ls <= k -> Basic.line_or_empty ls k = [].
Proof.
  intros H. unfold Basic.line_or_empty.
  now rewrite (proj2 (nth_error_None ls k) H).
Qed.

Lemma diff_loop_real (n : nat) :
  forall i j, Forall (entry_real o f) (Basic.diff_loop o f n i j).
Proof.
  induction n as [|n IH]; intros i j; [constructor|].
  cbn [Basic.diff_loop].
  destruct (Basic.diff_continues o f i j) eqn:E; [|constructor].
  destruct (diff_step_cases i j E)
    as [(c & Hs & C)|[(A & B & Hs)|[(A & B & Hs)|(A & B & Hs)]]];
    rewrite Hs; cbn [app]; repeat constructor; try apply IH.
  - exists i. split; [cbn; f_equal; lia|exact C].
  - exists j. split; [cbn; f_equal; lia|]. cbn. now apply line_or_empty_nth.
  - exists i. split; [cbn; f_equal; lia|]. cbn. now apply line_or_empty_nth.
  - exists i. split; [cbn; f_equal; lia|]. cbn. now apply line_or_empty_nth.
  - exists j. split; [cbn; f_equal; lia|]. cbn. now apply line_or_empty_nth.
Qed.

Lemma skipn_line (ls : list str) (k : nat) :
  k < length ls ->
  skipn k ls = Basic.line_or_empty ls k :: skipn (k + 1) ls.
Proof.
  revert k; induction ls as [|l ls IH]; intros k H; simpl in H; [lia|].
  destruct k as [|k]; [reflexivity|].
  cbn [skipn Nat.add]. rewrite (IH k) by lia. reflexivity.
Qed.

(** The original side of the output of the loop: the original lines still
    to come, then empty lines only, with consecutive numbers. *)
Lemma diff_loop_original_side (n : nat) :
  forall i j,
    (length o - i) + (length f - j) <= n ->
    exists k,
      map Basic.content (original_side (Basic.diff_loop o f n i j))
      = skipn i o ++ repeat [] k
      /\ map Basic.lineNumber (original_side (Basic.diff_loop o f n i j))
         = map Some (seq (i + 1) (length (skipn i o) + k)).
Proof.
  induction n as [|n IH]; intros i j H.
  - exists 0. simpl. rewrite skipn_all2 by lia. now split.
  - cbn [Basic.diff_loop].
    destruct (Basic.diff_continues o f i j) eqn:E.
    + destruct (diff_step_cases i j E)
        as [(c & Hs & C)|[(A & B & Hs)|[(A & B & Hs)|(A & B & Hs)]]];
        rewrite Hs; cbn [app]; unfold original_side; cbn [filter is_added
          Basic.type Basic.entry negb map Basic.content Basic.lineNumber];
        fold (original_side (Basic.diff_loop o f n (i + 1) (j + 1)));
        fold (original_side (Basic.diff_loop o f n i (j + 1)));
        fold (original_side (Basic.diff_loop o f n (i + 1) j)).
      * unfold Basic.diff_continues in E.
        apply orb_true_iff in E. rewrite !Nat.ltb_lt in E.
        destruct (IH (i + 1) (j + 1)) as (k & K1 & K2); [lia|].
        rewrite K1, K2, C.
        destruct (Nat.lt_ge_cases i (length o)) as [L|L].
        -- exists k. rewrite (skipn_line o L). cbn [app length Nat.add].
           split; [reflexivity|].
           replace (i + 1) with (S i) by lia.
           replace (S i + 1) with (S (S i)) by lia. reflexivity.
        -- exists (S k). rewrite (line_or_empty_past o L).
           rewrite !skipn_all2 by lia. cbn [app length repeat Nat.add].
           split; [reflexivity|].
           replace (i + 1) with (S i) by lia.
           replace (S i + 1) with (S (S i)) by lia. reflexivity.
      * apply IH. lia.
      * destruct (IH (i + 1) j) as (k & K1 & K2); [lia|].
        rewrite K1, K2. exists k. rewrite (skipn_line o A).
        cbn [app length Nat.add]. split; [reflexivity|].
        replace (i + 1) with (S i) by lia.
        replace (S i + 1) with (S (S i)) by lia. reflexivity.
      * destruct (IH (i + 1) (j + 1)) as (k & K1 & K2); [lia|].
        rewrite K1, K2. exists k. rewrite (skipn_line o A).
        cbn [app length Nat.add]. split; [reflexivity|].
        replace (i + 1) with (S i) by lia.
        replace (S i + 1) with (S (S i)) by lia. reflexivity.
    + unfold Basic.diff_continues in E.
      apply orb_false_iff in E. rewrite !Nat.ltb_ge in E.
      exists 0. simpl. rewrite skipn_all2 by lia. now split.
Qed.
End DiffMore.

(** X1. The diff has at least as many entries as the longer of the two
    texts has lines, and at most as many as both have together. *)
Theorem generateDiff_length (original fixed : str) :
  Nat.max (lineCount original) (lineCount fixed)
  <= length (Basic.generateDiff original fixed)
  <= lineCount original + lineCount fixed.
Proof.
  unfold Basic.generateDiff, lineCount.
  pose proof (@diff_loop_length (JS.split NL original) (JS.split NL fixed)
                (length (JS.split NL original)
                 + length (JS.split NL fixed)) 0 0) as H.
  rewrite !Nat.sub_0_r in H. apply H. lia.
Qed.

(** X2. The diff invents no line: a [removed] entry holds the line of the
    original text that has its number, an [added] entry the line of the
    rewritten text that has its number, and an [unchanged] entry what the
    original text reads at its number. *)
Theorem generateDiff_entries_real (original fixed : str) :
  Forall (entry_real (JS.split NL original) (JS.split NL fixed))
    (Basic.generateDiff original fixed).
Proof. apply diff_loop_real. Qed.

(** X3. The original text can be read back from the diff: the contents of
    the entries that are not [added] are the lines of the original text in
    order, followed by empty lines only, and these entries are numbered 1,
    2, 3, ... without a gap. *)
Theorem generateDiff_original_side (original fixed : str) :
  exists k,
    map Basic.content (original_side (Basic.generateDiff original fixed))
    = JS.split NL original ++ repeat [] k
    /\ map Basic.lineNumber
         (original_side (Basic.generateDiff original fixed))
       = map Some (seq 1 (lineCount original + k)).
Proof.
  unfold Basic.generateDiff, lineCount.
  destruct (@diff_loop_original_side (JS.split NL original)
              (JS.split NL fixed)
              (length (JS.split NL original)
               + length (JS.split NL fixed)) 0 0) as (k & K1 & K2); [lia|].
  exists k. now split.
Qed.

Lemma nth_error_at (A : Type) (p : list A) (l : A) (r : list A) (k : nat) :
  k = length p -> nth_error (p ++ l :: r) k = Some l.
Proof.
  intros ->. rewrite nth_error_app2 by lia. now rewrite Nat.sub_diag.
Qed.

Lemma nth_error_after (A : Type) (p : list A) (l : A) (r : list A)
    (k : nat) :
  k = length p -> nth_error (p ++ l :: r) (k + 1) = nth_error r 0.
Proof.
  intros ->. rewrite nth_error_app2 by lia.
  now replace (length p + 1 - length p) with 1 by lia.
Qed.

Lemma unchanged_rows_cons (k : nat) (l : str) (ls : list str) :
  unchanged_rows k (l :: ls)
  = Basic.entry Basic.unchanged l k :: unchanged_rows (S k) ls.
Proof. reflexivity. Qed.

Lemma app_cons_assoc (A : Type) (p : list A) (l : A) (r : list A) :
  p ++ l :: r = (p ++ [l]) ++ r.
Proof. now rewrite <- app_assoc. Qed.

Lemma length_snoc (A : Type) (p : list A) (l : A) :
  length (p ++ [l]) = length p + 1.
Proof. now rewrite length_app. Qed.

(** Cursors side by side on a common line: [unchanged]. *)
Lemma diff_turn_same (po pf : list str) (l : str) (ro rf : list str)
    (n : nat) :
  length po = length pf ->
  Basic.diff_loop (po ++ l :: ro) (pf ++ l :: rf) (S n) (length po)
    (length po)
  = Basic.entry Basic.unchanged l (length po + 1)
    :: Basic.diff_loop ((po ++ [l]) ++ ro) ((pf ++ [l]) ++ rf) n
         (length (po ++ [l])) (length (po ++ [l])).
Proof.
  intros E. cbn [Basic.diff_loop]. unfold Basic.diff_continues.
  replace (length po <? length (po ++ l :: ro)) with true
    by (symmetry; apply Nat.ltb_lt; rewrite length_app; simpl; lia).
  cbn [orb]. unfold Basic.diff_step, Basic.line_or_empty.
  rewrite (@nth_error_at _ po l ro _ eq_refl).
  rewrite (@nth_error_at _ pf l rf _ E).
  rewrite str_eqb_refl. cbn [app].
  now rewrite <- !app_cons_assoc, length_snoc.
Qed.

Lemma diff_tail_same (suf : list str) :
  forall po pf n,
    length po = length pf -> length suf <= n ->
    Basic.diff_loop (po ++ suf) (pf ++ suf) n (length po) (length po)
    = unchanged_rows (length po + 1) suf.
Proof.
  induction suf as [|l suf IH]; intros po pf n E H.
  - apply diff_loop_stops. unfold Basic.diff_continues.
    rewrite !app_nil_r, <- E, Nat.ltb_irrefl. reflexivity.
  - destruct n as [|n]; simpl in H; [lia|].
    rewrite (@diff_turn_same po pf l suf suf n E), unchanged_rows_cons.
    f_equal.
    rewrite IH by (rewrite ?length_snoc; lia).
    rewrite length_snoc. f_equal. lia.
Qed.

(** Cursors side by side on lines that differ, the next lines differing
    too: [unchanged], with the line of the original. *)
Lemma diff_turn_hidden (po pf : list str) (x y x' y' : str)
    (ro rf : list str) (n : nat) :
  length po = length pf -> x <> y -> x' <> y' ->
  Basic.diff_loop (po ++ x :: x' :: ro) (pf ++ y :: y' :: rf) (S n)
    (length po) (length po)
  = Basic.entry Basic.unchanged x (length po + 1)
    :: Basic.diff_loop ((po ++ [x]) ++ x' :: ro) ((pf ++ [y]) ++ y' :: rf) n
         (length (po ++ [x])) (length (po ++ [x])).
Proof.
  intros E Hxy Hn. cbn [Basic.diff_loop]. unfold Basic.diff_continues.
  replace (length po <? length (po ++ x :: x' :: ro)) with true
    by (symmetry; apply Nat.ltb_lt; rewrite length_app; simpl; lia).
  cbn [orb]. unfold Basic.diff_step, Basic.line_or_empty.
  rewrite (@nth_error_at _ po x (x' :: ro) _ eq_refl).
  rewrite (@nth_error_at _ pf y (y' :: rf) _ E).
  rewrite (@nth_error_after _ po x (x' :: ro) _ eq_refl).
  rewrite (@nth_error_after _ pf y (y' :: rf) _ E).
  rewrite (str_eqb_neq Hxy).
  replace (length (po ++ x :: x' :: ro) <=? length po) with false
    by (symmetry; apply Nat.leb_gt; rewrite length_app; simpl; lia).
  replace (length (pf ++ y :: y' :: rf) <=? length po) with false
    by (symmetry; apply Nat.leb_gt; rewrite length_app; simpl; lia).
  cbn [nth_error Basic.same_next]. rewrite (str_eqb_neq Hn). cbn [app].
  now rewrite <- !app_cons_assoc, length_snoc.
Qed.

(** Cursors side by side on lines that differ, the rest being common:
    [removed] and [added]. *)
Lemma diff_turn_changed (po pf : list str) (x y : str) (suf : list str)
    (n : nat) :
  length po = length pf -> x <> y ->
  Basic.diff_loop (po ++ x :: suf) (pf ++ y :: suf) (S n)
    (length po) (length po)
  = Basic.entry Basic.removed x (length po + 1)
    :: Basic.entry Basic.added y (length po + 1)
    :: Basic.diff_loop ((po ++ [x]) ++ suf) ((pf ++ [y]) ++ suf) n
         (length (po ++ [x])) (length (po ++ [x])).
Proof.
  intros E Hxy. cbn [Basic.diff_loop]. unfold Basic.diff_continues.
  replace (length po <? length (po ++ x :: suf)) with true
    by (symmetry; apply Nat.ltb_lt; rewrite length_app; simpl; lia).
  cbn [orb]. unfold Basic.diff_step, Basic.line_or_empty.
  rewrite (@nth_error_at _ po x suf _ eq_refl).
  rewrite (@nth_error_at _ pf y suf _ E).
  rewrite (@nth_error_after _ po x suf _ eq_refl).
  rewrite (@nth_error_after _ pf y suf _ E).
  rewrite (str_eqb_neq Hxy).
  replace (length (po ++ x :: suf) <=? length po) with false
    by (symmetry; apply Nat.leb_gt; rewrite length_app; simpl; lia).
  replace (length (pf ++ y :: suf) <=? length po) with false
    by (symmetry; apply Nat.leb_gt; rewrite length_app; simpl; lia).
  rewrite (proj2 (same_next_eq _ _) eq_refl). cbn [app].
  now rewrite <- !app_cons_assoc, length_snoc.
Qed.

Lemma diff_block (xs : list str) :
  forall ys po pf x y suf n,
    length po = length pf ->
    Forall2 (fun a b => a <> b) xs ys -> x <> y ->
    length xs + 1 + length suf <= n ->
    Basic.diff_loop (po ++ xs ++ x :: suf) (pf ++ ys ++ y :: suf) n
      (length po) (length po)
    = unchanged_rows (length po + 1) xs
      ++ [Basic.entry Basic.removed x (length po + length xs + 1);
          Basic.entry Basic.added y (length po + length xs + 1)]
      ++ unchanged_rows (length po + length xs + 2) suf.
Proof.
  induction xs as [|x1 xs IH]; intros ys po pf x y suf n E F Hxy H;
    inversion F as [|? y1 ? ys' H1 F' ]; subst; clear F.
  - destruct n as [|n]; simpl in H; [lia|]. cbn [app length].
    rewrite (@diff_turn_changed po pf x y suf n E Hxy).
    rewrite Nat.add_0_r. unfold unchanged_rows at 1. cbn [length seq combine map app].
    do 2 f_equal.
    rewrite diff_tail_same by (rewrite ?length_snoc; lia).
    rewrite length_snoc. f_equal. lia.
  - destruct n as [|n]; simpl in H; [lia|]. cbn [app].
    assert (Hn : exists x' y' ro rf,
               xs ++ x :: suf = x' :: ro /\ ys' ++ y :: suf = y' :: rf
               /\ x' <> y').
    { destruct F' as [|x2 y2 xs2 ys2 H2 F2].
      - exists x, y, suf, suf. repeat split; assumption.
      - exists x2, y2, (xs2 ++ x :: suf), (ys2 ++ y :: suf).
        repeat split; assumption. }
    destruct Hn as (x' & y' & ro & rf & Eo & Ef & Hn).
    rewrite Eo, Ef, (@diff_turn_hidden po pf x1 y1 x' y' ro rf n E H1 Hn),
      <- Eo, <- Ef.
    rewrite unchanged_rows_cons. cbn [app]. f_equal.
    rewrite (IH ys' (po ++ [x1]) (pf ++ [y1]) x y suf n)
      by (rewrite ?length_snoc; cbn [length] in *; auto; lia).
    rewrite length_snoc. cbn [length].
    replace (length po + 1 + length xs + 1)
      with (length po + S (length xs) + 1) by lia.
    replace (length po + 1 + length xs + 2)
      with (length po + S (length xs) + 2) by lia.
    replace (length po + 1 + 1) with (S (length po + 1)) by lia.
    reflexivity.
Qed.

Lemma diff_head_same (pre : list str) :
  forall p ro rf n,
    length pre <= n ->
    Basic.diff_loop (p ++ pre ++ ro) (p ++ pre ++ rf) n (length p)
      (length p)
    = unchanged_rows (length p + 1) pre
      ++ Basic.diff_loop (p ++ pre ++ ro) (p ++ pre ++ rf)
           (n - length pre) (length p + length pre)
           (length p + length pre).
Proof.
  induction pre as [|l pre IH]; intros p ro rf n H.
  - cbn [length unchanged_rows combine seq map app].
    now rewrite Nat.sub_0_r, Nat.add_0_r.
  - destruct n as [|n]; simpl in H; [lia|]. cbn [app].
    rewrite (@diff_turn_same p p l (pre ++ ro) (pre ++ rf) n eq_refl).
    rewrite unchanged_rows_cons. cbn [app]. f_equal.
    rewrite (IH (p ++ [l]) ro rf n) by lia.
    rewrite <- !app_cons_assoc, length_snoc. cbn [length Nat.sub].
    replace (length p + 1 + 1) with (S (length p + 1)) by lia.
    replace (length p + 1 + length pre) with (length p + S (length pre))
      by lia.
    reflexivity.
Qed.

(** X4. Two texts with a common start and a common end, between which a
    block of lines was rewritten line by line (as many lines, each one
    changed): the diff shows the common lines as [unchanged], the last
    line of the block as [removed] followed by [added], and every earlier
    line of the block as [unchanged] with its original content.  A single
    changed line is shown as [removed] then [added]. *)
Theorem generateDiff_changed_block (original fixed : str)
    (pre xs ys : list str) (x y : str) (suf : list str) :
  JS.split NL original = pre ++ xs ++ x :: suf ->
  JS.split NL fixed = pre ++ ys ++ y :: suf ->
  Forall2 (fun a b => a <> b) xs ys -> x <> y ->
  Basic.generateDiff original fixed
  = unchanged_rows 1 pre
    ++ unchanged_rows (length pre + 1) xs
    ++ [Basic.entry Basic.removed x (length pre + length xs + 1);
        Basic.entry Basic.added y (length pre + length xs + 1)]
    ++ unchanged_rows (length pre + length xs + 2) suf.
Proof.
  intros Eo Ef F Hxy. unfold Basic.generateDiff. rewrite Eo, Ef.
  pose proof (Forall2_length F) as EL.
  pose proof (@diff_head_same pre [] (xs ++ x :: suf) (ys ++ y :: suf)
                (length (pre ++ xs ++ x :: suf)
                 + length (pre ++ ys ++ y :: suf))) as K.
  cbn [app length Nat.add] in K. rewrite K by (rewrite length_app; lia).
  f_equal. apply diff_block; auto.
  repeat (rewrite length_app || cbn [length]). lia.
Qed.

Lemma generateDiff_changed_block_witness :
  Basic.generateDiff
    (lit "<p>" ++ [NL] ++ lit "<img>" ++ [NL] ++ lit "<a></a>" ++ [NL]
       ++ lit "</p>")
    (lit "<p>" ++ [NL] ++ lit "<img alt=''>" ++ [NL]
       ++ lit "<a aria-label='x'></a>" ++ [NL] ++ lit "</p>")
  = [Basic.entry Basic.unchanged (lit "<p>") 1;
     Basic.entry Basic.unchanged (lit "<img>") 2;
     Basic.entry Basic.removed (lit "<a></a>") 3;
     Basic.entry Basic.added (lit "<a aria-label='x'></a>") 3;
     Basic.entry Basic.unchanged (lit "</p>") 4].
Proof.
  apply (@generateDiff_changed_block
           (lit "<p>" ++ [NL] ++ lit "<img>" ++ [NL] ++ lit "<a></a>" ++ [NL]
              ++ lit "</p>")
           (lit "<p>" ++ [NL] ++ lit "<img alt=''>" ++ [NL]
              ++ lit "<a aria-label='x'></a>" ++ [NL] ++ lit "</p>")
           [lit "<p>"] [lit "<img>"] [lit "<img alt=''>"]
           (lit "<a></a>") (lit "<a aria-label='x'></a>") [lit "</p>"]).
  - vm_compute. reflexivity.
  - vm_compute. reflexivity.
  - constructor; [vm_compute; discriminate|constructor].
  - vm_compute. discriminate.
Defined.

(** ** The rules: what they record, and in which order *)

(** A replacer that pushes the records [h] of each match. *)
Lemma build_collect (A : Type) (cb : RegExp.result -> list A -> str * list A)
    (f : RegExp.result -> str) (h : RegExp.result -> list A) :
  (forall res st, cb res st = (f res, st ++ h res)) ->
  forall rs s next st,
    RegExp.build cb s next rs st = (splice f s next rs, st ++ flat_map h rs).
Proof.
  intros H rs; induction rs as [|res rs IH]; intros s next st; simpl.
  - now rewrite app_nil_r.
  - rewrite H. destruct (next <=? RegExp.index res); rewrite IH;
      now rewrite <- app_assoc.
Qed.

Lemma replace_collect (A : Type)
    (cb : RegExp.result -> list A -> str * list A)
    (f : RegExp.result -> str) (h : RegExp.result -> list A)
    (fl : flags) (r : regex) (s : str) (st : list A) :
  (forall res st', cb res st' = (f res, st' ++ h res)) ->
  RegExp.replace cb fl r s st
  = (splice f s 0 (RegExp.matchAll fl r s),
     st ++ flat_map h (RegExp.matchAll fl r s)).
Proof. intros H. unfold RegExp.replace. now apply build_collect. Qed.

Lemma flat_map_single (A B : Type) (g : A -> B) (l : list A) :
  flat_map (fun a => [g a]) l = map g l.
Proof. induction l as [|a l IH]; simpl; [reflexivity|now rewrite IH]. Qed.

Lemma flat_map_none (A B : Type) (l : list A) :
  flat_map (fun _ : A => @nil B) l = [].
Proof. induction l as [|a l IH]; simpl; auto. Qed.

Lemma see_a_collect (code : str) (res : RegExp.result)
    (st : list AccessibilityFix) :
  AI.see_a code res st = (RegExp.matched res, st ++ ai_a_records code res).
Proof.
  unfold AI.see_a, ai_a_records. destruct (JS.trim _); [reflexivity|].
  now rewrite app_nil_r.
Qed.

Lemma fix_a_collect (src : str) (res : RegExp.result)
    (st : list AccessibilityFix) :
  exists t, Basic.fix_a src res st = (t, st ++ basic_a_records src res).
Proof.
  unfold Basic.fix_a, basic_a_records. destruct (JS.trim _); eexists;
    [reflexivity|]. now rewrite app_nil_r.
Qed.

(** X5. The records of [performBasicAnalysis] are the matches of the five
    patterns in the text it is given, pattern after pattern and, for one
    pattern, from left to right: one record per image match, per button
    match and per clickable-div match, one per link match that has no
    text, and one per input match unless the label pattern is found, in
    which case there is none.  Each record carries the line on which its
    match starts. *)
Theorem performBasicAnalysis_records (code : str) :
  AI.performBasicAnalysis code
  = map (fun res => AI.img_fix code (RegExp.group 1 res) (RegExp.index res))
      (RegExp.matchAll gi AI.img_re code)
    ++ map (fun res => AI.button_fix code (RegExp.index res))
         (RegExp.matchAll gis AI.button_re code)
    ++ flat_map (ai_a_records code) (RegExp.matchAll gi AI.a_re code)
    ++ map (fun res => AI.div_fix code (RegExp.index res))
         (RegExp.matchAll gi AI.div_re code)
    ++ (if AI.hasAssociatedLabel code then []
        else map (fun res => AI.input_fix code (RegExp.index res))
               (RegExp.matchAll gi AI.input_re code)).
Proof.
  unfold AI.performBasicAnalysis, AI.detectors. cbn [fold_left].
  rewrite (@replace_collect _ (AI.see_img code) RegExp.matched
             (fun res => [AI.img_fix code (RegExp.group 1 res)
                            (RegExp.index res)]))
    by reflexivity.
  rewrite (@replace_collect _ (AI.see_button code) RegExp.matched
             (fun res => [AI.button_fix code (RegExp.index res)]))
    by reflexivity.
  rewrite (@replace_collect _ (AI.see_a code) RegExp.matched
             (ai_a_records code))
    by apply see_a_collect.
  rewrite (@replace_collect _ (AI.see_div code) RegExp.matched
             (fun res => [AI.div_fix code (RegExp.index res)]))
    by reflexivity.
  cbn [snd app]. rewrite !flat_map_single.
  destruct (AI.hasAssociatedLabel code) eqn:L.
  - rewrite (@replace_collect _ (AI.see_input code) RegExp.matched
               (fun _ => []))
      by (intros res st; unfold AI.see_input; rewrite L; cbn [negb];
          now rewrite app_nil_r).
    cbn [snd]. rewrite flat_map_none.
    now rewrite !app_nil_r, <- !app_assoc.
  - rewrite (@replace_collect _ (AI.see_input code) RegExp.matched
               (fun res => [AI.input_fix code (RegExp.index res)]))
      by (intros res st; unfold AI.see_input; now rewrite L).
    cbn [snd]. rewrite flat_map_single. now rewrite <- !app_assoc.
Qed.

Ltac collect_basic src :=
  rewrite ?(@replace_collect _ (Basic.fix_img src)
              (fun res => fst (Basic.fix_img src res []))
              (fun res => [Basic.img_fix src (RegExp.group 1 res)
                             (RegExp.index res)]))
    by reflexivity;
  rewrite ?(@replace_collect _ (Basic.fix_button src)
              (fun res => fst (Basic.fix_button src res []))
              (fun res => [Basic.button_fix src (RegExp.index res)]))
    by reflexivity;
  rewrite ?(@replace_collect _ (Basic.fix_a src)
              (fun res => fst (Basic.fix_a src res []))
              (basic_a_records src))
    by (intros res st'; unfold Basic.fix_a, basic_a_records;
        destruct (JS.trim _); cbn [fst];
        [reflexivity|now rewrite app_nil_r]);
  rewrite ?(@replace_collect _ (Basic.fix_div src)
              (fun res => fst (Basic.fix_div src res []))
              (fun res => [Basic.div_fix src (RegExp.index res)]))
    by reflexivity;
  rewrite ?(@replace_collect _ (Basic.fix_input src)
              (fun res => fst (Basic.fix_input src res []))
              (fun res => if negb (Basic.hasAssociatedLabel src)
                          then [Basic.input_fix src (RegExp.index res)]
                          else []))
    by (intros res st'; unfold Basic.fix_input;
        destruct (negb _); cbn [fst];
        [reflexivity|now rewrite app_nil_r]);
  cbn [fst snd app].

(** X6. The fix list of [fixAccessibility] is in the order of the rules,
    not of the text: the image records, one per match of the image pattern
    in the source text with the line on which the match starts; then one
    record per match of the button pattern in the text the image rule
    left; then the records of the link matches without text, of the
    clickable-div matches and of the input matches (none when the label
    pattern is found), each rule scanning the text the rules before it
    left and counting its lines in the source text. *)
Theorem fixAccessibility_records (src : str) :
  fixes (Basic.fixAccessibility src)
  = map (fun res =>
           Basic.img_fix src (RegExp.group 1 res) (RegExp.index res))
      (RegExp.matchAll gi Basic.img_re src)
    ++ map (fun res => Basic.button_fix src (RegExp.index res))
         (RegExp.matchAll gis Basic.button_re (stage_text src 1))
    ++ flat_map (basic_a_records src)
         (RegExp.matchAll gi Basic.a_re (stage_text src 2))
    ++ map (fun res => Basic.div_fix src (RegExp.index res))
         (RegExp.matchAll gi Basic.div_re (stage_text src 3))
    ++ (if Basic.hasAssociatedLabel src then []
        else map (fun res => Basic.input_fix src (RegExp.index res))
               (RegExp.matchAll gi Basic.input_re (stage_text src 4))).
Proof.
  unfold Basic.fixAccessibility, stage_text, Basic.run_rules, Basic.rules,
    Basic.run_rule.
  cbn [firstn fold_left fst snd]. collect_basic src.
  rewrite !flat_map_single.
  destruct (Basic.hasAssociatedLabel src); cbn [negb].
  - rewrite flat_map_none. now rewrite <- !app_assoc.
  - rewrite flat_map_single. now rewrite <- !app_assoc.
Qed.

(** ** Line numbers *)

Lemma counted_at_intro (src scanned : str) (fl : flags) (re : regex)
    (res : RegExp.result) (f : AccessibilityFix) :
  In res (RegExp.matchAll fl re scanned) ->
  line f = Some (getLineNumber src (RegExp.index res)) ->
  counted_at src fl re scanned f.
Proof.
  intros Hin E. exists res. rewrite <- getLineNumber_newlines.
  repeat split; auto; apply getLineNumber_bounds.
Qed.

Lemma Forall_map_in (A B : Type) (P : B -> Prop) (g : A -> B) (l : list A) :
  (forall a, In a l -> P (g a)) -> Forall P (map g l).
Proof.
  intros H. apply Forall_forall. intros b Hb.
  apply in_map_iff in Hb. destruct Hb as (a & <- & Ha). now apply H.
Qed.

Lemma Forall_flat_map_in (A B : Type) (P : B -> Prop) (g : A -> list B)
    (l : list A) :
  (forall a, In a l -> Forall P (g a)) -> Forall P (flat_map g l).
Proof.
  intros H. apply Forall_forall. intros b Hb.
  apply in_flat_map in Hb. destruct Hb as (a & Ha & Hb).
  exact (proj1 (Forall_forall _ _) (H a Ha) b Hb).
Qed.

(** The advisory records are appended to the ones of the five rules. *)
Lemma enhance_Forall (P : AccessibilityFix -> Prop) (src : str)
    (basicFixes : list AccessibilityFix) :
  (forall f, line f = None -> P f) ->
  Forall P basicFixes ->
  Forall P (AI.enhanceWithAIAnalysis src basicFixes).
Proof.
  intros N H. unfold AI.enhanceWithAIAnalysis.
  repeat match goal with
         | |- context [if ?b then _ else _] => destruct b
         end;
    repeat (apply Forall_snoc; [|now apply N]); exact H.
Qed.

(** The records of [fixAccessibility], rule by rule: each rule pushes the
    records of the matches of its pattern in the text it scans. *)
Lemma basic_fixes_by_rule (src : str) :
  fixes (Basic.fixAccessibility src)
  = map (fun res =>
           Basic.img_fix src (RegExp.group 1 res) (RegExp.index res))
      (RegExp.matchAll gi Basic.img_re (stage_text src 0))
    ++ map (fun res => Basic.button_fix src (RegExp.index res))
         (RegExp.matchAll gis Basic.button_re (stage_text src 1))
    ++ flat_map (basic_a_records src)
         (RegExp.matchAll gi Basic.a_re (stage_text src 2))
    ++ map (fun res => Basic.div_fix src (RegExp.index res))
         (RegExp.matchAll gi Basic.div_re (stage_text src 3))
    ++ flat_map
         (fun res =>
            if negb (Basic.hasAssociatedLabel src)
            then [Basic.input_fix src (RegExp.index res)]
            else [])
         (RegExp.matchAll gi Basic.input_re (stage_text src 4)).
Proof.
  unfold Basic.fixAccessibility, stage_text, Basic.run_rules,
    Basic.rules, Basic.run_rule.
  cbn [firstn fold_left fst snd]. collect_basic src.
  rewrite !flat_map_single. now rewrite <- !app_assoc.
Qed.

(** The records of [performBasicAnalysis], detector by detector. *)
Lemma ai_fixes_by_rule (src : str) :
  AI.performBasicAnalysis src
  = map (fun res =>
           AI.img_fix src (RegExp.group 1 res) (RegExp.index res))
      (RegExp.matchAll gi AI.img_re src)
    ++ map (fun res => AI.button_fix src (RegExp.index res))
         (RegExp.matchAll gis AI.button_re src)
    ++ flat_map (ai_a_records src) (RegExp.matchAll gi AI.a_re src)
    ++ map (fun res => AI.div_fix src (RegExp.index res))
         (RegExp.matchAll gi AI.div_re src)
    ++ flat_map
         (fun res =>
            if negb (AI.hasAssociatedLabel src)
            then [AI.input_fix src (RegExp.index res)]
            else [])
         (RegExp.matchAll gi AI.input_re src).
Proof.
  unfold AI.performBasicAnalysis, AI.detectors. cbn [fold_left].
  rewrite (@replace_collect _ (AI.see_img src) RegExp.matched
             (fun res => [AI.img_fix src (RegExp.group 1 res)
                            (RegExp.index res)]))
    by reflexivity.
  rewrite (@replace_collect _ (AI.see_button src) RegExp.matched
             (fun res => [AI.button_fix src (RegExp.index res)]))
    by reflexivity.
  rewrite (@replace_collect _ (AI.see_a src) RegExp.matched
             (ai_a_records src))
    by apply see_a_collect.
  rewrite (@replace_collect _ (AI.see_div src) RegExp.matched
             (fun res => [AI.div_fix src (RegExp.index res)]))
    by reflexivity.
  rewrite (@replace_collect _ (AI.see_input src) RegExp.matched
             (fun res =>
                if negb (AI.hasAssociatedLabel src)
                then [AI.input_fix src (RegExp.index res)]
                else []))
    by (intros res st; unfold AI.see_input; destruct (negb _);
        [reflexivity|now rewrite app_nil_r]).
  cbn [snd app]. rewrite !flat_map_single.
  now rewrite <- !app_assoc.
Qed.

(** C6. Every fix record that carries a line has it between 1 and the
    number of lines of the original text (so below the line count plus
    one), and the line is the number of line breaks of the original text
    up to the offset of the match the record was pushed for, plus one.
    In [fixAccessibility] the match is one of the pattern of a rule in
    the text that rule scans, which for the first rule is the original
    text and for the later rules the text the rules before left; every
    record has a line.  In the AI service every record of the five rules
    comes from a match in the original text, and the advisory records
    have no line. *)
Theorem line_bounds (src : str) :
  Forall (fun f =>
            exists k fl re cb,
              nth_error (Basic.rules src) k = Some (fl, re, cb)
              /\ counted_at src fl re (stage_text src k) f)
    (fixes (Basic.fixAccessibility src))
  /\ stage_text src 0 = src
  /\ Forall (fun f =>
               line f = None
               \/ exists fl re cb,
                    In (fl, re, cb) (AI.detectors src)
                    /\ counted_at src fl re src f)
       (fixes (AI.fixAccessibilityWithAI src)).
Proof.
  split; [|split; [reflexivity|]].
  - rewrite basic_fixes_by_rule. repeat (apply Forall_app; split).
    + apply Forall_map_in. intros res Hin.
      exists 0, gi, Basic.img_re, (Basic.fix_img src).
      split; [reflexivity|].
      now apply (@counted_at_intro src _ gi Basic.img_re res).
    + apply Forall_map_in. intros res Hin.
      exists 1, gis, Basic.button_re, (Basic.fix_button src).
      split; [reflexivity|].
      now apply (@counted_at_intro src _ gis Basic.button_re res).
    + apply Forall_flat_map_in. intros res Hin. unfold basic_a_records.
      destruct (JS.trim _); constructor; [|constructor].
      exists 2, gi, Basic.a_re, (Basic.fix_a src).
      split; [reflexivity|].
      now apply (@counted_at_intro src _ gi Basic.a_re res).
    + apply Forall_map_in. intros res Hin.
      exists 3, gi, Basic.div_re, (Basic.fix_div src).
      split; [reflexivity|].
      now apply (@counted_at_intro src _ gi Basic.div_re res).
    + apply Forall_flat_map_in. intros res Hin.
      destruct (negb _); constructor; [|constructor].
      exists 4, gi, Basic.input_re, (Basic.fix_input src).
      split; [reflexivity|].
      now apply (@counted_at_intro src _ gi Basic.input_re res).
  - change (fixes (AI.fixAccessibilityWithAI src))
      with (AI.enhanceWithAIAnalysis src (AI.performBasicAnalysis src)).
    apply enhance_Forall; [intros f N; now left|].
    rewrite ai_fixes_by_rule. repeat (apply Forall_app; split).
    + apply Forall_map_in. intros res Hin. right.
      exists gi, AI.img_re, (AI.see_img src).
      split; [cbn; tauto|].
      now apply (@counted_at_intro src _ gi AI.img_re res).
    + apply Forall_map_in. intros res Hin. right.
      exists gis, AI.button_re, (AI.see_button src).
      split; [cbn; tauto|].
      now apply (@counted_at_intro src _ gis AI.button_re res).
    + apply Forall_flat_map_in. intros res Hin. unfold ai_a_records.
      destruct (JS.trim _); constructor; [|constructor]. right.
      exists gi, AI.a_re, (AI.see_a src).
      split; [cbn; tauto|].
      now apply (@counted_at_intro src _ gi AI.a_re res).
    + apply Forall_map_in. intros res Hin. right.
      exists gi, AI.div_re, (AI.see_div src).
      split; [cbn; tauto|].
      now apply (@counted_at_intro src _ gi AI.div_re res).
    + apply Forall_flat_map_in. intros res Hin.
      destruct (negb _); constructor; [|constructor]. right.
      exists gi, AI.input_re, (AI.see_input src).
      split; [cbn; tauto|].
      now apply (@counted_at_intro src _ gi AI.input_re res).
Qed.

(** On [link_after_img] the link starts at offset 17 of the original
    text, on its first line.  The link rule finds it at offset 24 of the
    text the image rule left, and 24 code units of the original text hold
    the line break: the record has line 2.  The AI service, which looks
    for every pattern in the original text, reports line 1. *)
Lemma line_bounds_witness :
  Forall (fun f =>
            exists k fl re cb,
              nth_error (Basic.rules link_after_img) k = Some (fl, re, cb)
              /\ counted_at link_after_img fl re
                   (stage_text link_after_img k) f)
    (fixes (Basic.fixAccessibility link_after_img))
  /\ map RegExp.index (RegExp.matchAll gi Basic.a_re link_after_img) = [17]
  /\ map RegExp.index
       (RegExp.matchAll gi Basic.a_re (stage_text link_after_img 2)) = [24]
  /\ newlines (firstn 17 link_after_img) + 1 = 1
  /\ newlines (firstn 24 link_after_img) + 1 = 2
  /\ map (fun f => (category f, line f))
       (fixes (Basic.fixAccessibility link_after_img))
     = [(Images, Some 1); (Navigation, Some 2)]
  /\ map (fun f => (category f, line f))
       (AI.performBasicAnalysis link_after_img)
     = [(Images, Some 1); (Navigation, Some 1)].
Proof.
  split; [apply (proj1 (line_bounds link_after_img))|].
  repeat split; vm_compute; reflexivity.
Defined.

(** ** A button that has aria-labelledby *)

Lemma replace_first_head (mt p r : str) :
  JS.starts_with p mt = true ->
  JS.replace_first mt p r = r ++ skipn (length p) mt.
Proof. destruct mt; cbn [JS.replace_first]; intros ->; reflexivity. Qed.

(** A replacer that leaves the state alone and writes [f] of each of the
    matches found. *)
Lemma build_keep_on (St : Type) (cb : RegExp.result -> St -> str * St)
    (f : RegExp.result -> str) :
  forall rs s next st,
    Forall (fun res => forall st', cb res st' = (f res, st')) rs ->
    RegExp.build cb s next rs st = (splice f s next rs, st).
Proof.
  intros rs; induction rs as [|res rs IH]; intros s next st H; simpl;
    [reflexivity|].
  inversion H as [|? ? Hres Hrs]; subst. rewrite Hres.
  destruct (next <=? RegExp.index res); now rewrite (IH _ _ _ Hrs).
Qed.

(** C5, as amended. In any text the button pattern of the AI service runs
    over, no match starts at a [<button] whose attribute text, free of
    [>] up to there, holds [aria-labelledby=] after a code unit that is
    not a word character.  The button records of [performBasicAnalysis]
    are the records of the matches, one each, so none is made for that
    button.  Where every match starts with the tag name in lower case,
    the button pass of [applyFixes] puts in the place of each match the
    match itself with the aria-label inserted after its [<button]: the
    attribute is inserted after the tag name of the buttons where a match
    starts, and none after the tag name of the button that has
    aria-labelledby.  Such a button alone comes back unchanged, with no
    fix record.  [fixAccessibility], whose pattern looks for
    [aria-label=] only, rewrites it and records one fix, of category
    InteractiveElements. *)
Theorem button_labelledby_skipped (pre a : str) (c : char) (w t : str) :
  Forall (fun d => d <> 62%N) (a ++ [c]) ->
  JS.is_word c = false ->
  Forall (fun d => JS.is_space d = true) w ->
  let s := pre ++ lit "<button" ++ (a ++ [c]) ++ lit "aria-labelledby" ++ w
             ++ lit "=" ++ t in
  let found := RegExp.matchAll gis AI.button_re s in
  Forall (fun res => RegExp.index res <> length pre) found
  /\ (exists before after,
        AI.performBasicAnalysis s
        = before
          ++ map (fun res => AI.button_fix s (RegExp.index res)) found
          ++ after
        /\ Forall (fun f => selector f <> lit "button > svg")
             (before ++ after))
  /\ (Forall (fun res =>
                JS.starts_with (lit "<button") (RegExp.matched res) = true)
        found ->
      fst (RegExp.replace AI.patch_button gis AI.button_re s tt)
      = splice (fun res =>
                  lit "<button aria-label=" ++ DQ ++ lit "Button action"
                    ++ DQ ++ skipn 7 (RegExp.matched res))
          s 0 found)
  /\ code (AI.fixAccessibilityWithAI labelledby_scenario)
     = labelledby_scenario
  /\ fixes (AI.fixAccessibilityWithAI labelledby_scenario) = []
  /\ code (Basic.fixAccessibility labelledby_scenario)
     = lit "<button aria-label=" ++ DQ ++ lit "Button" ++ DQ
         ++ lit " aria-labelledby='t'><svg></svg></button>"
  /\ map category (fixes (Basic.fixAccessibility labelledby_scenario))
     = [InteractiveElements].
Proof.
  intros Ha Hc Hw s found.
  split; [|split; [|split; [|repeat split; vm_compute; reflexivity]]].
  - apply Forall_forall. intros res Hin Hidx.
    destruct (@scan_In_match _ _ _ [] 0 None 0 res eq_refl Hin)
      as (pv' & y & E).
    cbn [app] in E. unfold s in E.
    rewrite Hidx, skipn_app, skipn_all, Nat.sub_diag in E.
    change (RegExp.match_at gis AI.button_re (length pre) pv'
              (lit "<button" ++ (a ++ [c]) ++ lit "aria-labelledby" ++ w
                 ++ lit "=" ++ t) = Some y) in E.
    rewrite (@button_re_labelledby (length pre) pv' a c w t Ha Hc Hw) in E.
    discriminate.
  - rewrite ai_fixes_by_rule. eexists. eexists. split; [reflexivity|].
    repeat (apply Forall_app; split).
    + apply Forall_map_in. intros res _. unfold AI.img_fix, AI.mkfix.
      cbn [selector]. destruct (JS.includes _ _); discriminate.
    + apply Forall_flat_map_in. intros res _. unfold ai_a_records.
      destruct (JS.trim _); constructor; [discriminate|constructor].
    + apply Forall_map_in. intros res _. discriminate.
    + apply Forall_flat_map_in. intros res _.
      destruct (negb _); constructor; [discriminate|constructor].
  - intros LC. unfold RegExp.replace. fold found.
    rewrite (@build_keep_on unit AI.patch_button
               (fun res =>
                  lit "<button aria-label=" ++ DQ ++ lit "Button action"
                    ++ DQ ++ skipn 7 (RegExp.matched res)));
      [reflexivity|].
    revert LC. apply Forall_impl. intros res H st'. unfold AI.patch_button.
    rewrite (@replace_first_head _ _ _ H).
    now rewrite <- !app_assoc.
Qed.

(** An instance: the button that has aria-labelledby is followed by an
    icon-only button without a name; the pattern matches the second one
    alone, and the pass rewrites the second one alone. *)
Lemma button_labelledby_skipped_witness :
  let s := lit "<div>" ++ lit "<button" ++ (lit " id='b'" ++ [32%N])
             ++ lit "aria-labelledby" ++ [] ++ lit "="
             ++ lit "'t'><svg></svg></button><button><svg></svg></button></div>"
  in
  Forall (fun res => RegExp.index res <> 5)
    (RegExp.matchAll gis AI.button_re s)
  /\ map RegExp.index (RegExp.matchAll gis AI.button_re s) = [60]
  /\ fst (RegExp.replace AI.patch_button gis AI.button_re s tt)
     = lit "<div><button id='b' aria-labelledby='t'><svg></svg></button>"
         ++ lit "<button aria-label=" ++ DQ ++ lit "Button action" ++ DQ
         ++ lit "><svg></svg></button></div>"
  /\ map (fun f => (selector f, line f)) (AI.performBasicAnalysis s)
     = [(lit "button > svg", Some 1)].
Proof.
  cbv zeta.
  destruct (@button_labelledby_skipped (lit "<div>") (lit " id='b'") 32%N []
              (lit "'t'><svg></svg></button><button><svg></svg></button></div>"))
    as (A & _ & C & _).
  - repeat constructor; discriminate.
  - reflexivity.
  - constructor.
  - split; [exact A|]. split; [vm_compute; reflexivity|].
    split; [|vm_compute; reflexivity].
    etransitivity; [apply C|vm_compute; reflexivity].
    apply Forall_forall.
    apply (proj1 (forallb_forall
                    (fun res =>
                       JS.starts_with (lit "<button") (RegExp.matched res))
                    _)).
    vm_compute. reflexivity.
Defined.

(** ** Texts without a tag *)

Lemma firstn_In (A : Type) (n : nat) (l : list A) (a : A) :
  In a (firstn n l) -> In a l.
Proof.
  revert n; induction l as [|b l IH]; intros [|n]; simpl; try tauto.
  intros [H|H]; [now left|right; eauto].
Qed.

(** A pattern that must hold [c] matches nowhere in a text without
    [c]. *)
Lemma test_without (fl : flags) (c : char) (r : regex) (s : str) :
  caseless c = true -> must_have c r = true -> ~ In c s ->
  RegExp.test fl r s = false.
Proof.
  intros Hc Hm. unfold RegExp.test, RegExp.exec.
  generalize 0 as p. generalize (@None char) as pv.
  induction s as [|d s IH]; intros pv p H; simpl.
  - destruct (RegExp.match_at fl r p pv []) as [y|] eqn:E; [|reflexivity].
    apply (@match_at_must_have fl c r p pv [] y Hc Hm) in E. simpl in E.
    now rewrite firstn_nil in E.
  - destruct (RegExp.match_at fl r p pv (d :: s)) as [y|] eqn:E.
    + apply (@match_at_must_have fl c r p pv (d :: s) y Hc Hm) in E.
      apply firstn_In in E. contradiction.
    + apply IH. intros K. apply H. now right.
Qed.

Lemma ai_no_match (code : str) :
  no_ai_pattern_matches code ->
  AI.performBasicAnalysis code = [] /\ AI.applyFixes code [] = JS.trim code.
Proof.
  unfold no_ai_pattern_matches, AI.detectors. intros H.
  repeat match goal with
         | K : Forall _ (_ :: _) |- _ =>
             let a := fresh "T" in
             inversion K as [|? ? a ?]; subst; clear K; cbn [fst snd] in a
         end.
  split.
  - unfold AI.performBasicAnalysis, AI.detectors. cbn [fold_left].
    rewrite (@replace_none _ (AI.see_img code) _ _ _ [] T). cbn [snd].
    rewrite (@replace_none _ (AI.see_button code) _ _ _ [] T0). cbn [snd].
    rewrite (@replace_none _ (AI.see_a code) _ _ _ [] T1). cbn [snd].
    rewrite (@replace_none _ (AI.see_div code) _ _ _ [] T2). cbn [snd].
    now rewrite (@replace_none _ (AI.see_input code) _ _ _ [] T3).
  - unfold AI.applyFixes, AI.patches. cbn [fold_left].
    rewrite (@replace_none _ (AI.patch_img) _ _ _ tt T). cbn [fst].
    rewrite (@replace_none _ (AI.patch_button) _ _ _ tt T0). cbn [fst].
    rewrite (@replace_none _ (AI.patch_a) _ _ _ tt T1). cbn [fst].
    rewrite (@replace_none _ (AI.patch_div) _ _ _ tt T2). cbn [fst].
    now rewrite (@replace_none _ (AI.patch_input code) _ _ _ tt T3).
Qed.

(** X7. A text that holds no [<] is left alone by both engines:
    [fixAccessibility] and the five rules of the AI service return it
    trimmed, with no fix record; in particular the empty text gives the
    empty text. *)
Theorem no_tag_no_fix (src : str) :
  ~ In LT src ->
  Basic.fixAccessibility src
  = {| code := JS.trim src; fixes := []; hasChanges := false |}
  /\ AI.fallback src
     = {| code := JS.trim src; fixes := []; hasChanges := false |}.
Proof.
  intros H. split.
  - assert (N : no_pattern_matches src).
    { unfold no_pattern_matches, Basic.rules.
      repeat constructor; cbn [fst snd];
        apply (@test_without _ LT); auto. }
    destruct (fix_no_match N) as (F & C & T).
    destruct (Basic.fixAccessibility src) as [c fs h]. cbn in *.
    now subst.
  - assert (N : no_ai_pattern_matches src).
    { unfold no_ai_pattern_matches, AI.detectors.
      repeat constructor; cbn [fst snd];
        apply (@test_without _ LT); auto. }
    destruct (ai_no_match N) as [P A]. unfold AI.fallback.
    rewrite P. unfold AI.applyFixes in *. now rewrite A.
Qed.

Lemma no_tag_no_fix_witness :
  Basic.fixAccessibility (lit "  plain text, 2 > 1 ")
  = {| code := lit "plain text, 2 > 1"; fixes := []; hasChanges := false |}.
Proof.
  apply (proj1 (@no_tag_no_fix (lit "  plain text, 2 > 1 ")
                  ltac:(vm_compute; intuition discriminate))).
Defined.

(** ** The advisory pass of the AI service *)

Lemma enhance_advisory (text : str) :
  Forall advisory (AI.enhanceWithAIAnalysis text []).
Proof.
  unfold AI.enhanceWithAIAnalysis.
  repeat match goal with
         | |- context [if ?b then _ else _] => destruct b
         end;
    cbn [app];
    repeat (apply Forall_cons; [unfold advisory; cbn; tauto|]);
    apply Forall_nil.
Qed.

(** X8. [enhanceWithAIAnalysis] only appends: the records it is given come
    back first and unchanged, followed by at most four advisory records
    that depend on the text alone, have no line and are of category
    Semantics, ARIA or KeyboardNavigation. *)
Theorem enhance_appends (text : str) (basicFixes : list AccessibilityFix) :
  AI.enhanceWithAIAnalysis text basicFixes
  = basicFixes ++ AI.enhanceWithAIAnalysis text []
  /\ length (AI.enhanceWithAIAnalysis text []) <= 4
  /\ Forall advisory (AI.enhanceWithAIAnalysis text []).
Proof.
  split; [|split; [|apply enhance_advisory]].
  - unfold AI.enhanceWithAIAnalysis.
    repeat match goal with
           | |- context [if ?b then _ else _] => destruct b
           end;
      cbn [app]; rewrite <- ?app_assoc, ?app_nil_r; reflexivity.
  - unfold AI.enhanceWithAIAnalysis.
    repeat match goal with
           | |- context [if ?b then _ else _] => destruct b
           end;
      cbn [app length]; lia.
Qed.

Lemma enhance_color (text : str) :
  JS.includes text (lit "color:") = true ->
  0 < length (AI.enhanceWithAIAnalysis text []).
Proof.
  intros H. unfold AI.enhanceWithAIAnalysis. rewrite H. cbn [orb].
  repeat match goal with
         | |- context [if ?b then _ else _] => destruct b
         end;
    rewrite ?length_app; cbn [length]; lia.
Qed.

(** X9. When no pattern of the five rules matches, the AI path returns the
    text trimmed, and its fix list holds advisory records only; if the
    text holds [color:], there is such a record, so that [hasChanges] is
    true although the code was not rewritten. *)
Theorem advisory_only_changes (text : str) :
  no_ai_pattern_matches text ->
  code (AI.fixAccessibilityWithAI text) = JS.trim text
  /\ Forall advisory (fixes (AI.fixAccessibilityWithAI text))
  /\ (JS.includes text (lit "color:") = true ->
      hasChanges (AI.fixAccessibilityWithAI text) = true).
Proof.
  intros N. destruct (ai_no_match N) as [P A].
  unfold AI.fixAccessibilityWithAI. rewrite P. cbn [code fixes hasChanges].
  split; [exact A|]. split; [apply enhance_advisory|].
  intros H. apply Nat.ltb_lt. now apply enhance_color.
Qed.

Lemma advisory_only_changes_witness :
  code (AI.fixAccessibilityWithAI (lit "<p style='color: red'>Hi</p>"))
  = lit "<p style='color: red'>Hi</p>"
  /\ hasChanges (AI.fixAccessibilityWithAI
                   (lit "<p style='color: red'>Hi</p>")) = true.
Proof.
  destruct (@advisory_only_changes (lit "<p style='color: red'>Hi</p>"))
    as (C & _ & H).
  - unfold no_ai_pattern_matches, AI.detectors.
    repeat constructor; vm_compute; reflexivity.
  - split; [rewrite C; vm_compute; reflexivity|].
    apply H. vm_compute. reflexivity.
Defined.

(** ** The shape of the matches of a rule *)

Lemma den_literal (fl : flags) (w : str) :
  forall x y,
    den fl (cat (map Chr w)) x y ->
    exists w', reaches x w' y /\ spells fl w w' /\ caps y = caps x.
Proof.
  induction w as [|p w IH]; intros x y H; simpl in H.
  - subst. exists []. repeat split; [simpl; lia|constructor].
  - destruct H as (z & (c & t & R & O & ->) & H).
    destruct (IH _ _ H) as (w' & [R' P'] & S' & C').
    exists (c :: w'). repeat split.
    + simpl in R'. now rewrite R, R'.
    + simpl in P'. simpl. lia.
    + now constructor.
    + exact C'.
Qed.

Lemma den_run (ok : char -> bool) (x y : mstate) :
  iter (den_one ok) x y ->
  exists u, reaches x u y /\ forallb ok u = true /\ caps y = caps x.
Proof.
  induction 1 as [x|x z y (c & t & R & O & ->) _ (u & [R' P'] & F & C)].
  - exists []. repeat split. simpl. lia.
  - exists (c :: u). repeat split.
    + simpl in R'. now rewrite R, R'.
    + simpl in P'. simpl. lia.
    + simpl. now rewrite O, F.
    + exact C.
Qed.

Lemma den_caps (fl : flags) (r : regex) :
  no_group r = true -> forall x y, den fl r x y -> caps y = caps x.
Proof.
  induction r as [|p|negated items| |a IHa b IHb|a IHa b IHb|greedy a IHa
                 |n a IHa|a IHa|]; intros N x y H; simpl in N, H;
    try discriminate.
  - now subst.
  - now destruct H as (c & t & _ & _ & ->).
  - now destruct H as (c & t & _ & _ & ->).
  - now destruct H as (c & t & _ & _ & ->).
  - apply andb_true_iff in N. destruct N as [Na Nb].
    destruct H as (z & Ha & Hb).
    now rewrite (IHb Nb _ _ Hb), (IHa Na _ _ Ha).
  - apply andb_true_iff in N. destruct N as [Na Nb].
    destruct H as [H|H]; [now apply IHa|now apply IHb].
  - induction H as [x|x z y Hxz _ IH]; [reflexivity|].
    now rewrite IH, (IHa N _ _ Hxz).
  - now destruct H as [-> _].
  - now destruct H as [-> _].
Qed.

Lemma forallb_not_gt_inv (u : str) :
  forallb (RegExp.cls_has true [CChar 62%N]) u = true ->
  Forall (fun d => d <> 62%N) u.
Proof.
  induction u as [|d u IH]; simpl; [constructor|].
  rewrite andb_true_iff. intros [H K]. constructor; [|now apply IH].
  intros ->. discriminate.
Qed.

(** A match of a tag pattern at position [p] of [s]: the text of the tag
    as [w] spells it, the attribute text [u], free of [>] and captured as
    group 1, and the text [v] of the rest of the pattern. *)
Lemma tag_shape (fl : flags) (w : str) (B R : regex) (p : nat)
    (pv : option char) (s : str) (y : mstate) :
  no_group R = true ->
  RegExp.match_at fl (tag_pattern w B R) p pv s = Some y ->
  exists w' u v z,
    RegExp.matched (RegExp.mk_result p s y) = w' ++ u ++ v
    /\ RegExp.group 1 (RegExp.mk_result p s y) = u
    /\ spells fl w w'
    /\ Forall (fun d => d <> 62%N) u
    /\ den fl R z y /\ reaches z v y.
Proof.
  intros N H. unfold RegExp.match_at in H.
  destruct (m_sound _ _ _ _ H) as (y' & D & E). injection E as ->.
  unfold tag_pattern in D. cbn [den] in D.
  destruct D as (z1 & D1 & z2 & [-> _] & z3 & (z & Dg & ->) & DR).
  destruct (den_literal _ _ _ _ D1) as (w' & [R1 P1] & S1 & _).
  destruct (den_run Dg) as (u & [R2 P2] & F2 & _).
  destruct (den_reaches _ _ _ _ DR) as (v & [R3 P3]).
  exists w', u, v,
    (RegExp.set_cap 1 (firstn (pos z - pos z1) (rest z1)) z).
  cbn [RegExp.start rest pos RegExp.set_cap] in *.
  repeat split; auto.
  - cbn. rewrite R1, R2, R3, P3, P2, P1.
    replace (p + length w' + length u + length v - p)
      with (length (w' ++ u ++ v) + 0)
      by (rewrite !length_app; lia).
    rewrite !app_assoc. rewrite <- (app_assoc w' u v).
    rewrite firstn_app_2. cbn. now rewrite app_nil_r.
  - unfold RegExp.group. cbn [RegExp.mk_result RegExp.groups].
    rewrite (@den_caps fl R N _ _ DR). cbn.
    rewrite R2, P2.
    replace (pos z1 + length u - pos z1) with (length u + 0) by lia.
    rewrite firstn_app_2. cbn. now rewrite app_nil_r.
  - now apply forallb_not_gt_inv.
Qed.

(** ** The rules add no line break *)

Lemma newlines_app (a b : str) : newlines (a ++ b) = newlines a + newlines b.
Proof. unfold newlines. now rewrite filter_app, length_app. Qed.

Lemma newlines_rev (a : str) : newlines (rev a) = newlines a.
Proof.
  induction a as [|c a IH]; [reflexivity|].
  cbn [rev]. rewrite newlines_app, IH.
  change (c :: a) with ([c] ++ a). rewrite newlines_app. lia.
Qed.

Lemma newlines_drop_space (a : str) :
  newlines (JS.drop_space a) <= newlines a.
Proof.
  induction a as [|c a IH]; simpl; [lia|].
  destruct (JS.is_space c); [|lia].
  change (c :: a) with ([c] ++ a). rewrite newlines_app. lia.
Qed.

Lemma newlines_trim (a : str) : newlines (JS.trim a) <= newlines a.
Proof.
  unfold JS.trim. rewrite newlines_rev.
  etransitivity; [apply newlines_drop_space|].
  rewrite newlines_rev. apply newlines_drop_space.
Qed.

Lemma chr_eq_newline (fl : flags) (p c : char) :
  RegExp.chr_eq fl p c = true -> (c =? NL)%N = (p =? NL)%N.
Proof.
  unfold RegExp.chr_eq, JS.canonicalize, NL.
  destruct (ignoreCase fl).
  - destruct ((97 <=? p) && (p <=? 122))%N eqn:Hp;
      destruct ((97 <=? c) && (c <=? 122))%N eqn:Hc;
      rewrite ?andb_true_iff, ?andb_false_iff, ?N.leb_le, ?N.leb_gt in *;
      rewrite N.eqb_eq; intros E;
      destruct (N.eqb_spec c 10), (N.eqb_spec p 10); try reflexivity; lia.
  - rewrite N.eqb_eq. now intros ->.
Qed.

Lemma spells_newlines (fl : flags) (w w' : str) :
  spells fl w w' -> newlines w' = newlines w.
Proof.
  unfold newlines. induction 1 as [|p c w w' H _ IH]; [reflexivity|].
  simpl. rewrite (@chr_eq_newline fl p c H).
  destruct (p =? NL)%N; simpl; now rewrite IH.
Qed.

Lemma starts_with_skipn (p s : str) :
  JS.starts_with p s = true -> s = p ++ skipn (length p) s.
Proof.
  intros H. apply starts_with_iff in H. destruct H as [t ->].
  now rewrite skipn_app, skipn_all, Nat.sub_diag.
Qed.

Lemma newlines_replace_first (s p r : str) :
  newlines r = newlines p ->
  newlines (JS.replace_first s p r) = newlines s.
Proof.
  intros E. induction s as [|c s IH].
  - simpl. destruct (JS.starts_with p []) eqn:H; [|reflexivity].
    destruct p; [|discriminate]. simpl. rewrite app_nil_r. exact E.
  - cbn [JS.replace_first].
    destruct (JS.starts_with p (c :: s)) eqn:H.
    + rewrite (@starts_with_skipn p (c :: s) H) at 2.
      rewrite !newlines_app. lia.
    + change (c :: JS.replace_first s p r)
        with ([c] ++ JS.replace_first s p r).
      change (c :: s) with ([c] ++ s).
      now rewrite !newlines_app, IH.
Qed.

Lemma newlines_splice (f : RegExp.result -> str) (s : str)
    (rs : list RegExp.result) :
  Forall (fun res => newlines (f res) = newlines (RegExp.matched res)) rs ->
  forall next,
    newlines (splice f s next rs) = newlines (splice RegExp.matched s next rs).
Proof.
  induction 1 as [|res rs H _ IH]; intros next; simpl; [reflexivity|].
  destruct (next <=? RegExp.index res); [|apply IH].
  now rewrite !newlines_app, H, IH.
Qed.

(** A global replacement whose replacer keeps the line breaks of every
    match keeps the line breaks of the text. *)
Lemma newlines_replaced (f : RegExp.result -> str) (fl : flags) (r : regex)
    (s : str) :
  Forall (fun res => newlines (f res) = newlines (RegExp.matched res))
    (RegExp.matchAll fl r s) ->
  newlines (splice f s 0 (RegExp.matchAll fl r s)) = newlines s.
Proof.
  intros H. rewrite (@newlines_splice f s _ H).
  rewrite splice_id; [reflexivity|].
  apply (@scan_chain fl r s [] 0 None 0 0); simpl; lia.
Qed.

Lemma reaches_unique (x y : mstate) (u v : str) :
  reaches x u y -> reaches x v y -> u = v.
Proof.
  intros [R1 _] [R2 _]. rewrite R1 in R2. now apply app_inv_tail in R2.
Qed.

(** A match of the image pattern: the tag, the attribute text and [>]. *)
Lemma img_shape (p : nat) (pv : option char) (s : str) (y : mstate) :
  RegExp.match_at gi Basic.img_re p pv s = Some y ->
  exists w',
    RegExp.matched (RegExp.mk_result p s y)
    = w' ++ RegExp.group 1 (RegExp.mk_result p s y) ++ [62%N]
    /\ spells gi (lit "<img") w'
    /\ Forall (fun d => d <> 62%N) (RegExp.group 1 (RegExp.mk_result p s y)).
Proof.
  intros H.
  change Basic.img_re
    with (tag_pattern (lit "<img")
            (cat [star (notc ">"); WordB; L "alt"; star sp; L "="])
            (cat [L ">"])) in H.
  destruct (@tag_shape gi (lit "<img") _ (cat [L ">"]) p pv s y eq_refl H)
    as (w' & u & v & z & M & G & S & F & D & V).
  exists w'. rewrite G. repeat split; auto.
  rewrite M. do 2 f_equal.
  cbn [cat fold_right den] in D. destruct D as (z' & D & ->).
  destruct (den_literal _ _ _ _ D) as (v' & V' & S' & _).
  rewrite (@reaches_unique _ _ _ _ V V').
  inversion S' as [|? c ? ? E T]; subst. inversion T; subst.
  apply (@chr_eq_caseless gi 62%N c (eq_refl : caseless 62%N = true)) in E. now subst.
Qed.

Lemma img_matches_keep_lines (f : RegExp.result -> str) (s : str) :
  (forall res, newlines (f res) = newlines (RegExp.group 1 res)) ->
  Forall (fun res => newlines (f res) = newlines (RegExp.matched res))
    (RegExp.matchAll gi Basic.img_re s).
Proof.
  intros Hf. apply scan_Forall. intros p pv t y H.
  destruct (@img_shape p pv t y H) as (w' & M & S & _).
  rewrite M, Hf, !newlines_app, (@spells_newlines gi _ _ S).
  change (newlines (lit "<img")) with 0. change (newlines [62%N]) with 0. lia.
Qed.

Lemma always_keep_lines (f : RegExp.result -> str)
    (rs : list RegExp.result) :
  (forall res, newlines (f res) = newlines (RegExp.matched res)) ->
  Forall (fun res => newlines (f res) = newlines (RegExp.matched res)) rs.
Proof. intros H. apply Forall_forall. auto. Qed.

Lemma basic_raw_newlines (src : str) :
  newlines (fst (Basic.run_rules (Basic.rules src) (src, [])))
  = newlines src.
Proof.
  unfold Basic.run_rules, Basic.rules, Basic.run_rule.
  cbn [fold_left fst snd]. collect_basic src.
  rewrite newlines_replaced.
  2:{ apply always_keep_lines. intros res. unfold Basic.fix_input.
      destruct (negb _); cbn [fst]; [|reflexivity].
      unfold Basic.input_patch. destruct (JS.endsWith _ _);
        now apply newlines_replace_first. }
  rewrite newlines_replaced.
  2:{ apply always_keep_lines. intros res. unfold Basic.fix_div. cbn [fst].
      repeat match goal with
             | |- context [if ?b then _ else _] => destruct b
             end;
        rewrite ?newlines_replace_first; reflexivity. }
  rewrite newlines_replaced.
  2:{ apply always_keep_lines. intros res. unfold Basic.fix_a.
      destruct (JS.trim _); cbn [fst]; [|reflexivity].
      now apply newlines_replace_first. }
  rewrite newlines_replaced.
  2:{ apply always_keep_lines. intros res. unfold Basic.fix_button.
      cbn [fst]. now apply newlines_replace_first. }
  apply newlines_replaced, img_matches_keep_lines.
  intros res. unfold Basic.fix_img. cbn [fst].
  rewrite !newlines_app. cbn. lia.
Qed.

Lemma replace_keep_text (St : Type)
    (cb : RegExp.result -> St -> str * St) (f : RegExp.result -> str)
    (fl : flags) (r : regex) (s : str) (st : St) :
  (forall res st', cb res st' = (f res, st')) ->
  fst (RegExp.replace cb fl r s st) = splice f s 0 (RegExp.matchAll fl r s).
Proof.
  intros H. unfold RegExp.replace. now rewrite (@build_keep St cb f H).
Qed.

Lemma ai_raw_newlines (text : str) :
  newlines
    (fold_left
       (fun fixedCode (p : flags * regex * AI.Patch) =>
          let '(fl, re, cb) := p in
          fst (RegExp.replace cb fl re fixedCode tt))
       (AI.patches text) text)
  = newlines text.
Proof.
  unfold AI.patches. cbn [fold_left].
  rewrite !(@replace_keep_text unit AI.patch_img
              (fun res => fst (AI.patch_img res tt)))
    by reflexivity.
  rewrite !(@replace_keep_text unit AI.patch_button
              (fun res => fst (AI.patch_button res tt)))
    by reflexivity.
  rewrite !(@replace_keep_text unit AI.patch_a
              (fun res => fst (AI.patch_a res tt)))
    by (intros res u; unfold AI.patch_a; now destruct (JS.trim _)).
  rewrite !(@replace_keep_text unit AI.patch_div
              (fun res => fst (AI.patch_div res tt)))
    by reflexivity.
  rewrite !(@replace_keep_text unit (AI.patch_input text)
              (fun res => fst (AI.patch_input text res tt)))
    by (intros res u; unfold AI.patch_input; now destruct (negb _)).
  rewrite newlines_replaced.
  2:{ apply always_keep_lines. intros res. unfold AI.patch_input.
      destruct (negb _); cbn [fst]; [|reflexivity].
      unfold AI.input_patch. destruct (JS.endsWith _ _);
        now apply newlines_replace_first. }
  rewrite newlines_replaced.
  2:{ apply always_keep_lines. intros res. unfold AI.patch_div. cbn [fst].
      repeat match goal with
             | |- context [if ?b then _ else _] => destruct b
             end;
        rewrite ?newlines_replace_first; reflexivity. }
  rewrite newlines_replaced.
  2:{ apply always_keep_lines. intros res. unfold AI.patch_a.
      destruct (JS.trim _); cbn [fst]; [|reflexivity].
      now apply newlines_replace_first. }
  rewrite newlines_replaced.
  2:{ apply always_keep_lines. intros res. unfold AI.patch_button.
      cbn [fst]. now apply newlines_replace_first. }
  apply (@newlines_replaced _ gi Basic.img_re), img_matches_keep_lines.
  intros res. unfold AI.patch_img. cbn [fst].
  destruct (AI.isDecorative _); rewrite !newlines_app; cbn; lia.
Qed.



(** ** The narrative of the AI service *)

Lemma enhance_split (text : str) (basicFixes : list AccessibilityFix) :
  AI.enhanceWithAIAnalysis text basicFixes
  = basicFixes ++ AI.enhanceWithAIAnalysis text [].
Proof.
  unfold AI.enhanceWithAIAnalysis.
  repeat match goal with
         | |- context [if ?b then _ else _] => destruct b
         end;
    cbn [app]; rewrite <- ?app_assoc, ?app_nil_r; reflexivity.
Qed.

Lemma detectors_graded (text : str) :
  Forall graded (AI.performBasicAnalysis text).
Proof.
  unfold AI.performBasicAnalysis, AI.detectors. cbn [fold_left].
  repeat (apply replace_inv; [intros res st H; cbn [snd]|]);
    [| | | | |constructor].
  - unfold AI.see_input. destruct (negb _); cbn [snd]; [|exact H].
    apply Forall_snoc; [exact H|]. split; reflexivity.
  - apply Forall_snoc; [exact H|]. split; reflexivity.
  - unfold AI.see_a. destruct (JS.trim _); cbn [snd]; [|exact H].
    apply Forall_snoc; [exact H|]. split; reflexivity.
  - apply Forall_snoc; [exact H|]. split; reflexivity.
  - apply Forall_snoc; [exact H|]. split; reflexivity.
Qed.

Lemma enhance_graded (text : str) :
  Forall graded (AI.enhanceWithAIAnalysis text []).
Proof.
  unfold AI.enhanceWithAIAnalysis.
  repeat match goal with
         | |- context [if ?b then _ else _] => destruct b
         end;
    cbn [app];
    repeat (apply Forall_cons; [split; reflexivity|]);
    apply Forall_nil.
Qed.

Lemma graded_counts (fs : list AccessibilityFix) :
  Forall graded fs ->
  Service.criticalIssues fs = count_category Images fs
  /\ Service.criticalIssues fs + Service.moderateIssues fs
     + count_category ARIA fs = length fs.
Proof.
  unfold Service.criticalIssues, Service.moderateIssues, count_category.
  induction 1 as [|f fs [Hc Hm] _ [IH1 IH2]]; [split; reflexivity|].
  cbn [filter]. rewrite Hc, Hm.
  destruct (category f); cbn [Category_eqb negb andb length];
    split; lia.
Qed.

Lemma count_category_none (c : Category) (fs : list AccessibilityFix) :
  Forall (fun f => category f <> c) fs -> count_category c fs = 0.
Proof.
  unfold count_category. induction 1 as [|f fs H _ IH]; [reflexivity|].
  cbn [filter]. destruct (category f), c; cbn [Category_eqb];
    try exact IH; congruence.
Qed.

Lemma detectors_no_aria (text : str) :
  Forall (fun f => category f <> ARIA) (AI.performBasicAnalysis text).
Proof.
  unfold AI.performBasicAnalysis, AI.detectors. cbn [fold_left].
  repeat (apply replace_inv; [intros res st H; cbn [snd]|]);
    [| | | | |constructor].
  - unfold AI.see_input. destruct (negb _); cbn [snd]; [|exact H].
    apply Forall_snoc; [exact H|]. discriminate.
  - apply Forall_snoc; [exact H|]. discriminate.
  - unfold AI.see_a. destruct (JS.trim _); cbn [snd]; [|exact H].
    apply Forall_snoc; [exact H|]. discriminate.
  - apply Forall_snoc; [exact H|]. discriminate.
  - apply Forall_snoc; [exact H|]. discriminate.
Qed.

Lemma enhance_one_aria (text : str) :
  count_category ARIA (AI.enhanceWithAIAnalysis text []) <= 1.
Proof.
  unfold AI.enhanceWithAIAnalysis, count_category.
  repeat match goal with
         | |- context [if ?b then _ else _] => destruct b
         end;
    cbn; lia.
Qed.

(** X11. The severity counts of the analysis text, on the records the
    service itself produces: the critical issues are the image records,
    the contrast advisory (confidence 0.7) is counted in the total but is
    neither critical nor moderate, and every other record is moderate. *)
Theorem analysis_counts (text : str) (language : Service.Language) :
  let fs := Service.fixes (Service.analyzeCode text language) in
  Service.criticalIssues fs = count_category Images fs
  /\ Service.criticalIssues fs + Service.moderateIssues fs
     + count_category ARIA fs = length fs
  /\ count_category ARIA fs <= 1.
Proof.
  cbn [Service.analyzeCode Service.fixes].
  rewrite enhance_split.
  assert (G : Forall graded
                (AI.performBasicAnalysis text
                 ++ AI.enhanceWithAIAnalysis text []))
    by (apply Forall_app; split;
        [apply detectors_graded|apply enhance_graded]).
  destruct (graded_counts G) as [C T]. repeat split; [exact C|exact T|].
  rewrite count_category_app.
  rewrite (count_category_none (detectors_no_aria text)).
  apply enhance_one_aria.
Qed.


(** *** The categories of the records, and the suggestions *)

Lemma map_category_repeat (c : Category) (l : list AccessibilityFix) :
  Forall (fun f => category f = c) l ->
  map category l = repeat c (length l).
Proof.
  induction 1 as [|f l H _ IH]; [reflexivity|].
  cbn [map length repeat]. now rewrite H, IH.
Qed.

Lemma map_const_repeat (A B : Type) (b : B) (l : list A) :
  map (fun _ => b) l = repeat b (length l).
Proof.
  induction l as [|a l IH]; [reflexivity|]. cbn [map length repeat].
  now rewrite IH.
Qed.

Lemma ai_a_records_navigation (text : str) (rs : list RegExp.result) :
  Forall (fun f => category f = Navigation)
    (flat_map (ai_a_records text) rs).
Proof.
  apply Forall_flat_map, Forall_forall. intros res _.
  unfold ai_a_records. destruct (JS.trim _); repeat constructor.
Qed.

(** The categories of the records of the five rules, in order. *)
Lemma detected_categories (text : str) :
  map category (AI.performBasicAnalysis text)
  = repeat Images (length (RegExp.matchAll gi AI.img_re text))
    ++ repeat InteractiveElements
         (length (RegExp.matchAll gis AI.button_re text))
    ++ repeat Navigation
         (length (flat_map (ai_a_records text)
                    (RegExp.matchAll gi AI.a_re text)))
    ++ repeat InteractiveElements
         (length (RegExp.matchAll gi AI.div_re text))
    ++ repeat Forms
         (if AI.hasAssociatedLabel text then 0
          else length (RegExp.matchAll gi AI.input_re text)).
Proof.
  unfold AI.performBasicAnalysis, AI.detectors. cbn [fold_left].
  rewrite (@replace_collect _ (AI.see_img text) RegExp.matched
             (fun res => [AI.img_fix text (RegExp.group 1 res)
                            (RegExp.index res)]))
    by reflexivity.
  rewrite (@replace_collect _ (AI.see_button text) RegExp.matched
             (fun res => [AI.button_fix text (RegExp.index res)]))
    by reflexivity.
  rewrite (@replace_collect _ (AI.see_a text) RegExp.matched
             (ai_a_records text))
    by apply see_a_collect.
  rewrite (@replace_collect _ (AI.see_div text) RegExp.matched
             (fun res => [AI.div_fix text (RegExp.index res)]))
    by reflexivity.
  rewrite (@replace_collect _ (AI.see_input text) RegExp.matched
             (fun res => if negb (AI.hasAssociatedLabel text)
                         then [AI.input_fix text (RegExp.index res)]
                         else []))
    by (intros res st; unfold AI.see_input; destruct (negb _);
        [reflexivity|now rewrite app_nil_r]).
  cbn [snd app]. rewrite !flat_map_single, !map_app, <- !app_assoc.
  rewrite !map_map.
  cbn [category AI.img_fix AI.button_fix AI.div_fix AI.mkfix].
  rewrite !map_const_repeat.
  rewrite (map_category_repeat (ai_a_records_navigation text _)).
  do 4 f_equal.
  destruct (AI.hasAssociatedLabel text); cbn [negb].
  - now rewrite flat_map_none.
  - rewrite flat_map_single, map_map.
    cbn [category AI.input_fix AI.mkfix]. apply map_const_repeat.
Qed.

Lemma some_category_map (c : Category) (fs : list AccessibilityFix) :
  Service.some_category c fs
  = existsb (fun k => Category_eqb k c) (map category fs).
Proof.
  unfold Service.some_category.
  induction fs as [|f fs IH]; [reflexivity|]. cbn [map existsb].
  now rewrite IH.
Qed.

Lemma existsb_repeat (A : Type) (p : A -> bool) (a : A) (n : nat) :
  existsb p (repeat a n) = (0 <? n) && p a.
Proof.
  induction n as [|n IH]; [reflexivity|]. cbn [repeat existsb].
  rewrite IH. destruct (p a), n; reflexivity.
Qed.

Lemma positive_length (A : Type) (l : list A) :
  (0 <? length l) = true <-> l <> [].
Proof. destruct l; cbn; split; congruence. Qed.

Lemma some_category_advisory (c : Category) (fs : list AccessibilityFix) :
  Forall advisory fs ->
  c = Images \/ c = InteractiveElements \/ c = Forms ->
  Service.some_category c fs = false.
Proof.
  intros H Hc. unfold Service.some_category.
  induction H as [|f fs [_ Hf] _ IH]; [reflexivity|].
  cbn [existsb]. rewrite IH, orb_false_r.
  destruct Hc as [Hc|[Hc|Hc]]; subst c; destruct Hf as [E|[E|E]];
    rewrite E; reflexivity.
Qed.

(** What [generateSuggestions] holds, sentence by sentence. *)
Lemma suggestions_In (code : str) (fs : list AccessibilityFix)
    (language : Service.Language) (s : str) :
  In s (Service.generateSuggestions code fs language)
  <-> (s = Service.suggest_images
       /\ Service.some_category Images fs = true)
      \/ (s = Service.suggest_interactive
          /\ Service.some_category InteractiveElements fs = true)
      \/ (s = Service.suggest_forms
          /\ Service.some_category Forms fs = true)
      \/ (s = Service.suggest_semantics
          /\ Service.some_category Semantics fs = true)
      \/ ((s = Service.suggest_testing \/ s = Service.suggest_focus)
          /\ Service.is_react language = true)
      \/ (s = Service.suggest_tools /\ (5 <? length fs) = true).
Proof.
  unfold Service.generateSuggestions.
  destruct (Service.some_category Images fs),
    (Service.some_category InteractiveElements fs),
    (Service.some_category Forms fs),
    (Service.some_category Semantics fs),
    (Service.is_react language), (5 <? length fs);
    cbn [app In]; intuition congruence.
Qed.

Ltac differ :=
  match goal with
  | E : @eq str _ _ |- _ =>
      apply (f_equal (@List.length char)) in E; vm_compute in E;
      discriminate E
  end.

(** The seven sentences differ, so each one tells its own condition. *)
Lemma suggestion_given (code : str) (fs : list AccessibilityFix)
    (language : Service.Language) :
  let sg := Service.generateSuggestions code fs language in
  (In Service.suggest_images sg
   <-> Service.some_category Images fs = true)
  /\ (In Service.suggest_interactive sg
      <-> Service.some_category InteractiveElements fs = true)
  /\ (In Service.suggest_forms sg
      <-> Service.some_category Forms fs = true)
  /\ (In Service.suggest_testing sg <-> Service.is_react language = true)
  /\ (In Service.suggest_focus sg <-> Service.is_react language = true).
Proof.
  cbv zeta. rewrite !suggestions_In.
  repeat split; intros H; try tauto;
    repeat (destruct H as [H|H]; [|try tauto]);
    try (destruct H as [E H]; try exact H; try destruct E as [E|E]);
    differ.
Qed.

Lemma detected_some (text : str) (c : Category) :
  c = Images \/ c = InteractiveElements \/ c = Forms ->
  Service.some_category c
    (AI.enhanceWithAIAnalysis text (AI.performBasicAnalysis text))
  = existsb (fun k => Category_eqb k c)
      (map category (AI.performBasicAnalysis text)).
Proof.
  intros Hc. rewrite enhance_split.
  unfold Service.some_category at 1. rewrite existsb_app.
  fold (Service.some_category c (AI.performBasicAnalysis text)).
  fold (Service.some_category c (AI.enhanceWithAIAnalysis text [])).
  rewrite (some_category_advisory (enhance_advisory text) Hc).
  now rewrite orb_false_r, some_category_map.
Qed.

(** X12. The suggestions of [analyzeCode] follow the matches of the rules:
    the sentence on images is given exactly when the image pattern matches
    somewhere in the text, the sentence on interactive elements exactly
    when the button or the clickable-div pattern matches, the sentence on
    forms exactly when the input pattern matches and no label pattern is
    found; a link match brings no sentence of its own.  The two sentences
    on React come exactly for jsx and tsx. *)
Theorem suggestions_follow_matches (text : str)
    (language : Service.Language) :
  let sg := Service.suggestions (Service.analyzeCode text language) in
  (In Service.suggest_images sg
   <-> RegExp.matchAll gi AI.img_re text <> [])
  /\ (In Service.suggest_interactive sg
      <-> RegExp.matchAll gis AI.button_re text <> []
          \/ RegExp.matchAll gi AI.div_re text <> [])
  /\ (In Service.suggest_forms sg
      <-> RegExp.matchAll gi AI.input_re text <> []
          /\ AI.hasAssociatedLabel text = false)
  /\ (In Service.suggest_testing sg <-> language <> Service.html)
  /\ (In Service.suggest_focus sg <-> language <> Service.html).
Proof.
  cbn [Service.analyzeCode Service.suggestions].
  destruct (suggestion_given text
              (AI.enhanceWithAIAnalysis text (AI.performBasicAnalysis text))
              language) as (I & B & F & T & U).
  rewrite I, B, F, T, U, !detected_some by tauto.
  rewrite detected_categories, !existsb_app, !existsb_repeat.
  cbn [Category_eqb]. rewrite !andb_false_r, !andb_true_r.
  cbn [orb]. rewrite ?orb_false_r, orb_true_iff, <- !positive_length.
  repeat split; try tauto.
  - destruct (AI.hasAssociatedLabel text); [discriminate|tauto].
  - destruct (AI.hasAssociatedLabel text); [discriminate|reflexivity].
  - intros [H L]. now rewrite L.
  - destruct language; cbn; congruence.
  - destruct language; cbn; congruence.
  - destruct language; cbn; congruence.
  - destruct language; cbn; congruence.
Qed.


(** ** The configuration of the AI service *)

Lemma same_eq (a b : str) : Config.same a b = true <-> a = b.
Proof. apply str_eqb_eq. Qed.

Lemma same_neq (a b : str) : Config.same a b = false <-> a <> b.
Proof.
  split.
  - intros H E. apply same_eq in E. congruence.
  - intros H. now apply str_eqb_neq.
Qed.

Lemma lacks_prefix_false (p : str) (key : option str) :
  Config.lacks_prefix p key = false <-> exists k, key = Some (p ++ k).
Proof.
  destruct key as [k|]; cbn.
  - rewrite negb_false_iff, starts_with_iff. split.
    + intros [t ->]. now exists t.
    + intros [t E]. injection E as ->. now exists t.
  - split; [discriminate|now intros [k E]].
Qed.

Lemma falsy_false (key : option str) :
  Config.falsy key = false <-> exists c k, key = Some (c :: k).
Proof.
  destruct key as [[|c k]|]; cbn; split; try discriminate;
    try (now intros (c' & k' & E)).
  intros _. now exists c, k.
Qed.

Ltac decide_same :=
  repeat match goal with
         | |- context [Config.same (lit ?a) (lit ?b)] =>
             let v := eval vm_compute in (Config.same (lit a) (lit b)) in
             change (Config.same (lit a) (lit b)) with v
         end.

Lemma falsy_lacks (p : str) (key : option str) :
  p <> [] -> Config.falsy key = true -> Config.lacks_prefix p key = true.
Proof.
  intros Hp. destruct key as [[|c k]|]; cbn; try discriminate; auto.
  intros _. destruct p; [congruence|reflexivity].
Qed.

(** X13. [validateAIConfig] reports no error exactly for: the provider
    mock, whatever the key; the provider openai with a key that starts
    with [sk-]; the provider anthropic with a key that starts with
    [sk-ant-]; any other provider name with a key that is not empty.  It
    never reports more than two errors, and for openai and anthropic a
    missing or empty key is always reported twice. *)
Theorem validateAIConfig_accepts (config : Config.AIConfig) :
  (Config.validateAIConfig config = [] <-> accepted config)
  /\ length (Config.validateAIConfig config) <= 2
  /\ (Config.falsy (Config.apiKey config) = true ->
      Config.provider config = lit "openai"
      \/ Config.provider config = lit "anthropic" ->
      length (Config.validateAIConfig config) = 2).
Proof.
  destruct config as [p key b m].
  unfold accepted, Config.validateAIConfig.
  cbn [Config.provider Config.apiKey].
  destruct (Config.same p (lit "mock")) eqn:M;
    [apply same_eq in M; subst p; decide_same|apply same_neq in M];
    cbn [negb andb].
  { repeat split; cbn; auto; intros _ [H|H]; differ. }
  destruct (Config.same p (lit "openai")) eqn:O;
    [apply same_eq in O; subst p; decide_same|apply same_neq in O];
    cbn [andb].
  { pose proof (@falsy_lacks (lit "sk-") key) as FL.
    pose proof (lacks_prefix_false (lit "sk-") key) as PF.
    destruct (Config.falsy key) eqn:F,
      (Config.lacks_prefix (lit "sk-") key) eqn:P;
      cbn [app length]; try (specialize (FL ltac:(discriminate) eq_refl);
                             discriminate FL);
      (split; [split|split; [lia|]]); try discriminate; try tauto;
      try (intros; reflexivity).
    - intros [E|[[_ (k & E)]|[[E _]|(_ & E & _)]]]; try differ;
        try congruence.
      destruct PF as [_ PF]. specialize (PF (ex_intro _ k E)). discriminate.
    - intros [E|[[_ (k & E)]|[[E _]|(_ & E & _)]]]; try differ;
        try congruence.
      destruct PF as [_ PF]. specialize (PF (ex_intro _ k E)). discriminate.
  }
  destruct (Config.same p (lit "anthropic")) eqn:N;
    [apply same_eq in N; subst p; decide_same|apply same_neq in N];
    cbn [andb].
  { pose proof (@falsy_lacks (lit "sk-ant-") key) as FL.
    pose proof (lacks_prefix_false (lit "sk-ant-") key) as PF.
    destruct (Config.falsy key) eqn:F,
      (Config.lacks_prefix (lit "sk-ant-") key) eqn:P;
      cbn [app length]; try (specialize (FL ltac:(discriminate) eq_refl);
                             discriminate FL);
      (split; [split|split; [lia|]]); try discriminate; try tauto;
      try (intros; reflexivity).
    - intros [E|[[E _]|[[_ (k & E)]|(_ & _ & E & _)]]]; try differ;
        try congruence.
      destruct PF as [_ PF]. specialize (PF (ex_intro _ k E)). discriminate.
    - intros [E|[[E _]|[[_ (k & E)]|(_ & _ & E & _)]]]; try differ;
        try congruence.
      destruct PF as [_ PF]. specialize (PF (ex_intro _ k E)). discriminate.
  }
  pose proof (falsy_false key) as FF.
  destruct (Config.falsy key) eqn:F; cbn [app length];
    (split; [split|split; [lia|]]); try discriminate.
  - intros [E|[[E _]|[[E _]|(_ & _ & _ & c & k & E)]]]; try congruence.
    destruct FF as [_ FF].
    specialize (FF (ex_intro _ c (ex_intro _ k E))). discriminate.
  - intros _ [E|E]; congruence.
  - intros _. right. right. right. repeat split; auto. now apply FF.
  - intros _. reflexivity.
Qed.


Lemma validateAIConfig_accepts_witness :
  length (Config.validateAIConfig
            {| Config.provider := lit "openai"; Config.apiKey := None;
               Config.baseUrl := None; Config.model := None |}) = 2.
Proof.
  apply (validateAIConfig_accepts
           {| Config.provider := lit "openai"; Config.apiKey := None;
              Config.baseUrl := None; Config.model := None |});
    [reflexivity|left; reflexivity].
Defined.

Lemma model_or_set (m : option str) (d : str) :
  Config.model_or m d
  = match m with
    | Some (c :: k) => c :: k
    | _ => d
    end.
Proof. destruct m as [[|c k]|]; reflexivity. Qed.

(** X14. The model name [getAIServiceConfig] gives for anthropic is the
    one it gives for openai: [VITE_AI_MODEL] when it is set and not
    empty, and [gpt-4] otherwise.  The Claude model name written in the
    anthropic branch is returned only when the environment variable holds
    it, since [aiConfig.model] is never empty.  Any provider name other
    than openai and anthropic gets the configuration of mock. *)
Theorem service_model_from_env (env : Config.Env) :
  Config.service_model (Config.getAIServiceConfig env (lit "anthropic"))
  = Config.service_model (Config.getAIServiceConfig env (lit "openai"))
  /\ Config.service_model (Config.getAIServiceConfig env (lit "anthropic"))
     = match Config.VITE_AI_MODEL env with
       | Some (c :: k) => c :: k
       | _ => lit "gpt-4"
       end
  /\ forall p, p <> lit "openai" -> p <> lit "anthropic" ->
       Config.getAIServiceConfig env p
       = Config.getAIServiceConfig env (lit "mock").
Proof.
  unfold Config.getAIServiceConfig. decide_same.
  cbn [Config.service_model Config.aiConfig Config.defaultAIConfig
       Config.model].
  rewrite !model_or_set.
  repeat split.
  - destruct (Config.VITE_AI_MODEL env) as [[|c k]|]; reflexivity.
  - destruct (Config.VITE_AI_MODEL env) as [[|c k]|]; reflexivity.
  - intros p O N. apply same_neq in O, N. now rewrite O, N.
Qed.

Lemma service_model_from_env_witness :
  Config.getAIServiceConfig
    {| Config.VITE_OPENAI_API_KEY := None;
       Config.VITE_ANTHROPIC_API_KEY := None;
       Config.VITE_AI_BASE_URL := None;
       Config.VITE_AI_MODEL := None;
       Config.VITE_AI_PROVIDER := None |} (lit "custom")
  = {| Config.service_baseUrl := lit "mock";
       Config.service_model := lit "mock-ai";
       Config.headers := [] |}.
Proof.
  rewrite (proj2 (proj2 (service_model_from_env _)) (lit "custom"));
    [reflexivity| |]; intros E; vm_compute in E; discriminate E.
Defined.

(** X15. The key of the configuration is [VITE_OPENAI_API_KEY] whenever
    that variable is set and not empty, whatever the provider: with the
    provider anthropic and an OpenAI key that does not start with
    [sk-ant-], [validateAIConfig] reports the Anthropic key format,
    whatever [VITE_ANTHROPIC_API_KEY] holds. *)
Theorem openai_key_shadows (env : Config.Env) (c : char) (k : str) :
  Config.VITE_OPENAI_API_KEY env = Some (c :: k) ->
  Config.apiKey (Config.aiConfig env) = Some (c :: k)
  /\ (Config.VITE_AI_PROVIDER env = Some (lit "anthropic") ->
      JS.starts_with (lit "sk-ant-") (c :: k) = false ->
      Config.validateAIConfig (Config.aiConfig env)
      = [lit "Invalid Anthropic API key format"]).
Proof.
  intros K.
  assert (A : Config.apiKey (Config.aiConfig env) = Some (c :: k))
    by (cbn [Config.aiConfig Config.defaultAIConfig Config.apiKey];
        now rewrite K).
  split; [exact A|]. intros P S.
  unfold Config.validateAIConfig. rewrite A.
  cbn [Config.aiConfig Config.provider]. rewrite P.
  cbn [Config.or_else Config.falsy]. decide_same.
  cbn [negb andb Config.lacks_prefix]. now rewrite S.
Qed.

Lemma openai_key_shadows_witness :
  Config.validateAIConfig
    (Config.aiConfig
       {| Config.VITE_OPENAI_API_KEY := Some (lit "sk-proj-1");
          Config.VITE_ANTHROPIC_API_KEY := Some (lit "sk-ant-1");
          Config.VITE_AI_BASE_URL := None;
          Config.VITE_AI_MODEL := None;
          Config.VITE_AI_PROVIDER := Some (lit "anthropic") |})
  = [lit "Invalid Anthropic API key format"].
Proof.
  apply (@openai_key_shadows
           {| Config.VITE_OPENAI_API_KEY := Some (lit "sk-proj-1");
              Config.VITE_ANTHROPIC_API_KEY := Some (lit "sk-ant-1");
              Config.VITE_AI_BASE_URL := None;
              Config.VITE_AI_MODEL := None;
              Config.VITE_AI_PROVIDER := Some (lit "anthropic") |}
           115%N (lit "k-proj-1")); reflexivity.
Defined.


(** ** Grouping the records by category *)

Lemma Category_eqb_eq (a b : Category) : Category_eqb a b = true <-> a = b.
Proof. destruct a, b; cbn; split; congruence. Qed.

Lemma Category_eqb_sym (a b : Category) :
  Category_eqb a b = Category_eqb b a.
Proof. destruct a, b; reflexivity. Qed.

Lemma existsb_Category (c : Category) (l : list Category) :
  existsb (Category_eqb c) l = true <-> In c l.
Proof.
  rewrite existsb_exists. split.
  - intros (k & H & E). apply Category_eqb_eq in E. now subst.
  - intros H. exists c. split; [exact H|now apply Category_eqb_eq].
Qed.

Lemma distinct_snoc (l : list Category) (c : Category) :
  Service.distinct (l ++ [c]) = Service.set_add (Service.distinct l) c.
Proof. unfold Service.distinct. now rewrite fold_left_app. Qed.

Lemma distinct_spec (l : list Category) :
  NoDup (Service.distinct l) /\ forall c, In c (Service.distinct l) <-> In c l.
Proof.
  induction l as [|c l [N I]] using rev_ind.
  - split; [constructor|reflexivity].
  - rewrite distinct_snoc. unfold Service.set_add.
    destruct (existsb (Category_eqb c) (Service.distinct l)) eqn:E.
    + apply existsb_Category in E. split; [exact N|]. intros k.
      rewrite in_app_iff, I. cbn. split; [tauto|].
      intros [H|[<-|[]]]; [exact H|now apply I].
    + assert (~ In c (Service.distinct l))
        by (intros H; apply existsb_Category in H; congruence).
      split.
      * apply NoDup_app; [exact N|repeat constructor; intros []|].
        intros k Hk [<-|[]]. contradiction.
      * intros k. rewrite !in_app_iff, I. reflexivity.
Qed.

Lemma filter_none (A : Type) (p : A -> bool) (l : list A) :
  (forall x, In x l -> p x = false) -> filter p l = [].
Proof.
  induction l as [|a l IH]; intros H; [reflexivity|]. cbn [filter].
  rewrite (H a (or_introl eq_refl)). apply IH. intros x Hx. apply H.
  now right.
Qed.

Section GroupFacts.
Variables A B : Type.
Variable key : A -> Category.
Variable val : A -> B.

Lemma push_group_new (c : Category) (b : B)
    (G : Category -> list B) (D : list Category) :
  ~ In c D ->
  push_group c b (map (fun k => (k, G k)) D)
  = map (fun k => (k, G k)) D ++ [(c, [b])].
Proof.
  induction D as [|k D IH]; intros H; [reflexivity|].
  cbn [map push_group app].
  destruct (Category_eqb k c) eqn:E.
  - apply Category_eqb_eq in E. subst. exfalso. apply H. now left.
  - rewrite IH; [reflexivity|]. intros K. apply H. now right.
Qed.

Lemma push_group_old (c : Category) (b : B)
    (G : Category -> list B) (D : list Category) :
  In c D -> NoDup D ->
  push_group c b (map (fun k => (k, G k)) D)
  = map (fun k => (k, if Category_eqb k c then G k ++ [b] else G k)) D.
Proof.
  induction D as [|k D IH]; intros H N; [destruct H|].
  inversion N as [|? ? Hk ND]; subst.
  cbn [map push_group].
  destruct (Category_eqb k c) eqn:E.
  - apply Category_eqb_eq in E. subst. f_equal.
    apply map_ext_in. intros k Hk'.
    destruct (Category_eqb k c) eqn:E'; [|reflexivity].
    apply Category_eqb_eq in E'. subst. contradiction.
  - rewrite IH; [reflexivity| |exact ND].
    destruct H as [->|H]; [|exact H].
    rewrite (proj2 (Category_eqb_eq c c) eq_refl) in E. discriminate.
Qed.

(** The loop that pushes each element to the group of its category
    builds [groups_of]. *)
Lemma grouping (l : list A) :
  fold_left (fun acc a => push_group (key a) (val a) acc) l []
  = groups_of key val l.
Proof.
  unfold groups_of. induction l as [|a l IH] using rev_ind;
    [reflexivity|].
  rewrite fold_left_app, IH, map_app. cbn [fold_left map].
  rewrite distinct_snoc. unfold Service.set_add.
  destruct (distinct_spec (map key l)) as [N I].
  destruct (existsb (Category_eqb (key a)) (Service.distinct (map key l)))
    eqn:E.
  - apply existsb_Category in E.
    rewrite (@push_group_old (key a) (val a)
               (fun c => map val
                           (filter (fun x => Category_eqb (key x) c) l)))
      by assumption.
    apply map_ext. intros k. f_equal.
    rewrite filter_app, map_app. cbn [filter].
    rewrite (Category_eqb_sym (key a) k).
    destruct (Category_eqb k (key a)); [reflexivity|].
    now rewrite app_nil_r.
  - assert (Hn : ~ In (key a) (Service.distinct (map key l)))
      by (intros H; apply existsb_Category in H; congruence).
    rewrite (@push_group_new (key a) (val a)
               (fun c => map val
                           (filter (fun x => Category_eqb (key x) c) l)))
      by assumption.
    rewrite map_app. cbn [map]. f_equal.
    + apply map_ext_in. intros k Hk. f_equal.
      rewrite filter_app, map_app. cbn [filter].
      destruct (Category_eqb (key a) k) eqn:E'; [|now rewrite app_nil_r].
      apply Category_eqb_eq in E'. subst. contradiction.
    + do 2 f_equal. rewrite filter_app, map_app. cbn [filter].
      rewrite (proj2 (Category_eqb_eq (key a) (key a)) eq_refl).
      replace (filter (fun x => Category_eqb (key x) (key a)) l)
        with (@nil A); [reflexivity|].
      symmetry. apply filter_none. intros x Hx.
      destruct (Category_eqb (key x) (key a)) eqn:E'; [|reflexivity].
      apply Category_eqb_eq in E'. exfalso. apply Hn, I. rewrite <- E'.
      now apply in_map.
Qed.
End GroupFacts.


Lemma groups_of_keys (A B : Type) (key : A -> Category) (val : A -> B)
    (l : list A) :
  map fst (groups_of key val l) = Service.distinct (map key l).
Proof.
  unfold groups_of. rewrite map_map. cbn [fst]. apply map_id.
Qed.

Lemma groups_of_nonempty (A B : Type) (key : A -> Category)
    (val : A -> B) (l : list A) :
  Forall (fun g => snd g <> []) (groups_of key val l).
Proof.
  unfold groups_of. apply Forall_map, Forall_forall. intros c Hc.
  cbn [snd]. apply (distinct_spec (map key l)) in Hc.
  apply in_map_iff in Hc. destruct Hc as (a & E & Ha).
  assert (Hf : In a (filter (fun x => Category_eqb (key x) c) l))
    by (apply filter_In; split; [exact Ha|now apply Category_eqb_eq]).
  destruct (filter _ l); [destruct Hf|discriminate].
Qed.

Lemma count_once (k : Category) (D : list Category) :
  NoDup D -> In k D ->
  length (filter (fun c => Category_eqb k c) D) = 1.
Proof.
  induction 1 as [|c D Hc N IH]; intros H; [destruct H|].
  cbn [filter]. destruct (Category_eqb k c) eqn:E.
  - apply Category_eqb_eq in E. subst c. cbn [length]. f_equal.
    rewrite filter_none; [reflexivity|]. intros x Hx.
    destruct (Category_eqb k x) eqn:E'; [|reflexivity].
    apply Category_eqb_eq in E'. subst. contradiction.
  - apply IH. destruct H as [->|H]; [|exact H].
    rewrite (proj2 (Category_eqb_eq k k) eq_refl) in E. discriminate.
Qed.

Lemma groups_cover (A : Type) (key : A -> Category) (D : list Category)
    (l : list A) :
  NoDup D -> (forall a, In a l -> In (key a) D) ->
  length (List.concat (map (fun c => filter (fun a => Category_eqb (key a) c) l)
                    D))
  = length l.
Proof.
  intros N. induction l as [|a l IH]; intros H.
  - cbn [filter length]. clear. induction D as [|c D IH]; [reflexivity|].
    cbn [map List.concat app]. exact IH.
  - specialize (IH (fun x Hx => H x (or_intror Hx))).
    pose proof (@count_once (key a) D N (H a (or_introl eq_refl))) as C.
    cbn [filter length].
    assert (G : forall D,
              length (List.concat (map (fun c =>
                        if Category_eqb (key a) c
                        then a :: filter (fun x => Category_eqb (key x) c) l
                        else filter (fun x => Category_eqb (key x) c) l) D))
              = length (filter (fun c => Category_eqb (key a) c) D)
                + length (List.concat (map (fun c =>
                            filter (fun x => Category_eqb (key x) c) l)
                            D))).
    { clear. induction D as [|c D IH]; [reflexivity|].
      cbn [map List.concat filter]. rewrite !length_app, IH.
      destruct (Category_eqb (key a) c); cbn [length]; lia. }
    rewrite G, C, IH. reflexivity.
Qed.

(** X16. The groups of the results panel: one group per category that
    occurs in the fix list, in the order in which the categories first
    occur and none twice; a group holds the records of its category in
    the order of the fix list, so no group is empty and every record is
    in exactly one group. *)
Theorem fixesByCategory_groups (r : FixResult) :
  ResultsPanel.fixesByCategory (Some r)
  = groups_of category (fun f => f) (fixes r)
  /\ NoDup (map fst (ResultsPanel.fixesByCategory (Some r)))
  /\ Forall (fun g => snd g <> []) (ResultsPanel.fixesByCategory (Some r))
  /\ length (List.concat (map snd (ResultsPanel.fixesByCategory (Some r))))
     = length (fixes r).
Proof.
  assert (E : ResultsPanel.fixesByCategory (Some r)
              = groups_of category (fun f => f) (fixes r))
    by apply (grouping category (fun f : AccessibilityFix => f)).
  rewrite E. split; [reflexivity|].
  destruct (distinct_spec (map category (fixes r))) as [N I].
  split; [now rewrite groups_of_keys|].
  split; [apply groups_of_nonempty|].
  unfold groups_of. rewrite map_map. cbn [snd].
  erewrite map_ext by (intros c; apply map_id).
  apply groups_cover; [exact N|].
  intros a Ha. apply I. now apply in_map.
Qed.

Lemma In_combine_seq (A : Type) (l : list A) (s i : nat) (a : A) :
  In (i, a) (combine (seq s (length l)) l) ->
  s <= i /\ nth_error l (i - s) = Some a.
Proof.
  revert s; induction l as [|b l IH]; intros s; cbn [length seq combine];
    [intros []|].
  intros [E|H].
  - injection E as <- <-. split; [lia|]. now rewrite Nat.sub_diag.
  - destruct (IH _ H) as [L N]. split; [lia|].
    replace (i - s) with (S (i - S s)) by lia. exact N.
Qed.

(** X17. The groups of the log of the index page: the same grouping, of
    the records with their positions; every item of a group stands for
    the record at its index in the fix list, in the group of the category
    of that record, with its selector and summary, and with its action
    unless that is empty. *)
Theorem groupedLog_groups (r : WithAI.FixResult) :
  Index.groupedLog (Some r)
  = groups_of (fun p => category (snd p))
      (fun p => Index.log_item (fst p) (snd p))
      (combine (seq 0 (length (WithAI.fixes r))) (WithAI.fixes r))
  /\ Forall (fun g => Forall (item_real (WithAI.fixes r) (fst g)) (snd g))
       (Index.groupedLog (Some r)).
Proof.
  assert (E : Index.groupedLog (Some r)
              = groups_of (fun p => category (snd p))
                  (fun p => Index.log_item (fst p) (snd p))
                  (combine (seq 0 (length (WithAI.fixes r)))
                     (WithAI.fixes r)))
    by apply (grouping (fun p : nat * AccessibilityFix => category (snd p))
                (fun p => Index.log_item (fst p) (snd p))).
  rewrite E. split; [reflexivity|].
  unfold groups_of. apply Forall_map, Forall_forall. intros c _.
  cbn [fst snd]. apply Forall_map, Forall_forall. intros [i f] H.
  apply filter_In in H. destruct H as [H K]. cbn [fst snd] in *.
  apply In_combine_seq in H. destruct H as [_ H].
  rewrite Nat.sub_0_r in H. apply Category_eqb_eq in K.
  exists f. cbn [Index.log_item Index.Log.index]. auto.
Qed.


(** ** The badge of a record *)

Ltac badge := split; [discriminate|vm_compute; reflexivity].

Lemma detectors_plain_badge (text : str) :
  Forall plain_badge (AI.performBasicAnalysis text).
Proof.
  unfold AI.performBasicAnalysis, AI.detectors. cbn [fold_left].
  repeat (apply replace_inv; [intros res st H; cbn [snd]|]);
    [| | | | |constructor].
  - unfold AI.see_input. destruct (negb _); cbn [snd]; [|exact H].
    apply Forall_snoc; [exact H|]. badge.
  - apply Forall_snoc; [exact H|]. badge.
  - unfold AI.see_a. destruct (JS.trim _); cbn [snd]; [|exact H].
    apply Forall_snoc; [exact H|]. badge.
  - apply Forall_snoc; [exact H|]. badge.
  - apply Forall_snoc; [exact H|]. badge.
Qed.

Lemma enhance_plain_badge (text : str) :
  Forall plain_badge (AI.enhanceWithAIAnalysis text []).
Proof.
  unfold AI.enhanceWithAIAnalysis.
  repeat match goal with
         | |- context [if ?b then _ else _] => destruct b
         end;
    cbn [app];
    repeat (apply Forall_cons; [badge|]);
    apply Forall_nil.
Qed.

Lemma basic_rules_plain_badge (src : str) :
  Forall (fun rl => keeps (Forall plain_badge) (snd rl)) (Basic.rules src).
Proof.
  unfold Basic.rules. repeat constructor; intros res st H; cbn [snd].
  - apply Forall_snoc; [exact H|]. badge.
  - apply Forall_snoc; [exact H|]. badge.
  - unfold Basic.fix_a. destruct (JS.trim _); cbn [snd]; [|exact H].
    apply Forall_snoc; [exact H|]. badge.
  - apply Forall_snoc; [exact H|]. badge.
  - unfold Basic.fix_input. destruct (negb _); cbn [snd]; [|exact H].
    apply Forall_snoc; [exact H|]. badge.
Qed.

(** X18. No record of either engine has an action text that
    [getBadgeVariant] maps to the default or the outline badge: every
    record of [fixAccessibility] and of [fixAccessibilityWithAI], and
    every item of the grouped log, is shown with the secondary badge; no
    action is empty, so every item carries the action of its record. *)
Theorem badge_always_secondary (text : str) (language : Service.Language) :
  Forall plain_badge (fixes (Basic.fixAccessibility text))
  /\ Forall plain_badge
       (WithAI.fixes (WithAI.fixAccessibilityWithAI text language))
  /\ Forall
       (fun g =>
          Forall (fun it =>
                    Index.getBadgeVariant (Index.Log.action it)
                    = Index.variant_secondary
                    /\ exists f,
                         In f (WithAI.fixes
                                 (WithAI.fixAccessibilityWithAI text
                                    language))
                         /\ Index.Log.action it = action f)
            (snd g))
       (Index.groupedLog
          (Some (WithAI.fixAccessibilityWithAI text language))).
Proof.
  assert (P : Forall plain_badge
                (WithAI.fixes (WithAI.fixAccessibilityWithAI text language))).
  { cbn [WithAI.fixAccessibilityWithAI WithAI.fixes Service.analyzeCode
         Service.fixes].
    rewrite enhance_split. apply Forall_app. split;
      [apply detectors_plain_badge|apply enhance_plain_badge]. }
  split; [|split; [exact P|]].
  - unfold Basic.fixAccessibility.
    pose proof (run_rules_inv (basic_rules_plain_badge text) (text, [])
                  (Forall_nil _)) as H.
    destruct (Basic.run_rules _ _). exact H.
  - unfold Index.groupedLog.
    rewrite (grouping (fun p : nat * AccessibilityFix => category (snd p))
               (fun p => Index.log_item (fst p) (snd p))).
    unfold groups_of. apply Forall_map, Forall_forall. intros c _.
    cbn [snd]. apply Forall_map, Forall_forall. intros [i f] H.
    apply filter_In in H. destruct H as [H _].
    apply in_combine_r in H.
    rewrite Forall_forall in P. destruct (P f H) as [Hn Hb].
    cbn [Index.log_item Index.Log.action fst snd].
    destruct (action f) as [|a t] eqn:E; [congruence|].
    split; [exact Hb|]. exists f. rewrite E. auto.
Qed.


(** ** The ends of a match *)

Section MatchEnds.
Variable fl : flags.
Variable c : char.
Hypothesis Hc : caseless c = true.

Lemma den_first_is (r : regex) :
  first_is c r = true ->
  forall x y, den fl r x y -> exists w, reaches x (c :: w) y.
Proof.
  induction r as [|p|negated items| |a IHa b IHb|a IHa b IHb|greedy a IHa
                 |n a IHa|a IHa|]; intros Hm x y H; simpl in Hm, H;
    try discriminate.
  - apply N.eqb_eq in Hm. subst p.
    destruct (den_one_reaches H) as (d & Hd & R).
    apply (@chr_eq_caseless fl c d Hc) in Hd. subst d. now exists [].
  - destruct H as (z & Ha & Hb).
    destruct (IHa Hm _ _ Ha) as (u & Ru).
    destruct (den_reaches _ _ _ _ Hb) as [v Rv].
    exists (u ++ v). apply (@reaches_trans x z y (c :: u) v Ru Rv).
  - apply andb_true_iff in Hm. destruct Hm as [Hma Hmb].
    destruct H as [H|H]; [now apply IHa|now apply IHb].
  - destruct H as (z & Ha & ->).
    destruct (IHa Hm _ _ Ha) as (u & Ru). exists u. exact Ru.
Qed.

Lemma den_empty_only (r : regex) :
  empty_only r = true -> forall x y, den fl r x y -> y = x.
Proof.
  induction r as [|p|negated items| |a IHa b IHb|a IHa b IHb|greedy a IHa
                 |n a IHa|a IHa|]; intros Hm x y H; simpl in Hm, H;
    try discriminate.
  - exact H.
  - apply andb_true_iff in Hm. destruct Hm as [Hma Hmb].
    destruct H as (z & Ha & Hb).
    rewrite (IHb Hmb _ _ Hb). now apply IHa.
Qed.

Lemma den_last_is (r : regex) :
  last_is c r = true ->
  forall x y, den fl r x y -> exists w, reaches x (w ++ [c]) y.
Proof.
  induction r as [|p|negated items| |a IHa b IHb|a IHa b IHb|greedy a IHa
                 |n a IHa|a IHa|]; intros Hm x y H; simpl in Hm, H;
    try discriminate.
  - apply N.eqb_eq in Hm. subst p.
    destruct (den_one_reaches H) as (d & Hd & R).
    apply (@chr_eq_caseless fl c d Hc) in Hd. subst d. now exists [].
  - destruct H as (z & Ha & Hb). apply orb_true_iff in Hm.
    destruct Hm as [Hm|Hm].
    + destruct (den_reaches _ _ _ _ Ha) as [u Ru].
      destruct (IHb Hm _ _ Hb) as (v & Rv).
      exists (u ++ v). rewrite <- app_assoc.
      apply (@reaches_trans x z y u (v ++ [c]) Ru Rv).
    + apply andb_true_iff in Hm. destruct Hm as [He Hm].
      rewrite (den_empty_only _ He _ _ Hb). now apply IHa.
  - apply andb_true_iff in Hm. destruct Hm as [Hma Hmb].
    destruct H as [H|H]; [now apply IHa|now apply IHb].
  - destruct H as (z & Ha & ->).
    destruct (IHa Hm _ _ Ha) as (u & Ru). exists u. exact Ru.
Qed.
End MatchEnds.

(** The text of a match is what lies between the two states. *)
Lemma matched_word (fl : flags) (r : regex) (p : nat) (pv : option char)
    (s : str) (y : mstate) :
  RegExp.match_at fl r p pv s = Some y ->
  den fl r (RegExp.start p pv s) y
  /\ forall w, reaches (RegExp.start p pv s) w y ->
       RegExp.matched (RegExp.mk_result p s y) = w.
Proof.
  intros H. unfold RegExp.match_at in H.
  destruct (m_sound _ _ _ _ H) as (y' & D & E). injection E as ->.
  split; [exact D|]. intros w [R P]. simpl in R, P. simpl.
  rewrite R, P.
  replace (p + length w - p) with (length w + 0) by lia.
  rewrite firstn_app_2. simpl. now rewrite app_nil_r.
Qed.

(** Every match of a pattern that starts with [<] and ends with [>] is
    [tagged]. *)
Lemma match_tagged (fl : flags) (r : regex) :
  first_is LT r = true -> last_is GT r = true ->
  forall s, Forall (fun res => tagged (RegExp.matched res))
              (RegExp.matchAll fl r s).
Proof.
  intros F L s. apply scan_Forall. intros p pv t y H.
  destruct (matched_word _ _ _ _ _ H) as [D W].
  destruct (@den_first_is fl LT eq_refl r F _ _ D) as [u Ru].
  destruct (@den_last_is fl GT eq_refl r L _ _ D) as [v Rv].
  split.
  - exists u. now apply W.
  - exists v, GT. split; [now apply W|reflexivity].
Qed.


(** ** The ends of a rewritten text *)

Lemma snoc_cases (A : Type) (l : list A) :
  l = [] \/ exists u c, l = u ++ [c].
Proof.
  destruct l as [|a l] using rev_ind; [now left|right]. now exists l, a.
Qed.

Lemma starts_ok_app (a b : str) :
  starts_ok a -> (a = [] -> starts_ok b) -> starts_ok (a ++ b).
Proof.
  intros Ha Hb c u E. destruct a as [|d a]; [now apply (Hb eq_refl c u)|].
  injection E as E _. subst d. now apply (Ha c a).
Qed.

Lemma ends_ok_app (a b : str) :
  ends_ok b -> (b = [] -> ends_ok a) -> ends_ok (a ++ b).
Proof.
  intros Hb Ha c u E. destruct (snoc_cases b) as [->|(v & d & ->)].
  - rewrite app_nil_r in E. now apply (Ha eq_refl c u).
  - rewrite app_assoc in E. apply app_inj_tail in E. destruct E as [_ E].
    subst d. now apply (Hb c v).
Qed.

Lemma starts_ok_firstn (n : nat) (s : str) :
  starts_ok s -> starts_ok (firstn n s).
Proof.
  intros H c u E. destruct n, s as [|d s]; try discriminate.
  injection E as E _. subst d. now apply (H c s).
Qed.

Lemma ends_ok_skipn (n : nat) (s : str) :
  ends_ok s -> ends_ok (skipn n s).
Proof.
  intros H c u E. apply (H c (firstn n s ++ u)).
  now rewrite <- app_assoc, <- E, firstn_skipn.
Qed.

Lemma tagged_starts (t : str) : tagged t -> starts_ok t /\ t <> [].
Proof.
  intros [(w & ->) _]. split; [|discriminate].
  intros c u E. injection E as <- _. reflexivity.
Qed.

Lemma tagged_ends (t : str) : tagged t -> ends_ok t.
Proof.
  intros [_ (w & d & -> & Hd)] c u E.
  apply app_inj_tail in E. destruct E as [_ E]. now subst d.
Qed.

Lemma tagged_ink (t : str) : tagged t -> ink t.
Proof. intros [(w & ->) _]. exists LT. split; [now left|reflexivity]. Qed.

(** The text [replace] builds starts and ends as the source does, and is
    not blank when the source is not, when every replacement is
    [tagged]. *)
Section BuildEnds.
Variable St : Type.
Variable cb : RegExp.result -> St -> str * St.
Variable s : str.
Hypothesis Hcb :
  forall res st, tagged (RegExp.matched res) -> tagged (fst (cb res st)).

Lemma build_starts (rs : list RegExp.result) (st : St) :
  starts_ok s -> Forall (fun res => tagged (RegExp.matched res)) rs ->
  starts_ok (fst (RegExp.build cb s 0 rs st)).
Proof.
  intros Hs H. destruct H as [|res rs H _]; [exact Hs|].
  cbn [RegExp.build Nat.leb]. specialize (Hcb res st H).
  destruct (cb res st) as [rep st1]. cbn [fst] in Hcb.
  destruct (RegExp.build cb s _ rs st1) as [out st2]. cbn [fst].
  unfold JS.substring. cbn [skipn].
  destruct (tagged_starts Hcb) as [Hf Hn].
  apply starts_ok_app; [now apply starts_ok_firstn|]. intros _.
  apply starts_ok_app; [exact Hf|]. intros E. contradiction.
Qed.

Lemma build_ends (rs : list RegExp.result) :
  ends_ok s -> Forall (fun res => tagged (RegExp.matched res)) rs ->
  forall next st, ends_ok (fst (RegExp.build cb s next rs st)).
Proof.
  intros Hs. induction 1 as [|res rs H _ IH]; intros next st;
    cbn [RegExp.build].
  - now apply ends_ok_skipn.
  - pose proof (Hcb res st H) as T.
    destruct (cb res st) as [rep st1]. cbn [fst] in T.
    destruct (next <=? RegExp.index res); [|apply IH].
    specialize (IH (RegExp.index res + length (RegExp.matched res)) st1).
    destruct (RegExp.build cb s _ rs st1) as [out st2]. cbn [fst] in *.
    destruct (tagged_starts T) as [_ Hn].
    apply ends_ok_app.
    + apply ends_ok_app; [exact IH|]. intros _. now apply tagged_ends.
    + intros E. apply app_eq_nil in E. destruct E as [E _]. contradiction.
Qed.

Lemma build_ink (rs : list RegExp.result) :
  Forall (fun res => tagged (RegExp.matched res)) rs ->
  forall next st,
    ink (skipn next s) -> ink (fst (RegExp.build cb s next rs st)).
Proof.
  induction 1 as [|res rs H _ IH]; intros next st Hs; cbn [RegExp.build];
    [exact Hs|].
  pose proof (Hcb res st H) as T.
  destruct (cb res st) as [rep st1]. cbn [fst] in T.
  destruct (next <=? RegExp.index res); [|now apply IH].
  destruct (RegExp.build cb s _ rs st1) as [out st2]. cbn [fst].
  destruct (tagged_ink T) as (c & Hc & Sc). exists c. split; [|exact Sc].
  apply in_or_app. right. apply in_or_app. now left.
Qed.
End BuildEnds.

(** *** Replacing inside a tagged text *)

Lemma skipn_prefix (A : Type) (p t : list A) :
  skipn (length p) (p ++ t) = t.
Proof. induction p as [|a p IH]; [reflexivity|exact IH]. Qed.

Lemma replace_first_cases (s p r : str) :
  JS.replace_first s p r = s
  \/ exists pre post,
       s = pre ++ p ++ post /\ JS.replace_first s p r = pre ++ r ++ post.
Proof.
  induction s as [|c s IH]; cbn [JS.replace_first].
  - destruct p as [|a p]; [right|now left].
    exists [], []. cbn. now rewrite app_nil_r.
  - destruct (JS.starts_with p (c :: s)) eqn:E.
    + apply starts_with_iff in E. destruct E as [t E]. right.
      exists [], t. rewrite E. rewrite skipn_prefix. now split.
    + destruct IH as [IH|(pre & post & E1 & E2)].
      * left. now rewrite IH.
      * right. exists (c :: pre), post. rewrite E2. now rewrite E1 at 1.
Qed.


Lemma starts_lt_spec (t : str) :
  starts_lt t = true <-> exists w, t = LT :: w.
Proof.
  destruct t as [|c t]; cbn.
  - split; [discriminate|now intros [w E]].
  - rewrite N.eqb_eq. split.
    + intros ->. now exists t.
    + intros [w E]. now injection E.
Qed.

Lemma ends_ink_spec (t : str) :
  ends_ink t = true <-> exists w c, t = w ++ [c] /\ JS.is_space c = false.
Proof.
  unfold ends_ink. destruct (snoc_cases t) as [->|(u & d & ->)].
  - cbn. split; [discriminate|]. intros (w & c & E & _).
    now destruct w.
  - rewrite rev_app_distr. cbn [rev app]. rewrite negb_true_iff. split.
    + intros H. now exists u, d.
    + intros (w & c & E & H). apply app_inj_tail in E.
      destruct E as [_ E]. now subst.
Qed.

Lemma tagged_spec (t : str) :
  tagged t <-> starts_lt t = true /\ ends_ink t = true.
Proof. unfold tagged. now rewrite starts_lt_spec, ends_ink_spec. Qed.

(** Replacing the first [p] of a tagged text by [r] leaves it tagged,
    when [r] ends with no white space and either starts with [<] or
    stands for a [p] that does not. *)
Lemma tagged_replace_first (s p r : str) :
  tagged s -> p <> [] ->
  starts_lt r || negb (starts_lt p) = true -> ends_ink r = true ->
  tagged (JS.replace_first s p r).
Proof.
  intros T Hp Hs He.
  destruct (replace_first_cases s p r) as [->|(pre & post & E1 & E2)];
    [exact T|].
  rewrite E2. apply tagged_spec in T. destruct T as [Ts Te].
  apply tagged_spec. split.
  - destruct pre as [|c pre]; [|now rewrite E1 in Ts].
    cbn [app] in *. apply orb_true_iff in Hs. destruct Hs as [Hs|Hs].
    + destruct r; [discriminate|exact Hs].
    + destruct p as [|d p]; [congruence|]. rewrite E1 in Ts. cbn in Ts, Hs.
      rewrite Ts in Hs. discriminate.
  - destruct (snoc_cases post) as [->|(u & d & ->)].
    + rewrite app_nil_r. unfold ends_ink in *. rewrite rev_app_distr.
      destruct (rev r); [discriminate|exact He].
    + rewrite E1 in Te. unfold ends_ink in *.
      rewrite !app_assoc, rev_app_distr in Te |- *. exact Te.
Qed.

Ltac tagged_step :=
  apply tagged_replace_first;
  [|discriminate|vm_compute; reflexivity|vm_compute; reflexivity].

Lemma tagged_img (attrs mid : str) :
  tagged (lit "<img" ++ attrs ++ lit " alt=" ++ DQ ++ mid ++ DQ ++ lit ">").
Proof.
  split; [eexists; reflexivity|].
  exists (lit "<img" ++ attrs ++ lit " alt=" ++ DQ ++ mid ++ DQ), GT.
  split; [now rewrite <- !app_assoc|reflexivity].
Qed.

Lemma basic_replacers_tagged (src : str) :
  Forall (fun rl : flags * regex * Basic.Replacer =>
            first_is LT (snd (fst rl)) = true
            /\ last_is GT (snd (fst rl)) = true
            /\ forall res st, tagged (RegExp.matched res) ->
                 tagged (fst (snd rl res st)))
    (Basic.rules src).
Proof.
  unfold Basic.rules.
  repeat (apply Forall_cons;
          [split; [reflexivity|split; [reflexivity|]]; intros res st T;
           cbn [fst snd]|]);
    [| | | | |apply Forall_nil].
  - apply (tagged_img _ []).
  - cbn [Basic.fix_button fst]. now tagged_step.
  - unfold Basic.fix_a. destruct (JS.trim _); cbn [fst]; [|exact T].
    now tagged_step.
  - unfold Basic.fix_div. cbn [fst].
    repeat match goal with
           | |- context [if ?b then _ else _] => destruct b
           end;
      repeat tagged_step; exact T.
  - unfold Basic.fix_input. destruct (negb _); cbn [fst]; [|exact T].
    unfold Basic.input_patch. destruct (JS.endsWith _ _); now tagged_step.
Qed.

Lemma ai_patches_tagged (text : str) :
  Forall (fun rl : flags * regex * AI.Patch =>
            first_is LT (snd (fst rl)) = true
            /\ last_is GT (snd (fst rl)) = true
            /\ forall res st, tagged (RegExp.matched res) ->
                 tagged (fst (snd rl res st)))
    (AI.patches text).
Proof.
  unfold AI.patches.
  repeat (apply Forall_cons;
          [split; [reflexivity|split; [reflexivity|]]; intros res st T;
           cbn [fst snd]|]);
    [| | | | |apply Forall_nil].
  - apply tagged_img.
  - cbn [AI.patch_button fst]. now tagged_step.
  - unfold AI.patch_a. destruct (JS.trim _); cbn [fst]; [|exact T].
    now tagged_step.
  - unfold AI.patch_div. cbn [fst].
    repeat match goal with
           | |- context [if ?b then _ else _] => destruct b
           end;
      repeat tagged_step; exact T.
  - unfold AI.patch_input. destruct (negb _); cbn [fst]; [|exact T].
    unfold AI.input_patch. destruct (JS.endsWith _ _); now tagged_step.
Qed.

Lemma keeps_edges_refl (s : str) : keeps_edges s s.
Proof. split; auto. Qed.

Lemma keeps_edges_trans (s t u : str) :
  keeps_edges s t -> keeps_edges t u -> keeps_edges s u.
Proof. intros [A B] [C D]. split; auto. Qed.

(** One global replacement whose pattern starts with [<] and ends with
    [>]. *)
Lemma replace_keeps_edges (St : Type)
    (cb : RegExp.result -> St -> str * St) (fl : flags) (r : regex)
    (s : str) (st : St) :
  first_is LT r = true /\ last_is GT r = true
  /\ (forall res st', tagged (RegExp.matched res) ->
        tagged (fst (cb res st'))) ->
  keeps_edges s (fst (RegExp.replace cb fl r s st)).
Proof.
  intros (F & L & H). unfold RegExp.replace.
  pose proof (match_tagged fl r F L s) as M.
  split.
  - intros [S E]. split.
    + now apply build_starts.
    + now apply build_ends.
  - intros I. now apply build_ink.
Qed.

Lemma run_rules_edges (rls : list (flags * regex * Basic.Replacer)) :
  Forall (fun rl : flags * regex * Basic.Replacer =>
            first_is LT (snd (fst rl)) = true
            /\ last_is GT (snd (fst rl)) = true
            /\ forall res st, tagged (RegExp.matched res) ->
                 tagged (fst (snd rl res st))) rls ->
  forall cf, keeps_edges (fst cf) (fst (Basic.run_rules rls cf)).
Proof.
  unfold Basic.run_rules.
  induction 1 as [|[[fl re] cb] rls H _ IH]; intros cf; cbn [fold_left];
    [apply keeps_edges_refl|].
  eapply keeps_edges_trans; [|apply IH].
  unfold Basic.run_rule. cbn [fst snd] in H.
  now apply replace_keeps_edges.
Qed.

Lemma patches_edges (rls : list (flags * regex * AI.Patch)) :
  Forall (fun rl : flags * regex * AI.Patch =>
            first_is LT (snd (fst rl)) = true
            /\ last_is GT (snd (fst rl)) = true
            /\ forall res st, tagged (RegExp.matched res) ->
                 tagged (fst (snd rl res st))) rls ->
  forall s,
    keeps_edges s
      (fold_left
         (fun fixedCode (p : flags * regex * AI.Patch) =>
            let '(fl, re, cb) := p in
            fst (RegExp.replace cb fl re fixedCode tt))
         rls s).
Proof.
  induction 1 as [|[[fl re] cb] rls H _ IH]; intros s; cbn [fold_left];
    [apply keeps_edges_refl|].
  eapply keeps_edges_trans; [|apply IH].
  cbn [fst snd] in H. now apply replace_keeps_edges.
Qed.


(** ** A source that is not blank, a source without white space around *)

Lemma all_space_drop (s : str) :
  forallb JS.is_space s = true -> JS.drop_space s = [].
Proof.
  induction s as [|c s IH]; [reflexivity|]. cbn [forallb JS.drop_space].
  intros H. apply andb_true_iff in H. destruct H as [-> H]. now apply IH.
Qed.

Lemma not_all_space (s : str) : forallb JS.is_space s = false -> ink s.
Proof.
  induction s as [|c s IH]; [discriminate|]. cbn [forallb].
  destruct (JS.is_space c) eqn:E; cbn [andb].
  - intros H. destruct (IH H) as (d & Hd & Sd). exists d. split; [|exact Sd].
    now right.
  - intros _. exists c. split; [now left|exact E].
Qed.

Lemma ink_drop_space (s : str) : ink s -> ink (JS.drop_space s).
Proof.
  intros (c & Hc & Sc). destruct (drop_space_split s) as (w & E & F).
  rewrite E in Hc. apply in_app_or in Hc. destruct Hc as [Hc|Hc].
  - rewrite forallb_forall in F. rewrite (F c Hc) in Sc. discriminate.
  - now exists c.
Qed.

Lemma ink_rev (s : str) : ink s -> ink (rev s).
Proof. intros (c & Hc & Sc). exists c. split; [now apply in_rev in Hc|exact Sc]. Qed.

(** [trim] leaves something exactly when the text is not blank. *)
Lemma trim_ink (s : str) : JS.trim s <> [] <-> ink s.
Proof.
  split.
  - intros H. destruct (forallb JS.is_space s) eqn:E;
      [|now apply not_all_space].
    exfalso. apply H. unfold JS.trim. now rewrite (all_space_drop _ E).
  - intros H E. unfold JS.trim in E.
    apply ink_drop_space, ink_rev, ink_drop_space, ink_rev in H.
    rewrite E in H. now destruct H as (c & [] & _).
Qed.

(** X19. A source that is not blank never gives an empty code: both
    engines return a text that is not empty, so that [handleAnalyze],
    which analyses exactly the sources that are not blank, always shows
    the code of the result and never falls back to the source. *)
Theorem nonblank_stays (src : str) :
  JS.trim src <> [] ->
  code (Basic.fixAccessibility src) <> []
  /\ code (AI.fixAccessibilityWithAI src) <> []
  /\ exists a,
       Index.handleAnalyze src = Some a
       /\ Index.editedCode a = WithAI.code (Index.result a)
       /\ Index.editedCode a <> [].
Proof.
  intros H. pose proof H as I. apply trim_ink in I.
  assert (B : code (Basic.fixAccessibility src) <> []).
  { unfold Basic.fixAccessibility.
    pose proof (run_rules_edges (basic_replacers_tagged src) (src, []))
      as [_ K].
    destruct (Basic.run_rules _ _) as [c fs]. cbn [fst code] in *.
    apply trim_ink. now apply K. }
  assert (A : AI.applyFixes src
                (AI.enhanceWithAIAnalysis src (AI.performBasicAnalysis src))
              <> []).
  { unfold AI.applyFixes. apply trim_ink.
    now apply (patches_edges (ai_patches_tagged src)). }
  split; [exact B|]. split; [exact A|].
  unfold Index.handleAnalyze.
  destruct (JS.trim src) as [|c t]; [congruence|].
  eexists. split; [reflexivity|].
  cbn [Index.editedCode Index.result WithAI.fixAccessibilityWithAI
       WithAI.code Service.analyzeCode Service.fixedCode].
  destruct (AI.applyFixes src _) as [|d u]; [congruence|].
  split; [reflexivity|discriminate].
Qed.

Lemma nonblank_stays_witness :
  code (Basic.fixAccessibility (lit " <img> ")) <> [].
Proof.
  apply (@nonblank_stays (lit " <img> ")). vm_compute. discriminate.
Defined.

(** X20. On a source without white space at its ends, the final trim
    removes nothing: the code either engine returns has exactly as many
    lines as the source. *)
Theorem trimmed_source_keeps_lines (src : str) :
  trimmed src ->
  lineCount (code (Basic.fixAccessibility src)) = lineCount src
  /\ lineCount (code (AI.fixAccessibilityWithAI src)) = lineCount src.
Proof.
  intros T. unfold lineCount. rewrite !split_length. split; f_equal.
  - pose proof (basic_raw_newlines src) as N.
    pose proof (run_rules_edges (basic_replacers_tagged src) (src, []))
      as [K _].
    unfold Basic.fixAccessibility.
    destruct (Basic.run_rules _ _) as [c fs]. cbn [fst code] in *.
    now rewrite (trim_id (K T)).
  - pose proof (ai_raw_newlines src) as N.
    pose proof (patches_edges (ai_patches_tagged src) src) as [K _].
    unfold AI.fixAccessibilityWithAI, AI.applyFixes. cbn [code].
    now rewrite (trim_id (K T)).
Qed.

Lemma trimmed_source_keeps_lines_witness :
  lineCount (code (Basic.fixAccessibility
                     (lit "<p>" ++ [NL] ++ lit "<img></p>")))
  = lineCount (lit "<p>" ++ [NL] ++ lit "<img></p>").
Proof.
  apply (@trimmed_source_keeps_lines (lit "<p>" ++ [NL] ++ lit "<img></p>")).
  pose proof (trim_trimmed (lit "<p>" ++ [NL] ++ lit "<img></p>")) as T.
  assert (E : JS.trim (lit "<p>" ++ [NL] ++ lit "<img></p>")
              = lit "<p>" ++ [NL] ++ lit "<img></p>")
    by (vm_compute; reflexivity).
  rewrite E in T. exact T.
Defined.


(** ** The Changes tab *)

Lemma map_fst_combine_seq (A : Type) (l : list A) (a : nat) :
  map fst (combine (seq a (length l)) l) = seq a (length l).
Proof.
  revert a; induction l as [|x l IH]; intros a; [reflexivity|].
  cbn [length seq combine map fst]. now rewrite IH.
Qed.

Lemma line_or_empty_lines (pre ls : list str) :
  map (Basic.line_or_empty (pre ++ ls)) (seq (length pre) (length ls)) = ls.
Proof.
  revert pre; induction ls as [|l ls IH]; intros pre; [reflexivity|].
  cbn [length seq map]. rewrite line_or_empty_app. f_equal.
  specialize (IH (pre ++ [l])).
  rewrite <- app_assoc, length_app, Nat.add_1_r in IH. exact IH.
Qed.

Lemma line_or_empty_beyond (ls : list str) (a n : nat) :
  length ls <= a ->
  map (Basic.line_or_empty ls) (seq a n) = repeat [] n.
Proof.
  revert a; induction n as [|n IH]; intros a H; [reflexivity|].
  cbn [seq map repeat]. rewrite line_or_empty_past by exact H.
  f_equal. apply IH. lia.
Qed.

Lemma changes_fixed_lines (sourceCode editedCode : str) :
  lineCount editedCode <= lineCount sourceCode ->
  map fixed_line (Index.changes sourceCode editedCode)
  = JS.split NL editedCode
    ++ repeat [] (lineCount sourceCode - lineCount editedCode).
Proof.
  unfold lineCount, Index.changes. intros H.
  rewrite map_map. unfold fixed_line. cbn [fst snd].
  rewrite <- (map_map fst (Basic.line_or_empty (JS.split NL editedCode))).
  rewrite map_fst_combine_seq.
  replace (length (JS.split NL sourceCode))
    with (length (JS.split NL editedCode)
          + (length (JS.split NL sourceCode)
             - length (JS.split NL editedCode))) at 1 by lia.
  rewrite seq_app, map_app. f_equal.
  - apply (line_or_empty_lines []).
  - apply line_or_empty_beyond. cbn. lia.
Qed.

(** X21. The Changes tab compares line [i] of the source with line [i]
    of the edited code and has one row per source line.  Right after an
    analysis no line of the fixed code is left out: the lines shown on
    the right are the lines of the code, in order, followed by as many
    empty lines as the final trim took away; none when the source has no
    white space at its ends. *)
Theorem changes_show_all (src : str) :
  let edited := code (AI.fixAccessibilityWithAI src) in
  map fixed_line (Index.changes src edited)
  = JS.split NL edited ++ repeat [] (lineCount src - lineCount edited)
  /\ map (fun row => snd (fst (fst row))) (Index.changes src edited)
     = JS.split NL src
  /\ (trimmed src ->
      map fixed_line (Index.changes src edited) = JS.split NL edited).
Proof.
  cbv zeta.
  assert (L : lineCount (code (AI.fixAccessibilityWithAI src))
              <= lineCount src).
  { unfold lineCount. rewrite !split_length.
    unfold AI.fixAccessibilityWithAI, AI.applyFixes. cbn [code].
    pose proof (ai_raw_newlines src) as N.
    match goal with
    | |- S (newlines (JS.trim ?x)) <= _ => pose proof (newlines_trim x)
    end. lia. }
  split; [now apply changes_fixed_lines|]. split.
  - unfold Index.changes. rewrite map_map. cbn [fst snd].
    rewrite <- (map_map snd (fun l : str => l)), map_id.
    generalize (JS.split NL src) 0. intros l.
    induction l as [|x l IH]; intros a; [reflexivity|].
    cbn [length seq combine map snd]. now rewrite IH.
  - intros T. rewrite (changes_fixed_lines _ _ L).
    pose proof (patches_edges (ai_patches_tagged src) src) as [K _].
    pose proof (ai_raw_newlines src) as N.
    unfold lineCount. rewrite !split_length.
    unfold AI.fixAccessibilityWithAI, AI.applyFixes. cbn [code].
    rewrite (trim_id (K T)), N, Nat.sub_diag. cbn [repeat].
    apply app_nil_r.
Qed.

Lemma changes_show_all_witness :
  map fixed_line
    (Index.changes (lit "<p>" ++ [NL] ++ lit "<img></p>")
       (code (AI.fixAccessibilityWithAI
                (lit "<p>" ++ [NL] ++ lit "<img></p>"))))
  = JS.split NL
      (code (AI.fixAccessibilityWithAI
               (lit "<p>" ++ [NL] ++ lit "<img></p>"))).
Proof.
  apply (@changes_show_all (lit "<p>" ++ [NL] ++ lit "<img></p>")).
  pose proof (trim_trimmed (lit "<p>" ++ [NL] ++ lit "<img></p>")) as T.
  assert (E : JS.trim (lit "<p>" ++ [NL] ++ lit "<img></p>")
              = lit "<p>" ++ [NL] ++ lit "<img></p>")
    by (vm_compute; reflexivity).
  rewrite E in T. exact T.
Defined.


(** ** A rewritten tag is not matched again *)

(** The lookahead finds [key=] in an attribute text that holds it after
    a code unit that is no word character, with no [>] before it. *)
Lemma lookahead_found (fl : flags) (KEY : regex) (key : str) (x : mstate)
    (a : str) (c : char) (w t : str) :
  finds fl KEY key ->
  rest x = (a ++ [c]) ++ key ++ w ++ lit "=" ++ t ->
  Forall (fun d => d <> 62%N) (a ++ [c]) ->
  JS.is_word c = false ->
  Forall (fun d => JS.is_space d = true) w ->
  RegExp.m fl (lookahead KEY) x (fun y => Some y) <> None.
Proof.
  intros [(kc & key' & Ek & Hkc) HK] Hrest Ha Hc Hw. unfold lookahead.
  rewrite cat_cons, m_seq. unfold star at 1, notc.
  change (map CChar (lit ">")) with [CChar 62%N].
  rewrite m_star_one.
  eapply (@repeat_one_complete _ _ _ (a ++ [c]) x);
    [now apply forallb_not_gt|exact Hrest|].
  pose proof (@feed_rest _ _ _ Hrest) as Ry.
  pose proof (feed_prev a c x) as Py.
  set (y := feed x (a ++ [c])) in *.
  rewrite cat_cons, m_seq. cbn [RegExp.m].
  unfold RegExp.is_boundary. rewrite Ry, Py. cbn [RegExp.word_at].
  rewrite Hc, Ek. cbn [hd_error app xorb RegExp.word_at]. rewrite Hkc.
  rewrite cat_cons, m_seq. apply (HK y _ _ Ry).
  pose proof (@feed_rest _ _ _ Ry) as Rz.
  set (z := feed y key) in *.
  rewrite cat_cons, m_seq. unfold star, sp. rewrite m_star_one.
  eapply (@repeat_one_complete _ _ _ w z);
    [now apply forallb_space|exact Rz|].
  pose proof (@feed_rest _ _ _ Rz) as Ru.
  rewrite cat_cons, m_seq. unfold L.
  rewrite (@m_literal fl _ _ _ _ Ru). discriminate.
Qed.

Lemma finds_literal (fl : flags) (key : str) (kc : char) (key' : str) :
  key = kc :: key' -> JS.is_word kc = true ->
  finds fl (cat (map Chr key)) key.
Proof.
  intros E H. split; [now exists kc, key'|].
  intros y t k R K. now rewrite (@m_literal fl key y t k R).
Qed.

Lemma finds_alt_left (fl : flags) (a b : regex) (key : str) :
  finds fl a key -> finds fl (Alt a b) key.
Proof.
  intros [H K]. split; [exact H|]. intros y t k R N. cbn [RegExp.m].
  specialize (K y t k R N). destruct (RegExp.m fl a y k); [discriminate|].
  contradiction.
Qed.

Lemma finds_alt_right (fl : flags) (a b : regex) (key : str) :
  finds fl b key -> finds fl (Alt a b) key.
Proof.
  intros [H K]. split; [exact H|]. intros y t k R N.
  apply alt_right_complete. now apply (K y t k R N).
Qed.



(** *** What the image rule wrote *)

Lemma written_not_matched (fl : flags) (r : regex) (pre t : str) :
  (forall p pv, RegExp.match_at fl r p pv t = None) ->
  Forall (fun res => RegExp.index res <> length pre)
    (RegExp.matchAll fl r (pre ++ t)).
Proof.
  intros H. apply Forall_forall. intros res Hin Hidx.
  destruct (@scan_In_match _ _ _ [] 0 None 0 res eq_refl Hin)
    as (pv' & y & E).
  cbn [app] in E.
  rewrite Hidx, skipn_app, skipn_all, Nat.sub_diag in E.
  cbn [skipn app] in E. rewrite H in E. discriminate.
Qed.



(** *** What the input rule wrote *)

Lemma chr_eq_text_caseless (fl : flags) (p c : char) :
  caseless c = true -> RegExp.chr_eq fl p c = true -> p = c.
Proof.
  unfold caseless, RegExp.chr_eq, JS.canonicalize. intros Hc.
  apply negb_true_iff, orb_false_iff in Hc. destruct Hc as [Hu Hl].
  rewrite Hl. destruct (ignoreCase fl).
  - destruct ((97 <=? p) && (p <=? 122))%N eqn:Hp.
    + rewrite N.eqb_eq. intros <-.
      apply andb_true_iff in Hp. destruct Hp as [H1 H2].
      apply N.leb_le in H1, H2.
      apply andb_false_iff in Hu.
      destruct Hu as [Hu|Hu]; apply N.leb_gt in Hu; lia.
    + rewrite N.eqb_eq. congruence.
  - rewrite N.eqb_eq. congruence.
Qed.

Lemma spells_caseless (fl : flags) (w w' : str) :
  forallb caseless w = true -> spells fl w w' -> w' = w.
Proof.
  intros H S. induction S as [|p c w w' E _ IH]; [reflexivity|].
  cbn [forallb] in H. apply andb_true_iff in H. destruct H as [Hp Hw].
  now rewrite (@chr_eq_caseless fl p c Hp E), (IH Hw).
Qed.

Lemma spells_no_gt (fl : flags) (w w' : str) :
  Forall (fun d => d <> 62%N) w -> spells fl w w' ->
  Forall (fun d => d <> 62%N) w'.
Proof.
  intros H S. induction S as [|p c w w' E _ IH]; [constructor|].
  inversion H as [|? ? Hp Hw]; subst. constructor; [|now apply IH].
  intros ->. apply Hp.
  now apply (@chr_eq_text_caseless fl p 62%N eq_refl).
Qed.

Lemma space_no_gt (ws : str) :
  Forall (fun d => JS.is_space d = true) ws ->
  Forall (fun d => d <> 62%N) ws.
Proof.
  apply Forall_impl. intros d H ->. discriminate.
Qed.

Lemma forallb_space_inv (ws : str) :
  forallb (RegExp.cls_has false [CSpace]) ws = true ->
  Forall (fun d => JS.is_space d = true) ws.
Proof.
  induction ws as [|d ws IH]; cbn [forallb]; [constructor|].
  rewrite andb_true_iff. intros [H K]. constructor; [|now apply IH].
  cbn in H. now rewrite orb_false_r in H.
Qed.

(** A literal is matched in any spelling the flags allow. *)
Lemma m_spelled (fl : flags) (w w' : str) :
  spells fl w w' ->
  forall x t k,
    rest x = w' ++ t ->
    RegExp.m fl (cat (map Chr w)) x k = k (feed x w').
Proof.
  induction 1 as [|p c w w' E _ IH]; intros x t k H; [reflexivity|].
  cbn [map cat fold_right RegExp.m feed]. unfold RegExp.one.
  rewrite H. cbn [app]. rewrite E. cbn [tl].
  now apply (IH _ t).
Qed.



Lemma replace_first_gt (pre post r : str) :
  Forall (fun d => d <> 62%N) pre ->
  JS.replace_first (pre ++ lit ">" ++ post) (lit ">") r = pre ++ r ++ post.
Proof.
  induction 1 as [|c pre Hc _ IH]; [reflexivity|].
  cbn [app JS.replace_first JS.starts_with lit map list_ascii_of_string].
  change (N_of_ascii ">") with 62%N.
  apply N.eqb_neq in Hc. rewrite N.eqb_sym, Hc. cbn [andb].
  f_equal. exact IH.
Qed.

Lemma replace_first_slash_gt (pre post r : str) :
  Forall (fun d => d <> 62%N) pre ->
  JS.replace_first (pre ++ lit "/>" ++ post) (lit "/>") r
  = pre ++ r ++ post.
Proof.
  induction 1 as [|c pre Hc F IH]; [reflexivity|].
  assert (E : JS.starts_with (lit "/>") (c :: pre ++ lit "/>" ++ post)
              = false).
  { cbn [JS.starts_with lit map list_ascii_of_string].
    destruct (N_of_ascii "/" =? c)%N; [|reflexivity]. cbn [andb].
    destruct F as [|d pre Hd _]; cbn [app].
    - reflexivity.
    - change (N_of_ascii ">") with 62%N.
      apply N.eqb_neq in Hd. now rewrite N.eqb_sym, Hd. }
  change ((c :: pre) ++ lit "/>" ++ post)
    with (c :: pre ++ lit "/>" ++ post).
  unfold JS.replace_first at 1. fold JS.replace_first.
  rewrite E. cbn [app]. f_equal. exact IH.
Qed.

Lemma endsWith_app (a p : str) : JS.endsWith (a ++ p) p = true.
Proof.
  unfold JS.endsWith. rewrite rev_app_distr. apply starts_with_iff.
  now exists (rev a).
Qed.

(** A text that ends with the closing tag of an input, in any case, does
    not end with [/>]. *)
Lemma closing_tag_end (a x : str) :
  spells gi (lit "</input>") x -> JS.endsWith (a ++ x) (lit "/>") = false.
Proof.
  intros S.
  change (lit "</input>") with (lit "</inpu" ++ [116%N; 62%N]) in S.
  apply Forall2_app_inv_l in S.
  destruct S as (x1 & x2 & _ & S2 & ->).
  inversion S2 as [|? ct ? x3 Et S3]; subst.
  inversion S3 as [|? cg ? x4 Eg S4]; subst. inversion S4; subst.
  unfold JS.endsWith. rewrite !rev_app_distr. cbn [rev app].
  change (rev (lit "/>")) with [62%N; 47%N]. cbn [JS.starts_with].
  destruct (N.eqb_spec 47%N ct) as [E|E];
    [|now rewrite andb_false_r].
  subst ct. exfalso.
  pose proof (@chr_eq_text_caseless gi 116%N 47%N eq_refl Et).
  discriminate.
Qed.

(** What the input rule writes, for each shape of a match. *)
Lemma input_patched (lab mt w' u ws : str) (x : option str) :
  input_match mt w' u ws x ->
  input_patch_with lab mt = input_written lab w' u ws x.
Proof.
  intros (Sp & Fu & Fw & H). unfold input_patch_with, input_written.
  assert (Fp : Forall (fun d => d <> 62%N) w')
    by (apply (@spells_no_gt gi (lit "<input")); [|exact Sp];
        repeat constructor; discriminate).
  destruct x as [x|].
  - destruct H as [Sx ->].
    replace (w' ++ u ++ lit ">" ++ ws ++ x)
      with ((w' ++ u ++ lit ">" ++ ws) ++ x)
      by now rewrite <- !app_assoc.
    rewrite (closing_tag_end _ Sx).
    replace ((w' ++ u ++ lit ">" ++ ws) ++ x)
      with ((w' ++ u) ++ lit ">" ++ ws ++ x)
      by now rewrite <- !app_assoc.
    rewrite replace_first_gt by (apply Forall_app; now split).
    now rewrite <- !app_assoc.
  - subst mt.
    replace (w' ++ u ++ ws ++ lit "/>")
      with ((w' ++ u ++ ws) ++ lit "/>")
      by now rewrite <- !app_assoc.
    rewrite endsWith_app.
    replace ((w' ++ u ++ ws) ++ lit "/>")
      with ((w' ++ u ++ ws) ++ lit "/>" ++ [])
      by now rewrite app_nil_r.
    rewrite replace_first_slash_gt
      by (repeat (apply Forall_app; split); auto; now apply space_no_gt).
    now rewrite app_nil_r, <- !app_assoc.
Qed.




(** ** The input tags the fifth rule finds *)

Lemma spells_length (fl : flags) (w w' : str) :
  spells fl w w' -> length w' = length w.
Proof. intros H. symmetry. exact (Forall2_length H). Qed.

Lemma spelled_spells (key k t : str) :
  spells gi key k -> spelled key (k ++ t) = true.
Proof.
  induction 1 as [|p c key k E _ IH]; [reflexivity|].
  cbn [app spelled]. now rewrite E, IH.
Qed.

Lemma assigns_intro (w t : str) :
  Forall (fun d => JS.is_space d = true) w ->
  assigns (w ++ lit "=" ++ t) = true.
Proof.
  induction 1 as [|d w Hd _ IH]; [reflexivity|].
  cbn [app assigns]. now rewrite Hd.
Qed.

Lemma names_intro (keys : list str) (key k w t : str) :
  In key keys -> spells gi key k -> k <> [] ->
  Forall (fun d => JS.is_space d = true) w ->
  forall a word,
    word_after word a = false ->
    names keys word (a ++ k ++ w ++ lit "=" ++ t) = true.
Proof.
  intros Hin Sp Hk Hw a; induction a as [|c a IH]; intros word H.
  - cbn [word_after] in H. subst word. cbn [app].
    destruct k as [|c k']; [contradiction|].
    change ((c :: k') ++ w ++ lit "=" ++ t)
      with (c :: k' ++ w ++ lit "=" ++ t).
    cbn [names negb andb].
    apply orb_true_iff. left. apply existsb_exists. exists key.
    split; [exact Hin|].
    change (c :: k' ++ w ++ lit "=" ++ t)
      with ((c :: k') ++ w ++ lit "=" ++ t).
    rewrite (spelled_spells _ Sp). cbn [andb].
    rewrite <- (spells_length Sp), skipn_app, skipn_all, Nat.sub_diag.
    cbn [skipn app]. now apply assigns_intro.
  - cbn [app names]. cbn [word_after] in H. rewrite (IH _ H).
    apply orb_true_r.
Qed.

Lemma spelled_split (key : str) :
  forall s, spelled key s = true ->
            exists k s2, s = k ++ s2 /\ spells gi key k.
Proof.
  induction key as [|p key IH]; intros s H.
  - exists [], s. split; [reflexivity|constructor].
  - destruct s as [|c s]; [discriminate|]. cbn [spelled] in H.
    apply andb_true_iff in H. destruct H as [E H].
    destruct (IH s H) as (k & s2 & -> & Sk).
    exists (c :: k), s2. split; [reflexivity|now constructor].
Qed.

Lemma assigns_split (s : str) :
  assigns s = true ->
  exists w t, s = w ++ lit "=" ++ t
              /\ Forall (fun d => JS.is_space d = true) w.
Proof.
  induction s as [|c s IH]; [discriminate|]. cbn [assigns].
  destruct (JS.is_space c) eqn:Sc.
  - intros H. destruct (IH H) as (w & t & -> & F).
    exists (c :: w), t. split; [reflexivity|now constructor].
  - intros H. apply N.eqb_eq in H. subst c.
    exists [], s. split; [reflexivity|constructor].
Qed.

(** What [names] says: a key of [keys], in any case, stands in the text
    right after a code unit that is not a word character, and is
    followed by white space and [=]. *)
Lemma names_iff (keys : list str) (word : bool) (s : str) :
  Forall (fun key => key <> []) keys ->
  names keys word s = true
  <-> exists a key k w t,
        s = a ++ k ++ w ++ lit "=" ++ t
        /\ In key keys /\ spells gi key k
        /\ Forall (fun d => JS.is_space d = true) w
        /\ word_after word a = false.
Proof.
  intros NE. split.
  - revert word. induction s as [|c s IH]; intros word H; [discriminate|].
    cbn [names] in H. apply orb_true_iff in H. destruct H as [H|H].
    + apply andb_true_iff in H. destruct H as [W H].
      apply negb_true_iff in W. apply existsb_exists in H.
      destruct H as (key & Hin & H).
      apply andb_true_iff in H. destruct H as [Sp As].
      destruct (spelled_split _ _ Sp) as (k & s2 & E & Sk).
      rewrite E, <- (spells_length Sk), skipn_app, skipn_all,
        Nat.sub_diag in As.
      cbn [skipn app] in As.
      destruct (assigns_split _ As) as (w & t & -> & Fw).
      exists [], key, k, w, t. now repeat split.
    + destruct (IH _ H) as (a & key & k & w & t & -> & Hin & Sk & Fw & Wa).
      exists (c :: a), key, k, w, t. now repeat split.
  - intros (a & key & k & w & t & -> & Hin & Sk & Fw & Wa).
    apply (@names_intro keys key k w t Hin Sk); auto.
    intros ->. inversion Sk as [E|]; subst.
    exact (proj1 (Forall_forall _ _) NE _ Hin eq_refl).
Qed.

Example names_examples :
  names input_keys true (lit " type='text' ") = false
  /\ names input_keys true (lit " hidden ") = false
  /\ names input_keys true (lit " aria-labelledby='t' ") = false
  /\ names input_keys true (lit " ID = 'a' ") = true
  /\ names input_keys true (lit " data-id='7' ") = true
  /\ names input_keys true (lit "id='7' ") = false.
Proof. repeat split. Qed.

(** The state a run of code units leads to, and the code unit before
    it. *)
Lemma den_run_prev (ok : char -> bool) (x y : mstate) :
  iter (den_one ok) x y ->
  exists u, reaches x u y /\ forallb ok u = true
            /\ RegExp.word_at (prev y)
               = word_after (RegExp.word_at (prev x)) u.
Proof.
  induction 1 as [x|x z y (c & t & R & O & ->) _ (u & [R' P'] & F & W)].
  - exists []. repeat split. simpl. lia.
  - exists (c :: u). repeat split.
    + simpl in R'. now rewrite R, R'.
    + simpl in P'. simpl. lia.
    + simpl. now rewrite O, F.
    + exact W.
Qed.

(** A text free of [>] that does not end with a slash, found at the
    start of an attribute text followed by [/>] or by [>], lies within
    the attribute text. *)
Lemma within_attrs (big body t' r : str) (slash : bool) :
  Forall (fun d => d <> 62%N) big ->
  (forall b, big <> b ++ lit "/") ->
  body ++ (if slash then lit "/>" else lit ">") ++ r = big ++ t' ->
  exists t3, body = big ++ t3.
Proof.
  revert big. induction body as [|b body IH]; intros big F NS E.
  - destruct big as [|c big]; [now exists []|]. exfalso.
    inversion F as [|? ? Hc Hbig]; subst.
    destruct slash; cbn in E; injection E as E1 E2.
    + destruct big as [|d big].
      * apply (NS []). now rewrite <- E1.
      * inversion Hbig as [|? ? Hd _]; subst. cbn in E2.
        injection E2 as E2 _. now apply Hd.
    + now apply Hc.
  - destruct big as [|c big]; [now exists (b :: body)|].
    cbn in E. injection E as -> E.
    inversion F as [|? ? _ Hbig]; subst.
    destruct (IH big Hbig) as [t3 ->]; [|exact E|now exists t3].
    intros b' ->. apply (NS (c :: b')). reflexivity.
Qed.

Lemma chr_eq_letter (p c : char) :
  ((97 <=? p) && (p <=? 122))%N = true ->
  RegExp.chr_eq gi p c = true -> JS.is_word c = true.
Proof.
  unfold RegExp.chr_eq, JS.canonicalize, JS.is_word. cbn [ignoreCase gi].
  intros Hp. rewrite Hp. apply andb_true_iff in Hp. destruct Hp as [P1 P2].
  apply N.leb_le in P1, P2. intros E.
  destruct ((97 <=? c) && (c <=? 122))%N eqn:Hc.
  - now rewrite orb_true_r.
  - apply N.eqb_eq in E.
    assert (H1 : (65 <=? c)%N = true) by (apply N.leb_le; lia).
    assert (H2 : (c <=? 90)%N = true) by (apply N.leb_le; lia).
    now rewrite H1, H2, orb_true_r.
Qed.

Lemma space_not_gt (d : char) : JS.is_space d = true -> d <> 62%N.
Proof. intros H ->. discriminate. Qed.

(** The lookahead of the input pattern finds nothing in an attribute
    text that names neither aria-label nor id. *)
Lemma input_lookahead_fails (x : mstate) (body r : str) (slash : bool) :
  rest x = body ++ (if slash then lit "/>" else lit ">") ++ r ->
  RegExp.word_at (prev x) = true ->
  names input_keys true body = false ->
  RegExp.m gi (lookahead (Alt (L "aria-label") (L "id"))) x
    (fun y => Some y) = None.
Proof.
  intros Hrest Hprev Hn.
  destruct (RegExp.m gi _ x _) as [z|] eqn:E; [exfalso|reflexivity].
  destruct (m_sound _ _ _ _ E) as (y & D & _). clear E.
  unfold lookahead in D. cbn [cat fold_right den] in D.
  destruct D as (z1 & D1 & z2 & [-> B] & z3 & DK & z4 & D4 & z5 & D5 & ->).
  destruct (den_run_prev D1) as (a & [Ra _] & Fa & Wa).
  assert (K : exists key k,
            In key input_keys /\ spells gi key k /\ reaches z1 k z3
            /\ exists p, hd_error key = Some p
                         /\ ((97 <=? p) && (p <=? 122))%N = true).
  { destruct DK as [DK|DK];
      destruct (den_literal _ _ _ _ DK) as (k & Rk & Sk & _).
    - exists (lit "aria-label"), k. split; [now left|].
      split; [exact Sk|]. split; [exact Rk|]. now exists 97%N.
    - exists (lit "id"), k. split; [right; now left|].
      split; [exact Sk|]. split; [exact Rk|]. now exists 105%N. }
  destruct K as (key & k & Hin & Sk & [Rk _] & p & Hp & Lp).
  destruct (den_run D4) as (w & [Rw _] & Fw & _).
  destruct (den_literal gi (lit "=") _ _ D5) as (e & [Re _] & Se & _).
  apply (@spells_caseless gi (lit "=")) in Se; [|reflexivity]. subst e.
  assert (Hk : exists c k', k = c :: k' /\ JS.is_word c = true).
  { destruct Sk as [|q c key' k' Eq Sk']; [discriminate|].
    cbn in Hp. injection Hp as ->. exists c, k'.
    split; [reflexivity|]. now apply (chr_eq_letter p c). }
  destruct Hk as (c & k' & -> & Wc).
  unfold RegExp.is_boundary in B. rewrite Rk in B.
  cbn [app hd_error RegExp.word_at] in B. rewrite Wc, Wa, Hprev in B.
  apply xorb_move_l_r_2 in B. cbn in B.
  set (big := a ++ (c :: k') ++ w ++ lit "=").
  assert (Hbig : rest x = big ++ rest z5).
  { unfold big. rewrite Ra, Rk, Rw, Re. now rewrite <- !app_assoc. }
  destruct (@within_attrs big body (rest z5) r slash) as [t3 Eb].
  - unfold big. repeat (apply Forall_app; split).
    + now apply forallb_not_gt_inv.
    + apply (@spells_no_gt gi key); [|exact Sk].
      destruct Hin as [<-|[<-|[]]]; repeat constructor; discriminate.
    + apply forallb_space_inv in Fw. revert Fw. apply Forall_impl.
      intros d. apply space_not_gt.
    + repeat constructor. discriminate.
  - intros b Eb. unfold big in Eb.
    rewrite !app_assoc in Eb. apply app_inj_tail in Eb.
    destruct Eb as [_ Eb]. discriminate Eb.
  - now rewrite <- Hrest.
  - rewrite Eb in Hn. unfold big in Hn.
    rewrite <- !app_assoc in Hn.
    rewrite (@names_intro input_keys key (c :: k') w t3 Hin Sk) in Hn;
      [discriminate|discriminate| |exact B].
    now apply forallb_space_inv.
Qed.

Lemma feed_pos (a : str) : forall x, pos (feed x a) = pos x + length a.
Proof.
  induction a as [|c a IH]; intros x; simpl; [lia|].
  rewrite IH. simpl. lia.
Qed.

Lemma feed_cons (x : mstate) (c : char) (a t : str) :
  rest x = c :: t -> feed x (c :: a) = feed (RegExp.advance x c t) a.
Proof. intros H. simpl. now rewrite H. Qed.

(** A lazy star over single code units stops at the first place where
    what follows the star succeeds. *)
Lemma repeat_lazy_first (ok : char -> bool) (k : RegExp.Cont) (z : mstate)
    (a : str) :
  forall x t,
    forallb ok a = true -> rest x = a ++ t ->
    (forall a1 a2, a = a1 ++ a2 -> a2 <> [] -> k (feed x a1) = None) ->
    k (feed x a) = Some z ->
    RegExp.repeat (RegExp.one ok) false k (length (rest x)) x = Some z.
Proof.
  induction a as [|c a IH]; intros x t Hok Hrest Hfail Hk.
  - simpl in Hk. destruct (length (rest x)); simpl; now rewrite Hk.
  - simpl in Hok. apply andb_true_iff in Hok. destruct Hok as [Hc Ha].
    pose proof (Hfail [] (c :: a) eq_refl ltac:(discriminate)) as K0.
    simpl in K0. rewrite Hrest. cbn [app length RegExp.repeat].
    rewrite K0. unfold RegExp.one at 1. rewrite Hrest. cbn [app].
    rewrite Hc. cbn [pos RegExp.advance].
    replace (S (pos x) =? pos x) with false
      by (symmetry; apply Nat.eqb_neq; lia).
    apply (IH (RegExp.advance x c (a ++ t)) t Ha eq_refl).
    + intros a1 a2 E N.
      rewrite <- (@feed_cons x c a1 (a ++ t)) by exact Hrest.
      apply (Hfail (c :: a1) a2); [now rewrite E|exact N].
    + rewrite <- (@feed_cons x c a (a ++ t)) by exact Hrest. exact Hk.
Qed.

(** A greedy star over single code units goes to the end of the run
    when what follows the star succeeds there. *)
Lemma repeat_greedy_end (ok : char -> bool) (k : RegExp.Cont) (z : mstate)
    (a : str) :
  forall x t,
    forallb ok a = true -> rest x = a ++ t ->
    match t with [] => True | d :: _ => ok d = false end ->
    k (feed x a) = Some z ->
    RegExp.repeat (RegExp.one ok) true k (length (rest x)) x = Some z.
Proof.
  induction a as [|c a IH]; intros x t Hok Hrest Hend Hk.
  - simpl in Hk, Hrest. destruct (length (rest x)) eqn:L; simpl;
      [exact Hk|].
    unfold RegExp.one. rewrite Hrest.
    destruct t as [|d t]; [exact Hk|]. now rewrite Hend.
  - simpl in Hok. apply andb_true_iff in Hok. destruct Hok as [Hc Ha].
    rewrite Hrest. cbn [app length RegExp.repeat].
    unfold RegExp.one at 1. rewrite Hrest. cbn [app].
    rewrite Hc. cbn [pos RegExp.advance].
    replace (S (pos x) =? pos x) with false
      by (symmetry; apply Nat.eqb_neq; lia).
    assert (R : RegExp.repeat (RegExp.one ok) true k (length (a ++ t))
                  (RegExp.advance x c (a ++ t)) = Some z).
    { apply (IH (RegExp.advance x c (a ++ t)) t Ha eq_refl Hend).
      rewrite <- (@feed_cons x c a (a ++ t)) by exact Hrest. exact Hk. }
    now rewrite R.
Qed.

(** An attribute text, cut before its white space at the end. *)
Lemma trailing_space (s : str) :
  exists u ws,
    s = u ++ ws
    /\ Forall (fun d => JS.is_space d = true) ws
    /\ forall u' c, u = u' ++ [c] -> JS.is_space c = false.
Proof.
  induction s as [|c s IH] using rev_ind.
  - exists [], []. repeat split; [constructor|].
    intros u' c E. now destruct u'.
  - destruct IH as (u & ws & -> & F & N).
    destruct (JS.is_space c) eqn:Sc.
    + exists u, (ws ++ [c]). repeat split.
      * now rewrite app_assoc.
      * apply Forall_app. split; [exact F|]. now repeat constructor.
      * exact N.
    + exists ((u ++ ws) ++ [c]), []. repeat split.
      * now rewrite app_nil_r.
      * constructor.
      * intros u' d E. apply app_inj_tail in E. destruct E as [_ <-].
        exact Sc.
Qed.

(** White space and [/>] are not found before the end of an attribute
    text whose last code unit is not white space. *)
Lemma no_early_close (sp' : str) :
  forall a c w r t,
    Forall (fun d => JS.is_space d = true) sp' ->
    Forall (fun d => d <> 62%N) (a ++ [c]) ->
    JS.is_space c = false ->
    Forall (fun d => d <> 62%N) w ->
    (a ++ [c]) ++ w ++ lit "/>" ++ r = sp' ++ lit "/>" ++ t -> False.
Proof.
  induction sp' as [|s sp' IH]; intros a c w r t Fs Fa Hc Fw E.
  - cbn [app] in E.
    destruct a as [|e a]; cbn in E.
    + injection E as -> E. destruct w as [|d w]; cbn in E.
      * discriminate E.
      * injection E as -> _. inversion Fw as [|? ? Hd _]. now apply Hd.
    + injection E as -> E. inversion Fa as [|? ? _ Fa']; subst.
      destruct a as [|d a]; cbn in E; injection E as -> _;
        inversion Fa' as [|? ? Hd _]; now apply Hd.
  - inversion Fs as [|? ? Hs Fs']; subst.
    destruct a as [|e a]; cbn in E; injection E as -> E.
    + congruence.
    + inversion Fa as [|? ? _ Fa']; subst.
      now apply (IH a c w r t).
Qed.

(** With a closing tag: white space and [/>] found in the attribute text
    means that it ends with a slash. *)
Lemma early_close_slash (sp' : str) :
  forall a r t,
    Forall (fun d => JS.is_space d = true) sp' ->
    Forall (fun d => d <> 62%N) a ->
    a ++ lit ">" ++ r = sp' ++ lit "/>" ++ t -> a = sp' ++ lit "/".
Proof.
  induction sp' as [|s sp' IH]; intros a r t Fs Fa E.
  - cbn [app] in E. destruct a as [|e a]; cbn in E; [discriminate E|].
    injection E as -> E. inversion Fa as [|? ? _ Fa']; subst.
    destruct a as [|d a]; [reflexivity|]. cbn in E. injection E as -> _.
    inversion Fa' as [|? ? Hd _]. now contradiction Hd.
  - inversion Fs as [|? ? Hs Fs']; subst.
    destruct a as [|e a]; cbn in E; injection E as <- E.
    + discriminate Hs.
    + inversion Fa as [|? ? _ Fa']; subst. cbn [app]. f_equal.
      now apply (IH a r t).
Qed.

Lemma m_neglook (fl : flags) (a : regex) (x : mstate) (k : RegExp.Cont) :
  RegExp.m fl (NegLook a) x k
  = match RegExp.m fl a x (fun y => Some y) with
    | Some _ => None
    | None => k x
    end.
Proof. reflexivity. Qed.

Lemma m_group (fl : flags) (n : nat) (a : regex) (x : mstate)
    (k : RegExp.Cont) :
  RegExp.m fl (Group n a) x k
  = RegExp.m fl a x
      (fun y => k (RegExp.set_cap n (firstn (pos y - pos x) (rest x)) y)).
Proof. reflexivity. Qed.

Lemma m_alt (fl : flags) (a b : regex) (x : mstate) (k : RegExp.Cont) :
  RegExp.m fl (Alt a b) x k
  = match RegExp.m fl a x k with
    | Some z => Some z
    | None => RegExp.m fl b x k
    end.
Proof. reflexivity. Qed.

(** The end of the input pattern is not found inside the attribute text
    of a self-closed tag, before its white space at the end. *)
Lemma input_tail_fails_inside (y : mstate) (a : str) (c : char)
    (w r : str) :
  rest y = (a ++ [c]) ++ w ++ lit "/>" ++ r ->
  Forall (fun d => d <> 62%N) (a ++ [c]) ->
  JS.is_space c = false ->
  Forall (fun d => d <> 62%N) w ->
  RegExp.m gi input_tail y (fun z => Some z) = None.
Proof.
  intros Hrest Fa Hc Fw.
  destruct (RegExp.m gi input_tail y _) as [z|] eqn:E;
    [exfalso|reflexivity].
  destruct (m_sound _ _ _ _ E) as (y' & D & _). clear E.
  unfold input_tail in D. cbn [cat fold_right den] in D.
  destruct D as (z' & [D|D] & ->).
  - destruct D as (z1 & Dw & z2 & Dl & ->).
    destruct (den_run Dw) as (ws & [Rw _] & Fws & _).
    destruct (den_literal _ _ _ _ Dl) as (l & [Rl _] & Sl & _).
    apply (@spells_caseless gi (lit "/>")) in Sl; [|reflexivity]. subst l.
    rewrite Rw, Rl in Hrest. symmetry in Hrest.
    apply (@no_early_close ws a c w r (rest z2)); auto.
    now apply forallb_space_inv.
  - destruct D as (z1 & Dg & _).
    destruct (den_literal gi (lit ">") _ _ Dg) as (g & [Rg _] & Sg & _).
    apply (@spells_caseless gi (lit ">")) in Sg; [|reflexivity]. subst g.
    rewrite Rg in Hrest.
    destruct a as [|e a]; cbn in Hrest; injection Hrest as <- _;
      inversion Fa as [|? ? Hd _]; now apply Hd.
Qed.

(** Nor inside the attribute text of a tag with a closing tag, when the
    attribute text does not end with a slash. *)
Lemma input_tail_fails_before (y : mstate) (a r : str) :
  rest y = a ++ lit ">" ++ r ->
  a <> [] ->
  Forall (fun d => d <> 62%N) a ->
  (forall b, a <> b ++ lit "/") ->
  RegExp.m gi input_tail y (fun z => Some z) = None.
Proof.
  intros Hrest Na Fa NS.
  destruct (RegExp.m gi input_tail y _) as [z|] eqn:E;
    [exfalso|reflexivity].
  destruct (m_sound _ _ _ _ E) as (y' & D & _). clear E.
  unfold input_tail in D. cbn [cat fold_right den] in D.
  destruct D as (z' & [D|D] & ->).
  - destruct D as (z1 & Dw & z2 & Dl & ->).
    destruct (den_run Dw) as (ws & [Rw _] & Fws & _).
    destruct (den_literal _ _ _ _ Dl) as (l & [Rl _] & Sl & _).
    apply (@spells_caseless gi (lit "/>")) in Sl; [|reflexivity]. subst l.
    rewrite Rw, Rl in Hrest. symmetry in Hrest.
    apply (NS ws).
    apply (@early_close_slash ws a r (rest z2)); auto.
    now apply forallb_space_inv.
  - destruct D as (z1 & Dg & _).
    destruct (den_literal gi (lit ">") _ _ Dg) as (g & [Rg _] & Sg & _).
    apply (@spells_caseless gi (lit ">")) in Sg; [|reflexivity]. subst g.
    rewrite Rg in Hrest.
    destruct a as [|e a]; [contradiction|]. cbn in Hrest.
    injection Hrest as <- _. inversion Fa as [|? ? Hd _]. now apply Hd.
Qed.

(** The first alternative of the end of the pattern, white space and
    [/>], is not found at a [>]. *)
Lemma slash_close_fails (y : mstate) (r : str) (k : RegExp.Cont) :
  rest y = lit ">" ++ r ->
  RegExp.m gi (cat [star sp; L "/>"]) y k = None.
Proof.
  intros Hrest.
  destruct (RegExp.m gi _ y k) as [z|] eqn:E; [exfalso|reflexivity].
  destruct (m_sound _ _ _ _ E) as (y' & D & _). clear E.
  cbn [cat fold_right den] in D.
  destruct D as (z1 & Dw & z2 & Dl & ->).
  destruct (den_run Dw) as (ws & [Rw _] & Fws & _).
  destruct (den_literal _ _ _ _ Dl) as (l & [Rl _] & Sl & _).
  apply (@spells_caseless gi (lit "/>")) in Sl; [|reflexivity]. subst l.
  rewrite Rw, Rl in Hrest.
  destruct ws as [|d ws]; cbn in Hrest; [discriminate Hrest|].
  injection Hrest as -> _. cbn in Fws. discriminate Fws.
Qed.

Lemma spells_input_prev (w' : str) (x : mstate) :
  spells gi (lit "<input") w' ->
  RegExp.word_at (prev (feed x w')) = true.
Proof.
  intros S.
  change (lit "<input") with (lit "<inpu" ++ [116%N]) in S.
  apply Forall2_app_inv_l in S. destruct S as (w1 & w2 & _ & S2 & ->).
  inversion S2 as [|p c ? l E S3]; subst. inversion S3; subst.
  rewrite feed_prev. cbn [RegExp.word_at].
  now apply (@chr_eq_letter 116%N c).
Qed.

Lemma firstn_exact (A : Type) (a b : list A) (n : nat) :
  n = length a -> firstn n (a ++ b) = a.
Proof.
  intros ->. rewrite firstn_app, firstn_all, Nat.sub_diag. cbn.
  apply app_nil_r.
Qed.

(** The input pattern matches at an input tag written as it wants it,
    and the match is the tag. *)
Lemma input_tag_matched (p : nat) (pv : option char) (w' body : str)
    (close : option (str * str)) (r : str) :
  input_tag_ok w' body close ->
  exists y,
    RegExp.match_at gi Basic.input_re p pv (input_tag w' body close ++ r)
    = Some y
    /\ pos y = p + length (input_tag w' body close).
Proof.
  intros (Sp & Fb & Hn & Hc).
  change Basic.input_re
    with (tag_pattern (lit "<input")
            (lookahead (Alt (L "aria-label") (L "id"))) input_tail).
  unfold RegExp.match_at, tag_pattern.
  set (x0 := RegExp.start p pv (input_tag w' body close ++ r)).
  set (tail := match close with
             | None => lit "/>"
             | Some (ws, x) => lit ">" ++ ws ++ x
             end).
  assert (R0 : rest x0 = w' ++ body ++ tail ++ r).
  { unfold x0, input_tag, tail. cbn [rest RegExp.start].
    destruct close as [[ws x]|]; now rewrite <- ?app_assoc. }
  rewrite m_seq, (@m_spelled gi _ _ Sp x0 _ _ R0).
  pose proof (@feed_rest _ _ _ R0) as R1.
  pose proof (spells_input_prev x0 Sp) as W1.
  pose proof (feed_pos w' x0) as P1.
  set (x := feed x0 w') in *.
  rewrite m_seq, m_neglook.
  rewrite (@input_lookahead_fails x body
             (match close with None => r | Some (ws, x) => ws ++ x ++ r end)
             (match close with None => true | Some _ => false end));
    [|rewrite R1; unfold tail; destruct close as [[ws c]|];
      now rewrite <- ?app_assoc|exact W1|exact Hn].
  rewrite m_seq, m_group, m_star_one.
  destruct close as [[ws c]|].
  - (* a closing tag *)
    destruct Hc as (Fw & Sc & NS). unfold tail in R1.
    set (y0 := RegExp.set_cap 1 (firstn (pos (feed x body) - pos x) (rest x))
                 (feed x body)).
    exists (feed (feed (feed y0 (lit ">")) ws) c).
    assert (Ry : rest y0 = lit ">" ++ ws ++ c ++ r).
    { unfold y0. cbn [rest RegExp.set_cap].
      rewrite (@feed_rest _ _ _ R1). now rewrite <- ?app_assoc. }
    split.
    + apply (@repeat_lazy_first _ _ _ body x ((lit ">" ++ ws ++ c) ++ r));
        [now apply forallb_not_gt|exact R1| |].
      * intros a1 a2 E N.
        apply (@input_tail_fails_before _ a2 (ws ++ c ++ r)); auto.
        -- cbn [rest RegExp.set_cap]. subst body.
           rewrite <- !app_assoc in R1.
           rewrite (@feed_rest _ _ _ R1). now rewrite <- ?app_assoc.
        -- subst body. apply Forall_app in Fb. tauto.
        -- intros b ->. apply (NS (a1 ++ b)). subst body.
           now rewrite <- app_assoc.
      * fold y0. unfold input_tail. rewrite cat_cons, m_seq, m_alt.
        rewrite (@slash_close_fails y0 (ws ++ c ++ r)) by exact Ry.
        rewrite cat_cons, m_seq. unfold L at 1.
        rewrite (@m_literal gi _ _ _ _ Ry).
        pose proof (@feed_rest _ _ _ Ry) as Rz.
        rewrite cat_cons, m_seq. unfold star, sp. rewrite m_star_one.
        apply (@repeat_greedy_end _ _ _ ws _ (c ++ r));
          [now apply forallb_space|exact Rz| |].
        -- inversion Sc as [|q d ? c' E Sc']; subst. cbn [app].
           apply (@chr_eq_caseless gi 60%N d eq_refl) in E. now subst d.
        -- pose proof (@feed_rest _ _ _ Rz) as Ru.
           rewrite cat_cons, m_seq.
           now rewrite (@m_spelled gi _ _ Sc _ _ _ Ru).
    + rewrite !feed_pos. unfold y0. cbn [pos RegExp.set_cap].
      rewrite feed_pos, P1. unfold x0, input_tag.
      cbn [pos RegExp.start]. rewrite !length_app. lia.
  - (* a self-closed tag *)
    unfold tail in R1.
    destruct (trailing_space body) as (u & ws & Eb & Fw & NS).
    set (y0 := RegExp.set_cap 1 (firstn (pos (feed x u) - pos x) (rest x))
                 (feed x u)).
    exists (feed (feed y0 ws) (lit "/>")).
    assert (R1' : rest x = u ++ ws ++ lit "/>" ++ r).
    { rewrite R1, Eb. now rewrite <- ?app_assoc. }
    assert (Fu : Forall (fun d => d <> 62%N) u
                 /\ Forall (fun d => d <> 62%N) ws).
    { rewrite Eb in Fb. now apply Forall_app in Fb. }
    destruct Fu as [Fu Fws].
    assert (Ry : rest y0 = ws ++ lit "/>" ++ r).
    { unfold y0. cbn [rest RegExp.set_cap].
      now rewrite (@feed_rest _ _ _ R1'). }
    split.
    + apply (@repeat_lazy_first _ _ _ u x (ws ++ lit "/>" ++ r));
        [now apply forallb_not_gt|exact R1'| |].
      * intros a1 a2 E N.
        destruct (@exists_last _ a2 N) as (a2' & d & ->).
        apply (@input_tail_fails_inside _ a2' d ws r); auto.
        -- cbn [rest RegExp.set_cap]. rewrite E in R1'.
           rewrite <- !app_assoc in R1'.
           rewrite (@feed_rest _ _ _ R1'). now rewrite <- ?app_assoc.
        -- rewrite E in Fu. apply Forall_app in Fu. tauto.
        -- apply (NS (a1 ++ a2') d). rewrite E. now rewrite app_assoc.
      * fold y0. unfold input_tail. rewrite cat_cons, m_seq, m_alt.
        assert (A : RegExp.m gi (cat [star sp; L "/>"]) y0
                      (fun y => RegExp.m gi (cat []) y (fun z => Some z))
                    = Some (feed (feed y0 ws) (lit "/>"))).
        { rewrite cat_cons, m_seq. unfold star, sp. rewrite m_star_one.
          apply (@repeat_greedy_end _ _ _ ws _ (lit "/>" ++ r));
            [now apply forallb_space|exact Ry|reflexivity|].
          pose proof (@feed_rest _ _ _ Ry) as Ru.
          rewrite cat_cons, m_seq. unfold L.
          now rewrite (@m_literal gi _ _ _ _ Ru). }
        now rewrite A.
    + rewrite !feed_pos. unfold y0. cbn [pos RegExp.set_cap].
      rewrite feed_pos, P1. unfold x0, input_tag.
      cbn [pos RegExp.start]. rewrite Eb, !length_app. lia.
Qed.

Lemma match_at_within (fl : flags) (r : regex) (p : nat) (pv : option char)
    (s : str) (y : mstate) :
  RegExp.match_at fl r p pv s = Some y -> pos y - p <= length s.
Proof.
  unfold RegExp.match_at. intros H.
  destruct (m_sound _ _ _ _ H) as (y' & D & E). injection E as ->.
  destruct (den_reaches _ _ _ _ D) as (w & [R P]).
  cbn [rest pos RegExp.start] in R, P. rewrite R, P, length_app. lia.
Qed.

Lemma scan_head (fl : flags) (r : regex) (p : nat) (pv : option char)
    (s : str) :
  RegExp.scan fl r p pv s 0
  = match RegExp.match_at fl r p pv s with
    | Some y =>
        RegExp.mk_result p s y
        :: match s with
           | [] => []
           | c :: t => RegExp.scan fl r (S p) (Some c) t (pred (pos y - p))
           end
    | None =>
        match s with
        | [] => []
        | c :: t => RegExp.scan fl r (S p) (Some c) t 0
        end
    end.
Proof. destruct s; reflexivity. Qed.

(** A text that the pattern matches wherever it stands is found by the
    scan, when no result that starts before it runs over its start. *)
Lemma scan_finds (fl : flags) (r : regex) (T rest : str) :
  (forall p pv,
     exists y, RegExp.match_at fl r p pv (T ++ rest) = Some y
               /\ pos y = p + length T) ->
  forall pre p0 pv skip,
    skip <= length pre ->
    clear_at (p0 + length pre)
      (RegExp.scan fl r p0 pv (pre ++ T ++ rest) skip) ->
    exists res,
      In res (RegExp.scan fl r p0 pv (pre ++ T ++ rest) skip)
      /\ RegExp.index res = p0 + length pre
      /\ RegExp.matched res = T.
Proof.
  intros H pre; induction pre as [|c pre IH]; intros p0 pv skip Hs Hc.
  - cbn [length] in Hs. replace skip with 0 by lia. cbn [app].
    rewrite scan_head. destruct (H p0 pv) as (y & -> & P).
    eexists. split; [left; reflexivity|].
    cbn [RegExp.index RegExp.matched RegExp.mk_result length].
    split; [lia|]. apply firstn_exact. lia.
  - cbn [app length] in *.
    replace (p0 + S (length pre)) with (S p0 + length pre) in * by lia.
    destruct skip as [|n].
    + rewrite scan_head in Hc |- *.
      destruct (RegExp.match_at fl r p0 pv (c :: pre ++ T ++ rest))
        as [y0|] eqn:E.
      * inversion Hc as [|? ? H0 Hc']; subst.
        cbn [RegExp.index RegExp.matched RegExp.mk_result] in H0.
        specialize (H0 ltac:(lia)).
        pose proof (match_at_within _ _ _ _ _ E) as W.
        rewrite length_firstn in H0.
        destruct (IH (S p0) (Some c) (pred (pos y0 - p0)))
          as (res & Hin & Hi & Hm); [lia|exact Hc'|].
        exists res. split; [right; exact Hin|now split].
      * destruct (IH (S p0) (Some c) 0) as (res & Hin & Hi & Hm);
          [lia|exact Hc|].
        exists res. now repeat split.
    + cbn [RegExp.scan] in Hc |- *.
      destruct (IH (S p0) (Some c) n) as (res & Hin & Hi & Hm);
        [lia|exact Hc|].
      exists res. now repeat split.
Qed.

Lemma clear_at_dec (n : nat) (rs : list RegExp.result) :
  forallb (fun res =>
             (n <=? RegExp.index res)
             || (RegExp.index res + length (RegExp.matched res) <=? n))
    rs = true ->
  clear_at n rs.
Proof.
  intros H. apply Forall_forall. intros res Hin Hlt.
  apply (proj1 (forallb_forall _ _) H) in Hin.
  apply orb_true_iff in Hin. destruct Hin as [K|K].
  - apply Nat.leb_le in K. lia.
  - now apply Nat.leb_le in K.
Qed.

Lemma input_tag_patched (w' body : str) (close : option (str * str)) :
  input_tag_ok w' body close ->
  Basic.input_patch (input_tag w' body close)
  = input_tag_fixed w' body close.
Proof.
  intros (Sp & Fb & _ & Hc).
  change (Basic.input_patch (input_tag w' body close))
    with (input_patch_with (lit "Input") (input_tag w' body close)).
  destruct close as [[ws x]|].
  - destruct Hc as (Fw & Sx & _).
    rewrite (@input_patched (lit "Input") _ w' body ws (Some x));
      [reflexivity|].
    repeat split; auto.
  - rewrite (@input_patched (lit "Input") _ w' body [] None).
    + unfold input_written, input_tag_fixed. reflexivity.
    + repeat split; auto.
Qed.

(** The input tags the rule finds in the text it scans. *)
Lemma input_tag_found (s pre w' body : str) (close : option (str * str))
    (rest : str) :
  s = pre ++ input_tag w' body close ++ rest ->
  input_tag_ok w' body close ->
  clear_at (length pre) (RegExp.matchAll gi Basic.input_re s) ->
  exists res,
    In res (RegExp.matchAll gi Basic.input_re s)
    /\ RegExp.index res = length pre
    /\ RegExp.matched res = input_tag w' body close.
Proof.
  intros -> Ok C. unfold RegExp.matchAll in *.
  apply (@scan_finds gi Basic.input_re _ rest
           (fun p pv => @input_tag_matched p pv w' body close rest Ok)
           pre 0 None 0); [lia|exact C].
Qed.

Lemma spelled_spells_inv (key : str) :
  forall k, spelled key k = true -> length k = length key -> spells gi key k.
Proof.
  induction key as [|p key IH]; intros [|c k] H L; try discriminate.
  - constructor.
  - cbn [spelled] in H. apply andb_true_iff in H. destruct H as [E H].
    constructor; [exact E|]. apply IH; [exact H|]. cbn in L. lia.
Qed.

(** A way to see that a text is an input tag as the pattern wants it. *)
Lemma input_tag_ok_intro (w' body : str) (close : option (str * str)) :
  spelled (lit "<input") w' = true -> length w' = 6 ->
  forallb (fun d => negb (d =? 62)%N) body = true ->
  names input_keys true body = false ->
  match close with
  | None => True
  | Some (ws, x) =>
      forallb JS.is_space ws = true
      /\ spelled (lit "</input>") x = true /\ length x = 8
      /\ last body 0%N <> 47%N
  end ->
  input_tag_ok w' body close.
Proof.
  intros S L F N C. split; [now apply spelled_spells_inv|].
  split.
  { apply Forall_forall. intros d Hd.
    apply (proj1 (forallb_forall _ _) F) in Hd.
    apply negb_true_iff, N.eqb_neq in Hd. exact Hd. }
  split; [exact N|].
  destruct close as [[ws x]|]; [|exact I].
  destruct C as (Fw & Sx & Lx & NS). split.
  { apply Forall_forall. intros d Hd.
    exact (proj1 (forallb_forall _ _) Fw d Hd). }
  split; [now apply spelled_spells_inv|].
  intros b ->. apply NS. unfold lit. cbn [list_ascii_of_string map].
  apply last_last.
Qed.

(** C4, as amended. The fifth rule works on the text the first four
    rules left.  When the label pattern is found anywhere in the original
    text, the rule records nothing (the result has no Forms fix) and
    leaves the text as it was.  Otherwise every match of its pattern is
    replaced by itself with the placeholder aria-label inserted, one
    Forms record is pushed per match, in order, and these are all the
    Forms records of the result.  The matches are the input tags: every
    input tag written as [input_tag_ok] says (the tag name in any case,
    an attribute text free of [>] that names neither aria-label nor id,
    then [/>], or [>], white space and the closing tag), wherever it
    stands in the text the rule scans, is the text of the match that
    starts there, unless an earlier match of the pattern runs over its
    start; and what the rule writes for it is the tag with the
    placeholder aria-label after its attribute text. *)
Theorem input_rule (src : str) :
  let before := before_input src in
  let found := RegExp.matchAll gi Basic.input_re (fst before) in
  let r := Basic.fixAccessibility src in
  (Basic.hasAssociatedLabel src = true ->
   count_category Forms (fixes r) = 0
   /\ fixes r = snd before
   /\ code r = JS.trim (fst before))
  /\
  (Basic.hasAssociatedLabel src = false ->
   fixes r
   = snd before
     ++ map (fun res => Basic.input_fix src (RegExp.index res)) found
   /\ count_category Forms (fixes r) = length found
   /\ code r
      = JS.trim (splice (fun res => Basic.input_patch (RegExp.matched res))
                   (fst before) 0 found)
   /\ Forall (fun res =>
                JS.includes (Basic.input_patch (RegExp.matched res))
                  input_label = true) found)
  /\
  (forall pre w' body close rest,
     fst before = pre ++ input_tag w' body close ++ rest ->
     input_tag_ok w' body close ->
     clear_at (length pre) found ->
     (exists res,
        In res found
        /\ RegExp.index res = length pre
        /\ RegExp.matched res = input_tag w' body close)
     /\ Basic.input_patch (input_tag w' body close)
        = input_tag_fixed w' body close).
Proof.
  cbv zeta. split; [|split].
  - intros L. unfold Basic.fixAccessibility. rewrite run_rules_last.
    pose proof (before_input_no_forms src) as NF.
    destruct (before_input src) as [c4 f4]. cbn [fst snd] in *.
    unfold Basic.run_rule. cbn [fst snd].
    rewrite replace_keep
      by (intros res st; unfold Basic.fix_input; now rewrite L).
    cbn [code fixes]. auto.
  - intros L. unfold Basic.fixAccessibility. rewrite run_rules_last.
    pose proof (before_input_no_forms src) as NF.
    destruct (before_input src) as [c4 f4]. cbn [fst snd] in *.
    unfold Basic.run_rule. cbn [fst snd].
    unfold RegExp.replace.
    rewrite (@build_push _ (Basic.fix_input src)
               (fun res => Basic.input_patch (RegExp.matched res))
               (fun res => Basic.input_fix src (RegExp.index res)))
      by (intros res st; unfold Basic.fix_input; now rewrite L).
    cbn [code fixes]. repeat split.
    + rewrite count_category_app, NF.
      now rewrite count_category_map by reflexivity.
    + apply scan_Forall. intros p pv s y H.
      apply input_patch_labelled.
      apply (@match_at_must_have gi 62%N Basic.input_re p pv s y);
        [reflexivity|reflexivity|exact H].
  - intros pre w' body close rest E Ok C. split.
    + now apply (@input_tag_found _ pre w' body close rest).
    + now apply input_tag_patched.
Qed.

Lemma input_rule_witness :
  let labelled := lit "<label for='n'>N</label><input type='text' />" in
  let bare := lit "<p><INPUT type='text'></input></p>" in
  (fixes (Basic.fixAccessibility labelled) = []
   /\ code (Basic.fixAccessibility labelled) = labelled
   /\ map RegExp.index
        (RegExp.matchAll gi Basic.input_re
           (fst (before_input labelled))) = [24])
  /\ (count_category Forms (fixes (Basic.fixAccessibility bare)) = 1
      /\ code (Basic.fixAccessibility bare)
         = lit "<p><INPUT type='text'" ++ input_label
             ++ lit "></input></p>")
  /\ (exists res,
        In res (RegExp.matchAll gi Basic.input_re
                  (fst (before_input labelled)))
        /\ RegExp.index res = 24
        /\ RegExp.matched res = lit "<input type='text' />")
  /\ (exists res,
        In res (RegExp.matchAll gi Basic.input_re (fst (before_input bare)))
        /\ RegExp.index res = 3
        /\ RegExp.matched res = lit "<INPUT type='text'></input>").
Proof.
  cbv zeta.
  destruct (input_rule (lit "<label for='n'>N</label><input type='text' />"))
    as (A & _ & T1).
  destruct (input_rule (lit "<p><INPUT type='text'></input></p>"))
    as (_ & B & T2).
  split; [|split; [|split]].
  - destruct A as (_ & F & C); [vm_compute; reflexivity|].
    split; [rewrite F; vm_compute; reflexivity|].
    split; [rewrite C|]; vm_compute; reflexivity.
  - destruct B as (_ & N & C & _); [vm_compute; reflexivity|].
    split; [rewrite N|rewrite C]; vm_compute; reflexivity.
  - apply (proj1 (T1 (lit "<label for='n'>N</label>") (lit "<input")
                    (lit " type='text' ") None []
                    ltac:(vm_compute; reflexivity)
                    ltac:(apply input_tag_ok_intro; reflexivity || exact I)
                    ltac:(apply clear_at_dec; vm_compute; reflexivity))).
  - apply (proj1 (T2 (lit "<p>") (lit "<INPUT") (lit " type='text'")
                    (Some ([], lit "</input>")) (lit "</p>")
                    ltac:(vm_compute; reflexivity)
                    ltac:(apply input_tag_ok_intro;
                          [reflexivity|reflexivity|reflexivity|reflexivity|];
                          repeat split; discriminate)
                    ltac:(apply clear_at_dec; vm_compute; reflexivity))).
Defined.



(** ** The diff of two texts with as many lines *)

Lemma diff_loop_aligned (o f : list str) :
  length o = length f ->
  forall n i,
    2 * (length o - i) <= n ->
    Basic.diff_loop o f n i i
    = flat_map (row_of o f) (seq i (length o - i)).
Proof.
  intros E n; induction n as [|n IH]; intros i H.
  - replace (length o - i) with 0 by lia. reflexivity.
  - cbn [Basic.diff_loop]. unfold Basic.diff_continues.
    destruct (Nat.lt_ge_cases i (length o)) as [L|L].
    + replace (i <? length o) with true by (symmetry; now apply Nat.ltb_lt).
      cbn [orb].
      replace (length o - i) with (S (length o - (i + 1))) by lia.
      cbn [seq flat_map]. replace (S i) with (i + 1) by lia.
      rewrite <- IH by lia.
      unfold Basic.diff_step, row_of.
      destruct (Basic.str_eqb _ _); [reflexivity|].
      replace (length o <=? i) with false
        by (symmetry; apply Nat.leb_gt; lia).
      replace (length f <=? i) with false
        by (symmetry; apply Nat.leb_gt; lia).
      destruct (Basic.same_next _ _); reflexivity.
    + replace (i <? length o) with false
        by (symmetry; now apply Nat.ltb_ge).
      replace (i <? length f) with false
        by (symmetry; apply Nat.ltb_ge; lia).
      replace (length o - i) with 0 by lia. reflexivity.
Qed.

(** X24. For two texts with the same number of lines the two cursors of
    [generateDiff] never part: the diff is one pass over the line
    numbers, line [i] of the original against line [i] of the rewritten
    text.  A line that differs is shown as [removed] and [added] only if
    the lines after it are the same; if they differ too, it is shown as
    [unchanged] with its original content. *)
Theorem generateDiff_single_pass (original fixed : str) :
  lineCount original = lineCount fixed ->
  Basic.generateDiff original fixed
  = flat_map (row_of (JS.split NL original) (JS.split NL fixed))
      (seq 0 (lineCount original)).
Proof.
  unfold lineCount, Basic.generateDiff. intros E.
  rewrite (@diff_loop_aligned _ _ E) by lia.
  now rewrite Nat.sub_0_r.
Qed.

Lemma generateDiff_single_pass_witness :
  Basic.generateDiff (lit "a" ++ [NL] ++ lit "b" ++ [NL] ++ lit "c")
    (lit "x" ++ [NL] ++ lit "y" ++ [NL] ++ lit "c")
  = [Basic.entry Basic.unchanged (lit "a") 1;
     Basic.entry Basic.removed (lit "b") 2;
     Basic.entry Basic.added (lit "y") 2;
     Basic.entry Basic.unchanged (lit "c") 3].
Proof.
  rewrite (@generateDiff_single_pass
             (lit "a" ++ [NL] ++ lit "b" ++ [NL] ++ lit "c")
             (lit "x" ++ [NL] ++ lit "y" ++ [NL] ++ lit "c"));
    reflexivity.
Defined.

(** X25. The diff of the results panel, for a source without white space
    at its ends and the code [fixAccessibility] returns for it: both
    have as many lines, so the diff is the single pass over the lines of
    the source, and it shows every line of the source once, as
    [unchanged] or as [removed]. *)
Theorem panel_diff_aligned (src : str) :
  trimmed src ->
  ResultsPanel.diff src (Some (Basic.fixAccessibility src))
  = flat_map (row_of (JS.split NL src)
                (JS.split NL (code (Basic.fixAccessibility src))))
      (seq 0 (lineCount src))
  /\ map Basic.content
       (original_side
          (ResultsPanel.diff src (Some (Basic.fixAccessibility src))))
     = JS.split NL src.
Proof.
  intros T.
  assert (E : lineCount src = lineCount (code (Basic.fixAccessibility src))).
  { unfold lineCount. rewrite !split_length. f_equal.
    pose proof (basic_raw_newlines src) as N.
    pose proof (run_rules_edges (basic_replacers_tagged src) (src, []))
      as [K _].
    unfold Basic.fixAccessibility.
    destruct (Basic.run_rules _ _) as [c fs]. cbn [fst code] in *.
    now rewrite (trim_id (K T)). }
  cbn [ResultsPanel.diff]. unfold Basic.generateDiff.
  fold (lineCount src).
  fold (lineCount (code (Basic.fixAccessibility src))).
  unfold lineCount in E |- *.
  rewrite (@diff_loop_aligned _ _ E) by lia.
  rewrite Nat.sub_0_r. split; [reflexivity|].
  set (o := JS.split NL src) in *.
  set (f := JS.split NL (code (Basic.fixAccessibility src))) in *.
  clear E.
  assert (G : forall i n, i + n = length o ->
            map Basic.content (original_side (flat_map (row_of o f) (seq i n)))
            = skipn i o).
  { intros i n; revert i; induction n as [|n IH]; intros i H.
    - cbn. rewrite skipn_all2 by lia. reflexivity.
    - cbn [seq flat_map]. unfold original_side in *.
      rewrite filter_app, map_app, IH by lia.
      rewrite (@skipn_line o i) by lia.
      replace (S i) with (i + 1) by lia. unfold row_of.
      destruct (Basic.str_eqb _ _); [reflexivity|].
      destruct (Basic.same_next _ _); reflexivity. }
  apply (G 0 (length o)). reflexivity.
Qed.

Lemma panel_diff_aligned_witness :
  map Basic.content
    (original_side
       (ResultsPanel.diff (lit "<p>" ++ [NL] ++ lit "<img></p>")
          (Some (Basic.fixAccessibility
                   (lit "<p>" ++ [NL] ++ lit "<img></p>")))))
  = JS.split NL (lit "<p>" ++ [NL] ++ lit "<img></p>").
Proof.
  apply (@panel_diff_aligned (lit "<p>" ++ [NL] ++ lit "<img></p>")).
  pose proof (trim_trimmed (lit "<p>" ++ [NL] ++ lit "<img></p>")) as T.
  assert (E : JS.trim (lit "<p>" ++ [NL] ++ lit "<img></p>")
              = lit "<p>" ++ [NL] ++ lit "<img></p>")
    by (vm_compute; reflexivity).
  rewrite E in T. exact T.
Defined.


(** ** The matcher does not depend on where the count starts *)

Section Shift.
Variable fl : flags.
Variable d : nat.

Lemma one_shift (ok : char -> bool) (x : mstate) (k k' : RegExp.Cont) :
  shifted d k k' ->
  RegExp.one ok (shift d x) k' = option_map (shift d) (RegExp.one ok x k).
Proof.
  intros H. unfold RegExp.one. cbn [rest shift].
  destruct (rest x) as [|c t]; [reflexivity|].
  destruct (ok c); [|reflexivity]. apply (H (RegExp.advance x c t)).
Qed.

Lemma repeat_shift (body : mstate -> RegExp.Cont -> option mstate)
    (greedy : bool) (k k' : RegExp.Cont) :
  (forall x K K', shifted d K K' ->
     body (shift d x) K' = option_map (shift d) (body x K)) ->
  shifted d k k' ->
  forall fuel x,
    RegExp.repeat body greedy k' fuel (shift d x)
    = option_map (shift d) (RegExp.repeat body greedy k fuel x).
Proof.
  intros Hb Hk fuel; induction fuel as [|f IH]; intros x;
    cbn [RegExp.repeat]; [apply Hk|].
  assert (Hs : shifted d
                (fun y => if pos y =? pos x then None
                          else RegExp.repeat body greedy k f y)
                (fun y => if pos y =? pos (shift d x) then None
                          else RegExp.repeat body greedy k' f y)).
  { intros y. cbn [pos shift].
    replace (pos y + d =? pos x + d) with (pos y =? pos x).
    - destruct (pos y =? pos x); [reflexivity|apply IH].
    - destruct (Nat.eqb_spec (pos y) (pos x)) as [E|E].
      + rewrite E. symmetry. apply Nat.eqb_refl.
      + symmetry. apply Nat.eqb_neq. lia. }
  rewrite (Hb x _ _ Hs), (Hk x).
  destruct greedy.
  - destruct (body x _); [reflexivity|]. cbn [option_map].
    reflexivity.
  - destruct (k x); [reflexivity|]. cbn [option_map]. reflexivity.
Qed.

Lemma m_shift (r : regex) :
  forall x k k', shifted d k k' ->
    RegExp.m fl r (shift d x) k' = option_map (shift d) (RegExp.m fl r x k).
Proof.
  induction r as [|p|negated items| |a IHa b IHb|a IHa b IHb|greedy a IHa
                 |n a IHa|a IHa|]; intros x k k' H; cbn [RegExp.m].
  - apply H.
  - now apply one_shift.
  - now apply one_shift.
  - now apply one_shift.
  - apply IHa. intros y. now apply IHb.
  - rewrite (IHa x k k' H), (IHb x k k' H).
    destruct (RegExp.m fl a x k); reflexivity.
  - cbn [rest shift]. apply repeat_shift; [|exact H].
    intros y K K' HK. now apply IHa.
  - apply IHa. intros y. cbn [pos rest shift].
    replace (pos y + d - (pos x + d)) with (pos y - pos x) by lia.
    apply (H (RegExp.set_cap n (firstn (pos y - pos x) (rest x)) y)).
  - rewrite (IHa x (fun y => Some y) (fun y => Some y))
      by (intros y; reflexivity).
    destruct (RegExp.m fl a x _); [reflexivity|apply H].
  - change (RegExp.is_boundary (shift d x)) with (RegExp.is_boundary x).
    destruct (RegExp.is_boundary x); [apply H|reflexivity].
Qed.
End Shift.

(** An attempt at position [p] fails exactly when the attempt at
    position 0 on the same text does. *)
Lemma match_at_anywhere (fl : flags) (r : regex) (p : nat)
    (pv : option char) (s : str) :
  RegExp.match_at fl r 0 pv s = None -> RegExp.match_at fl r p pv s = None.
Proof.
  unfold RegExp.match_at. intros H.
  change (RegExp.start p pv s) with (shift p (RegExp.start 0 pv s)).
  rewrite (@m_shift fl p r _ (fun y => Some y) (fun y => Some y))
    by (intros y; reflexivity).
  now rewrite H.
Qed.


(** ** A rewritten tag in lower case is not matched again *)

(** A rule pattern does not match at its tag name followed by the
    attribute its lookahead looks for. *)
Lemma key_written_skipped (fl : flags) (r : regex) (w : str)
    (KEY R : regex) (key a t s : str) (q : nat) (qv : option char) :
  r = Seq (cat (map Chr w)) (Seq (NegLook (lookahead KEY)) R) ->
  s = w ++ (a ++ [32%N]) ++ key ++ [] ++ lit "=" ++ t ->
  finds fl KEY key ->
  Forall (fun d => d <> 62%N) a ->
  RegExp.match_at fl r q qv s = None.
Proof.
  intros -> -> K Ha. unfold RegExp.match_at. rewrite m_seq.
  rewrite (@m_literal fl w (RegExp.start q qv _) _ _ eq_refl).
  rewrite m_seq. cbn [RegExp.m].
  destruct (RegExp.m fl (lookahead KEY) _ _) eqn:E; [reflexivity|].
  exfalso. revert E.
  apply (@lookahead_found fl KEY key _ a 32%N [] t K).
  - erewrite feed_rest; reflexivity.
  - apply Forall_app. split; [exact Ha|]. repeat constructor. discriminate.
  - reflexivity.
  - constructor.
Qed.

Lemma aria_label_found (fl : flags) :
  finds fl (L "aria-label") (lit "aria-label").
Proof.
  now apply (@finds_literal fl (lit "aria-label") 97%N (lit "ria-label")).
Qed.

(** The button pattern of either engine does not match at the text its
    rule writes for a match that starts with [<button]. *)
Lemma button_written_skipped (text pre rest : str) (res : RegExp.result) :
  JS.starts_with (lit "<button") (RegExp.matched res) = true ->
  not_matched_at gis Basic.button_re pre
    (fst (Basic.fix_button text res []) ++ rest)
  /\ not_matched_at gis AI.button_re pre
       (fst (AI.patch_button res tt) ++ rest).
Proof.
  intros H. cbn [Basic.fix_button AI.patch_button fst].
  rewrite !(@replace_first_head _ _ _ H).
  split; apply written_not_matched; intros q qv.
  - eapply (@key_written_skipped gis _ (lit "<button") (L "aria-label")
              _ (lit "aria-label") []);
      [reflexivity|rewrite <- !app_assoc; reflexivity
      |apply aria_label_found|constructor].
  - eapply (@key_written_skipped gis _ (lit "<button")
              (Alt (L "aria-label") (L "aria-labelledby"))
              _ (lit "aria-label") []);
      [reflexivity|rewrite <- !app_assoc; reflexivity
      |apply finds_alt_left, aria_label_found|constructor].
Qed.

(** The link pattern of either engine does not match at the text its
    rule writes for a match without text that starts with [<a]. *)
Lemma a_written_skipped (text pre rest : str) (res : RegExp.result) :
  JS.starts_with (lit "<a") (RegExp.matched res) = true ->
  JS.trim (RegExp.replace_text noflags Basic.tag_re
             (RegExp.matched res) []) = [] ->
  not_matched_at gi Basic.a_re pre (fst (Basic.fix_a text res []) ++ rest)
  /\ not_matched_at gi AI.a_re pre (fst (AI.patch_a res tt) ++ rest).
Proof.
  intros H T. unfold Basic.fix_a, AI.patch_a.
  change AI.tag_re with Basic.tag_re. rewrite T. cbn [fst].
  rewrite !(@replace_first_head _ _ _ H).
  split; apply written_not_matched; intros q qv.
  - eapply (@key_written_skipped gi _ (lit "<a") (L "aria-label")
              _ (lit "aria-label") []);
      [reflexivity|rewrite <- !app_assoc; reflexivity
      |apply aria_label_found|constructor].
  - eapply (@key_written_skipped gi _ (lit "<a")
              (Alt (L "aria-label") (L "aria-labelledby"))
              _ (lit "aria-label") []);
      [reflexivity|rewrite <- !app_assoc; reflexivity
      |apply finds_alt_left, aria_label_found|constructor].
Qed.

(** X26. The predicate of the button and of the link rule fails at the
    tag the rule wrote, when the tag name is in lower case: if the text
    of a match starts with [<button] (or with [<a], for a link without
    text), no match of the pattern of the rule starts at the text the
    rule writes in its place, in either engine, wherever that text stands
    and whatever follows it.  Nothing is said of a match that starts
    earlier and runs over that text.  The case-sensitive replacement is
    what makes the tag name matter. *)
Theorem lower_case_tag_fixed_once (text pre rest : str)
    (res : RegExp.result) :
  (JS.starts_with (lit "<button") (RegExp.matched res) = true ->
   Forall (fun res' => RegExp.index res' <> length pre)
     (RegExp.matchAll gis Basic.button_re
        (pre ++ fst (Basic.fix_button text res []) ++ rest))
   /\ Forall (fun res' => RegExp.index res' <> length pre)
        (RegExp.matchAll gis AI.button_re
           (pre ++ fst (AI.patch_button res tt) ++ rest)))
  /\ (JS.starts_with (lit "<a") (RegExp.matched res) = true ->
      JS.trim (RegExp.replace_text noflags Basic.tag_re
                 (RegExp.matched res) []) = [] ->
      Forall (fun res' => RegExp.index res' <> length pre)
        (RegExp.matchAll gi Basic.a_re
           (pre ++ fst (Basic.fix_a text res []) ++ rest))
      /\ Forall (fun res' => RegExp.index res' <> length pre)
           (RegExp.matchAll gi AI.a_re
              (pre ++ fst (AI.patch_a res tt) ++ rest))).
Proof.
  split.
  - apply button_written_skipped.
  - apply a_written_skipped.
Qed.

Lemma lower_case_tag_fixed_once_witness :
  let res := {| RegExp.index := 0;
                RegExp.matched := lit "<button><svg></svg></button>";
                RegExp.groups := [(1, [])] |} in
  let s := lit "<button><svg></svg></button>"
             ++ fst (Basic.fix_button [] res []) ++ lit "<a href='#'></a>" in
  Forall (fun res' => RegExp.index res' <> 28)
    (RegExp.matchAll gis Basic.button_re s)
  /\ map RegExp.index (RegExp.matchAll gis Basic.button_re s) = [0]
  /\ Forall (fun res' => RegExp.index res' <> 28)
       (RegExp.matchAll gi Basic.a_re
          (lit "<button><svg></svg></button>"
             ++ fst (Basic.fix_a []
                       {| RegExp.index := 0;
                          RegExp.matched := lit "<a href='#'></a>";
                          RegExp.groups := [(1, lit " href='#'")] |} [])
             ++ lit "<a href='#'></a>"))
  /\ map RegExp.index
       (RegExp.matchAll gi Basic.a_re
          (lit "<button><svg></svg></button>"
             ++ fst (Basic.fix_a []
                       {| RegExp.index := 0;
                          RegExp.matched := lit "<a href='#'></a>";
                          RegExp.groups := [(1, lit " href='#'")] |} [])
             ++ lit "<a href='#'></a>"))
     = [62].
Proof.
  cbv zeta. split; [|split; [|split]].
  - apply (proj1 (proj1 (@lower_case_tag_fixed_once []
                           (lit "<button><svg></svg></button>")
                           (lit "<a href='#'></a>")
                           {| RegExp.index := 0;
                              RegExp.matched
                              := lit "<button><svg></svg></button>";
                              RegExp.groups := [(1, [])] |}) eq_refl)).
  - vm_compute. reflexivity.
  - apply (proj1 (proj2 (@lower_case_tag_fixed_once []
                           (lit "<button><svg></svg></button>")
                           (lit "<a href='#'></a>")
                           {| RegExp.index := 0;
                              RegExp.matched := lit "<a href='#'></a>";
                              RegExp.groups := [(1, lit " href='#'")] |})
                   eq_refl eq_refl)).
  - vm_compute. reflexivity.
Defined.


(** The clickable-div pattern does not match at a div tag whose
    attribute text starts with the keyboard handler of [applyFixes]: the
    [>] of its arrow ends the attribute text before any [onClick]. *)
Lemma div_arrow_skipped (q : nat) (qv : option char) (t : str) :
  RegExp.match_at gi Basic.div_re q qv (lit "<div onKeyDown={(e) =>" ++ t)
  = None.
Proof. apply match_at_anywhere. vm_compute. reflexivity. Qed.

Lemma role_found (fl : flags) : finds fl (L "role") (lit "role").
Proof. now apply (@finds_literal fl (lit "role") 114%N (lit "ole")). Qed.

(** The clickable-div pattern does not match at the text the rule of
    either engine writes for a match that starts with [<div] and holds no
    [role=]. *)
Lemma div_written_skipped (text pre rest : str) (res : RegExp.result) :
  JS.starts_with (lit "<div") (RegExp.matched res) = true ->
  JS.includes (RegExp.matched res) (lit "role=") = false ->
  not_matched_at gi Basic.div_re pre (fst (Basic.fix_div text res []) ++ rest)
  /\ not_matched_at gi AI.div_re pre (fst (AI.patch_div res tt) ++ rest).
Proof.
  intros H I. unfold Basic.fix_div, AI.patch_div. cbn [fst].
  rewrite I. cbn [negb]. rewrite !(@replace_first_head _ _ _ H).
  set (sk := skipn (length (lit "<div")) (RegExp.matched res)).
  assert (P : forall q qv a t,
            Forall (fun d => d <> 62%N) a ->
            RegExp.match_at gi Basic.div_re q qv
              (lit "<div" ++ (a ++ [32%N]) ++ lit "role" ++ []
                 ++ lit "=" ++ t) = None).
  { intros q qv a t Ha.
    eapply (@key_written_skipped gi _ (lit "<div") (L "role") _
              (lit "role") a t);
      [reflexivity|reflexivity|apply role_found|exact Ha]. }
  assert (T : Forall (fun d => d <> 62%N) (lit " tabIndex={0}"))
    by (repeat constructor; discriminate).
  split.
  - apply written_not_matched. intros q qv.
    destruct (negb (JS.includes _ (lit "tabIndex"))).
    + rewrite replace_first_head by reflexivity.
      rewrite <- (P q qv (lit " tabIndex={0}")
                    (DQ ++ lit "button" ++ DQ ++ sk ++ rest) T).
      f_equal; rewrite <- ?app_assoc; reflexivity.
    + rewrite <- (P q qv [] (DQ ++ lit "button" ++ DQ ++ sk ++ rest)
                    (Forall_nil _)).
      f_equal; rewrite <- ?app_assoc; reflexivity.
  - apply written_not_matched. intros q qv. change AI.div_re with Basic.div_re.
    destruct (negb (JS.includes _ (lit "tabIndex"))).
    + rewrite (@replace_first_head _ (lit "<div") (lit "<div tabIndex={0}"))
        by reflexivity.
      destruct (negb (JS.includes _ (lit "onKeyDown"))).
      * rewrite replace_first_head by reflexivity.
        rewrite <- (div_arrow_skipped q qv
                      (lit " e.key === " ++ DQ ++ lit "Enter" ++ DQ
                         ++ lit " && e.currentTarget.click()}"
                         ++ lit " tabIndex={0} role=" ++ DQ ++ lit "button"
                         ++ DQ ++ sk ++ rest)).
        f_equal; rewrite <- ?app_assoc; reflexivity.
      * rewrite <- (P q qv (lit " tabIndex={0}")
                      (DQ ++ lit "button" ++ DQ ++ sk ++ rest) T).
        f_equal; rewrite <- ?app_assoc; reflexivity.
    + destruct (negb (JS.includes _ (lit "onKeyDown"))).
      * rewrite replace_first_head by reflexivity.
        rewrite <- (div_arrow_skipped q qv
                      (lit " e.key === " ++ DQ ++ lit "Enter" ++ DQ
                         ++ lit " && e.currentTarget.click()}"
                         ++ lit " role=" ++ DQ ++ lit "button"
                         ++ DQ ++ sk ++ rest)).
        f_equal; rewrite <- ?app_assoc; reflexivity.
      * rewrite <- (P q qv [] (DQ ++ lit "button" ++ DQ ++ sk ++ rest)
                      (Forall_nil _)).
        f_equal; rewrite <- ?app_assoc; reflexivity.
Qed.

(** X27. The predicate of the clickable-div rule fails at the tag the
    rule wrote, when the tag name is in lower case and the match holds no
    [role=]: no match of the clickable-div pattern starts at the text the
    rule writes in its place, in either engine, wherever that text stands
    and whatever follows it.  With [fixAccessibility] the lookahead finds
    the role that was added; with the AI service, when the keyboard
    handler was added, the [>] of its arrow function ends the tag for the
    pattern before [onClick] is reached.  Nothing is said of a match that
    starts further on: a second [<div] inside the attribute text is
    matched again. *)
Theorem div_fixed_once (text pre rest : str) (res : RegExp.result) :
  JS.starts_with (lit "<div") (RegExp.matched res) = true ->
  JS.includes (RegExp.matched res) (lit "role=") = false ->
  Forall (fun res' => RegExp.index res' <> length pre)
    (RegExp.matchAll gi Basic.div_re
       (pre ++ fst (Basic.fix_div text res []) ++ rest))
  /\ Forall (fun res' => RegExp.index res' <> length pre)
       (RegExp.matchAll gi AI.div_re
          (pre ++ fst (AI.patch_div res tt) ++ rest)).
Proof. apply div_written_skipped. Qed.

Lemma div_fixed_once_witness :
  let res := {| RegExp.index := 0;
                RegExp.matched := lit "<div <div onClick={f}>";
                RegExp.groups := [(1, lit " <div ")] |} in
  Forall (fun res' => RegExp.index res' <> 3)
    (RegExp.matchAll gi Basic.div_re
       (lit "<p>" ++ fst (Basic.fix_div [] res []) ++ lit "</p>"))
  /\ Forall (fun res' => RegExp.index res' <> 3)
       (RegExp.matchAll gi AI.div_re
          (lit "<p>" ++ fst (AI.patch_div res tt) ++ lit "</p>"))
  /\ map RegExp.index
       (RegExp.matchAll gi Basic.div_re
          (lit "<p>" ++ fst (Basic.fix_div [] res []) ++ lit "</p>"))
     = [35].
Proof.
  cbv zeta.
  pose proof (@div_fixed_once [] (lit "<p>") (lit "</p>")
                {| RegExp.index := 0;
                   RegExp.matched := lit "<div <div onClick={f}>";
                   RegExp.groups := [(1, lit " <div ")] |}
                eq_refl eq_refl) as [A B].
  split; [exact A|split; [exact B|vm_compute; reflexivity]].
Defined.

(** ** Running the engine twice

    What the absent-attribute predicate of each rule of
    [fixAccessibility] provides. *)







(** ** The narrative and the result it comes with *)

Lemma analysis_cases (code : str) (fs : list AccessibilityFix)
    (language : Service.Language) :
  (fs = [] /\ Service.generateAIAnalysis code fs language = excellent_message)
  \/ (fs <> []
      /\ exists t,
           Service.generateAIAnalysis code fs language
           = lit "AI analysis found " ++ t).
Proof.
  unfold Service.generateAIAnalysis. destruct fs as [|f fs].
  - left. split; reflexivity.
  - right. split; [discriminate|]. cbn [length Nat.eqb].
    repeat match goal with
           | |- context [if ?b then _ else _] => destruct b
           end;
      rewrite <- ?app_assoc; eexists; reflexivity.
Qed.

(** X28. The analysis text agrees with [hasChanges]: the result of
    [fixAccessibilityWithAI] has [hasChanges] false exactly when its
    analysis is the text that starts with [Excellent!], and true exactly
    when the analysis starts with [AI analysis found]. *)
Theorem analysis_agrees_with_hasChanges (text : str)
    (language : Service.Language) :
  let r := WithAI.fixAccessibilityWithAI text language in
  (WithAI.hasChanges r = false
   <-> WithAI.analysis r = Some excellent_message)
  /\ (WithAI.hasChanges r = true
      <-> exists t, WithAI.analysis r = Some (lit "AI analysis found " ++ t)).
Proof.
  cbn [WithAI.fixAccessibilityWithAI WithAI.hasChanges WithAI.analysis
       Service.analyzeCode Service.fixes Service.analysis].
  set (fs := AI.enhanceWithAIAnalysis text (AI.performBasicAnalysis text)).
  destruct (analysis_cases text fs language) as [[E A]|[N (t & A)]];
    rewrite A.
  - rewrite E. cbn [length Nat.ltb Nat.leb]. repeat split; auto;
      try discriminate.
    intros (t & K).
    apply (f_equal (fun o => match o with
                             | Some (c :: _) => c
                             | _ => 0%N
                             end)) in K.
    vm_compute in K. discriminate K.
  - assert (P : (0 <? length fs) = true)
      by (destruct fs; [congruence|reflexivity]).
    rewrite P. repeat split; auto; try discriminate.
    intros _. now exists t.
Qed.

Lemma enhance_keyboard (text : str) :
  Service.some_category KeyboardNavigation (AI.enhanceWithAIAnalysis text [])
  = true ->
  JS.includes text (lit "onClick") = true.
Proof.
  unfold AI.enhanceWithAIAnalysis.
  destruct (JS.includes text (lit "onClick")); [reflexivity|].
  cbn [andb].
  repeat match goal with
         | |- context [if ?b then _ else _] => destruct b
         end;
    cbn; discriminate.
Qed.

(** X29. On the index page the language passed on is jsx or html, never
    tsx, and a result that holds the keyboard advisory always comes with
    the two React suggestions: the advisory needs [onClick] in the
    source, which is one of the three marks that make the page pass
    jsx. *)
Theorem keyboard_advisory_means_jsx (src : str) :
  let r := WithAI.fixAccessibilityWithAI src (Index.language src) in
  Index.language src <> Service.tsx
  /\ (Service.some_category KeyboardNavigation (WithAI.fixes r) = true ->
      Index.language src = Service.jsx
      /\ exists sg,
           WithAI.suggestions r = Some sg
           /\ In Service.suggest_testing sg
           /\ In Service.suggest_focus sg).
Proof.
  cbv zeta. split.
  - unfold Index.language. destruct (_ || _); discriminate.
  - cbn [WithAI.fixAccessibilityWithAI WithAI.fixes WithAI.suggestions
         Service.analyzeCode Service.fixes Service.suggestions].
    rewrite enhance_split. unfold Service.some_category at 1.
    rewrite existsb_app.
    fold (Service.some_category KeyboardNavigation
            (AI.performBasicAnalysis src)).
    fold (Service.some_category KeyboardNavigation
            (AI.enhanceWithAIAnalysis src [])).
    rewrite some_category_map, detected_categories, !existsb_app,
      !existsb_repeat.
    cbn [Category_eqb]. rewrite !andb_false_r. cbn [orb].
    intros H. apply enhance_keyboard in H.
    assert (J : Index.language src = Service.jsx)
      by (unfold Index.language; rewrite H, orb_true_r; reflexivity).
    split; [exact J|]. eexists. split; [reflexivity|].
    rewrite <- enhance_split.
    destruct (suggestion_given src
                (AI.enhanceWithAIAnalysis src (AI.performBasicAnalysis src))
                (Index.language src)) as (_ & _ & _ & T & U).
    rewrite T, U, J. split; reflexivity.
Qed.

Lemma keyboard_advisory_means_jsx_witness :
  Index.language (lit "<div onClick={f}>x</div>") = Service.jsx.
Proof.
  apply (@keyboard_advisory_means_jsx (lit "<div onClick={f}>x</div>")).
  vm_compute. reflexivity.
Defined.
